(** * box-jump: the simulation core of [script.js]

    A shallow embedding of the kinematic body ([class Player]), the beam
    geometry ([Game.getLaserBounds]), the scripted motion of platforms and
    hazards ([applyMovement] inside [Game.update]) and the trigger and
    dormancy bookkeeping ([Game.loadLevel], [Game.update]).

    JavaScript numbers are read as real numbers: every comparison,
    [Math.hypot], [Math.sin] and [Math.cos] keep their mathematical meaning
    and rounding is left out.  A property that may be [undefined] in the
    level data is an [option]; [a || d] and the truthiness tests of the
    source are written out in [orElse] and [truthy].  Camera shake, particles,
    console output and drawing never write to the simulated objects and are
    not part of the model. *)

From Stdlib Require Import Reals Lra ZArith String.
From stdpp Require Import base decidable option list strings.

Open Scope R_scope.

(** ** JavaScript numbers *)

#[global] Instance R_eq_dec : EqDecision R := Req_dec_T.
#[global] Instance Rlt_decision : RelDecision Rlt := Rlt_dec.
#[global] Instance Rle_decision : RelDecision Rle := Rle_dec.
#[global] Instance Rgt_decision : RelDecision Rgt := fun a b => Rlt_dec b a.
#[global] Instance Rge_decision : RelDecision Rge := Rge_dec.

Notation "a <? b" := (bool_decide (a < b)) (at level 70, no associativity) : R_scope.
Notation "a <=? b" := (bool_decide (a <= b)) (at level 70, no associativity) : R_scope.
Notation "a >? b" := (bool_decide (a > b)) (at level 70, no associativity) : R_scope.
Notation "a >=? b" := (bool_decide (a >= b)) (at level 70, no associativity) : R_scope.
Notation "a =? b" := (bool_decide (a = b)) (at level 70, no associativity) : R_scope.

(** Sequenced mutation of one object: [p |> f |> g] is [g (f p)]. *)
Notation "p |> f" := (f p) (at level 45, left associativity, only parsing).

(** [a || d] on a property that holds a number or is missing: [undefined]
    and [0] are falsy and give [d]. *)
Definition orElse (a : option R) (d : R) : R :=
  match a with
  | Some v => if v =? 0 then d else v
  | None => d
  end.

(** Truthiness of such a property, as in [if (obj.speed)]. *)
Definition truthy (a : option R) : bool :=
  match a with
  | Some v => negb (v =? 0)
  | None => false
  end.

(** [a > 0] where [a] may be missing: a comparison with [undefined] is false. *)
Definition positive (a : option R) : bool :=
  match a with
  | Some v => v >? 0
  | None => false
  end.

(** ** Settings *)

(** [const defaultSettings], the global fallback.  [worldWidth] and
    [worldHeight] are the size of the browser window and are not read by the
    code modelled here. *)
Module defaultSettings.
Definition gravity : R := 0.4.
Definition friction : R := 0.85.
Definition jumpForce : R := -11.
Definition speed : R := 4.
Definition maxFallSpeed : R := 9.
Definition fastFallSpeed : R := 15.
Definition gridSize : R := 25.
Definition playerMaxHp : R := 100.
Definition playerMaxMp : R := 100.
Definition platformCost : R := 10.
Definition fallDamage : R := 20.
Definition mpRegen : R := 0.1.
End defaultSettings.

(** The [settings] record of a level, after [Game.loadLevel] has put the
    world size in place.  [fallDamage] and [mpRegen] are tested for
    [undefined] where they are used. *)
Module Settings.
Record t : Type := mk {
  gravity : R;
  friction : R;
  jumpForce : R;
  speed : R;
  maxFallSpeed : R;
  fastFallSpeed : R;
  gridSize : R;
  worldWidth : R;
  worldHeight : R;
  playerMaxHp : R;
  playerMaxMp : R;
  platformCost : R;
  fallDamage : option R;
  mpRegen : option R
}.
End Settings.

(** ** Input state: the entries of [keys] the body polls. *)
Record Keys : Type := mkKeys {
  KeyA : bool;
  KeyD : bool;
  KeyW : bool;
  KeyS : bool;
  Space : bool;
  ShiftLeft : bool;
  ShiftRight : bool
}.

Definition noKeys : Keys := mkKeys false false false false false false false.

(** ** Level objects *)

(** Platforms and traps are plain objects of the level data.  Both carry the
    optional motion script; a trap also has [type], [rotation], [scale],
    [damage] and [dormant].  A platform's [(x, y)] is its top-left corner, a
    trap's is its centre. *)
Module Obj.
Record t : Type := mk {
  type : string;
  x : R;
  y : R;
  width : R;
  height : R;
  rotation : option Z;
  scale : option R;
  damage : option R;
  dormant : bool;
  speed : option R;
  tx : option R;
  ty : option R;
  oscX : option R;
  oscY : option R;
  oscSpeed : option R;
  baseX : option R;
  baseY : option R;
  startX : option R;
  startY : option R;
  movingForward : option bool;
  oscTime : option R
}.

Definition eta (o : t) : t :=
  mk (type o) (x o) (y o) (width o) (height o) (rotation o) (scale o) (damage o)
     (dormant o) (speed o) (tx o) (ty o) (oscX o) (oscY o) (oscSpeed o)
     (baseX o) (baseY o) (startX o) (startY o) (movingForward o) (oscTime o).
End Obj.

(** A static rectangle, as the built-in levels write it. *)
Definition rect (x y width height : R) : Obj.t :=
  Obj.mk "" x y width height None None None false None None None None None None
         None None None None None None.

Module JumpPad.
Record t : Type := mk {
  x : R;
  y : R;
  width : R;
  height : R;
  jumpForce : option R
}.
End JumpPad.

Module Point.
Record t : Type := mk { x : R; y : R }.
End Point.

(** An assignment to one field rebuilds the object around the new value:
    [setter proj] abstracts the projection [proj] out of the eta expansion
    [eta] of the record. *)
Ltac setter eta proj :=
  let e := eval cbv delta [eta] in eta in
  lazymatch eval pattern proj in e with
  | ?F _ => let s := eval cbv beta in (fun v o => F (fun _ => v) o) in exact s
  end.

Module ObjSet.
Import Obj.
Definition set_x : R -> t -> t := ltac:(setter eta x).
Definition set_y : R -> t -> t := ltac:(setter eta y).
Definition set_dormant : bool -> t -> t := ltac:(setter eta dormant).
Definition set_baseX : option R -> t -> t := ltac:(setter eta baseX).
Definition set_baseY : option R -> t -> t := ltac:(setter eta baseY).
Definition set_startX : option R -> t -> t := ltac:(setter eta startX).
Definition set_startY : option R -> t -> t := ltac:(setter eta startY).
Definition set_movingForward : option bool -> t -> t := ltac:(setter eta movingForward).
Definition set_oscTime : option R -> t -> t := ltac:(setter eta oscTime).
End ObjSet.

(** ** The kinematic body: [class Player] *)

Record TrailPos : Type := mkTrailPos {
  trailX : R;
  trailY : R;
  trailDashing : bool
}.

Module Player.
Record t : Type := mk {
  x : R;
  y : R;
  width : R;
  height : R;
  vx : R;
  vy : R;
  grounded : bool;
  jumpLocked : bool;
  trail : list TrailPos;
  maxHp : R;
  hp : R;
  maxMp : R;
  mp : R;
  defense : R;
  invulnerable : bool;
  invulnerableTimer : R;
  extraJumps : R;
  jumpsRemaining : R;
  extraDashes : R;
  dashesRemaining : R;
  dashCooldown : R;
  isDashing : bool;
  dashTimer : R;
  lastDirection : R;
  wallClimbLevel : R;
  lastTouchingWall : R;
  wallJumpTimer : R;
  isWallSliding : bool;
  isWallClimbing : bool;
  dashSpeedMult : option R;
  doubleJumpMult : option R
}.

Definition eta (p : t) : t :=
  mk (x p) (y p) (width p) (height p) (vx p) (vy p) (grounded p) (jumpLocked p)
     (trail p) (maxHp p) (hp p) (maxMp p) (mp p) (defense p) (invulnerable p)
     (invulnerableTimer p) (extraJumps p) (jumpsRemaining p) (extraDashes p)
     (dashesRemaining p) (dashCooldown p) (isDashing p) (dashTimer p)
     (lastDirection p) (wallClimbLevel p) (lastTouchingWall p) (wallJumpTimer p)
     (isWallSliding p) (isWallClimbing p) (dashSpeedMult p) (doubleJumpMult p).

Definition set_x : R -> t -> t := ltac:(setter eta x).
Definition set_y : R -> t -> t := ltac:(setter eta y).
Definition set_vx : R -> t -> t := ltac:(setter eta vx).
Definition set_vy : R -> t -> t := ltac:(setter eta vy).
Definition set_grounded : bool -> t -> t := ltac:(setter eta grounded).
Definition set_jumpLocked : bool -> t -> t := ltac:(setter eta jumpLocked).
Definition set_trail : list TrailPos -> t -> t := ltac:(setter eta trail).
Definition set_hp : R -> t -> t := ltac:(setter eta hp).
Definition set_mp : R -> t -> t := ltac:(setter eta mp).
Definition set_invulnerable : bool -> t -> t := ltac:(setter eta invulnerable).
Definition set_invulnerableTimer : R -> t -> t := ltac:(setter eta invulnerableTimer).
Definition set_jumpsRemaining : R -> t -> t := ltac:(setter eta jumpsRemaining).
Definition set_dashesRemaining : R -> t -> t := ltac:(setter eta dashesRemaining).
Definition set_dashCooldown : R -> t -> t := ltac:(setter eta dashCooldown).
Definition set_isDashing : bool -> t -> t := ltac:(setter eta isDashing).
Definition set_dashTimer : R -> t -> t := ltac:(setter eta dashTimer).
Definition set_lastDirection : R -> t -> t := ltac:(setter eta lastDirection).
Definition set_lastTouchingWall : R -> t -> t := ltac:(setter eta lastTouchingWall).
Definition set_wallJumpTimer : R -> t -> t := ltac:(setter eta wallJumpTimer).
Definition set_isWallSliding : bool -> t -> t := ltac:(setter eta isWallSliding).
Definition set_isWallClimbing : bool -> t -> t := ltac:(setter eta isWallClimbing).

(** [reset()]: the body as the constructor leaves it. *)
Definition reset : t :=
  mk 100 100 30 30 0 0 false false []
     defaultSettings.playerMaxHp defaultSettings.playerMaxHp
     defaultSettings.playerMaxMp defaultSettings.playerMaxMp 0 false 0
     0 0 0 0 0 false 0 1 0 0 0 false false None None.

(** [takeDamage(amount)].  The shake, the particles and the deferred
    [game.gameOver()] of a lethal hit do not touch the body. *)
Definition takeDamage (amount : R) (p : t) : t :=
  if invulnerable p then p
  else
    let dmg := amount - defense p in
    let dmg := if dmg <? 0 then 0 else dmg in
    let p := p |> set_hp (hp p - dmg) in
    let p := if hp p <? 0 then p |> set_hp 0 else p in
    p |> set_invulnerable true |> set_invulnerableTimer 30.

(** [consumeMp(amount)]; the returned flag is not used by [update]. *)
Definition consumeMp (amount : R) (p : t) : t :=
  if mp p >=? amount then p |> set_mp (mp p - amount) else p.

(** [update(platforms, levelSettings, dt)].  Besides its arguments the
    method reads the global [keys] and, through the global [game],
    [game.currentLevelData.jumppads] and [game.currentLevelData.spawn]. *)
Section update.
Variable keys : Keys.
Variable jumppads : list JumpPad.t.
Variable spawn : option Point.t.
Variable platforms : list Obj.t.
Variable levelSettings : Settings.t.
Variable dt : R.

(** Record trail for ghosting effect: the last 12 positions. *)
Definition recordTrail (p : t) : t :=
  let tr := mkTrailPos (x p) (y p) (isDashing p) :: trail p in
  p |> set_trail (if bool_decide (12 < length tr)%nat then removelast tr else tr).

Definition tickInvulnerable (p : t) : t :=
  if invulnerable p then
    let p := p |> set_invulnerableTimer (invulnerableTimer p - 1) in
    if invulnerableTimer p <=? 0 then p |> set_invulnerable false else p
  else p.

(** Skill cooldowns and timers. *)
Definition tickCooldowns (p : t) : t :=
  let p := if dashCooldown p >? 0
           then p |> set_dashCooldown (dashCooldown p - dt) else p in
  if isDashing p then
    let p := p |> set_dashTimer (dashTimer p - dt) in
    if dashTimer p <=? 0 then p |> set_isDashing false else p
  else p.

(** Global physics constants: [const speed], [const gravity]. *)
Definition speedOf (p : t) : R :=
  if isDashing p then defaultSettings.speed * orElse (dashSpeedMult p) 4
  else defaultSettings.speed.

Definition gravityOf (p : t) : R :=
  if isDashing p then 0 else defaultSettings.gravity.

(** MP regen (time-based). *)
Definition regenMp (p : t) : t :=
  let regenRate := default 0.1 (Settings.mpRegen levelSettings) in
  if mp p <? maxMp p then
    let p := p |> set_mp (mp p + regenRate * dt) in
    if mp p >? maxMp p then p |> set_mp (maxMp p) else p
  else p.

(** Input handling, horizontal. *)
Definition horizontalInput (speed : R) (p : t) : t :=
  if negb (isDashing p) then
    if wallJumpTimer p >? 0 then
      p |> set_wallJumpTimer (wallJumpTimer p - dt)
    else if KeyA keys then
      p |> set_vx (- speed) |> set_lastDirection (-1)
    else if KeyD keys then
      p |> set_vx speed |> set_lastDirection 1
    else
      let p := p |> set_vx (vx p * defaultSettings.friction) in
      if Rabs (vx p) <? 0.1 then p |> set_vx 0 else p
  else
    p |> set_vx (speed * lastDirection p) |> set_vy 0.

(** Dash skill. *)
Definition dashSkill (p : t) : t :=
  if (extraDashes p >? 0) && (ShiftLeft keys || ShiftRight keys)
     && (dashCooldown p <=? 0) && negb (isDashing p) && (dashesRemaining p >? 0)
  then
    p |> set_dashesRemaining (dashesRemaining p - 1) |> set_isDashing true
      |> set_dashTimer 0.2 |> set_dashCooldown 0.6
  else p.

Definition jumpInput : bool := KeyW keys || Space keys.

(** Wall slide, wall climb and wall jump; the flag is [didWallJump]. *)
Definition wallLogic (speed jumpForce : R) (justJumped : bool) (p : t) : t * bool :=
  let p := p |> set_isWallSliding false |> set_isWallClimbing false in
  if (wallClimbLevel p >? 0) && negb (grounded p) && negb (lastTouchingWall p =? 0)
  then
    let holdingIntoWall :=
      ((lastTouchingWall p =? -1) && KeyA keys)
      || ((lastTouchingWall p =? 1) && KeyD keys) in
    let holdingAwayFromWall :=
      ((lastTouchingWall p =? -1) && KeyD keys)
      || ((lastTouchingWall p =? 1) && KeyA keys) in
    if holdingIntoWall then
      let p := p |> set_isWallSliding true in
      let canClimb := (wallClimbLevel p >=? 2) || (mp p >? 0) in
      if jumpInput && canClimb then
        let p := p |> set_isWallClimbing true |> set_vy (- speed * 0.8) in
        (if wallClimbLevel p <? 2 then consumeMp (1 * dt) p else p, false)
      else
        (if vy p >? 1.5 then p |> set_vy 1.5 else p, false)
    else if justJumped && holdingAwayFromWall then
      (p |> set_vy jumpForce
         |> set_vx (if lastTouchingWall p =? -1 then speed * 1.5 else - speed * 1.5)
         |> set_wallJumpTimer 0.2 |> set_jumpLocked true
         |> set_jumpsRemaining (extraJumps p)
         |> set_dashesRemaining (extraDashes p)
         |> set_lastTouchingWall 0, true)
    else (p, false)
  else (p, false).

(** Jump and double jump. *)
Definition jumpLogic (jumpForce : R) (didWallJump : bool) (p : t) : t :=
  if jumpInput && negb didWallJump then
    if grounded p && negb (jumpLocked p) then
      p |> set_vy jumpForce |> set_grounded false |> set_jumpLocked true
        |> set_jumpsRemaining (extraJumps p)
        |> set_dashesRemaining (extraDashes p)
    else if negb (grounded p) && negb (jumpLocked p) && (jumpsRemaining p >? 0)
            && negb (isWallSliding p) then
      p |> set_vy (jumpForce * orElse (doubleJumpMult p) 1)
        |> set_jumpsRemaining (jumpsRemaining p - 1) |> set_jumpLocked true
    else p
  else if negb jumpInput then p |> set_jumpLocked false
  else p.

(** Gravity. *)
Definition applyGravity (gravity : R) (p : t) : t :=
  if negb (isWallClimbing p) then
    let p := p |> set_vy (vy p + gravity) in
    let maxFall := if KeyS keys then defaultSettings.fastFallSpeed
                   else defaultSettings.maxFallSpeed in
    if vy p >? maxFall then p |> set_vy maxFall else p
  else p.

(** Jump pad collision: the player's feet intersect the top of the pad. *)
Definition onJumpPad (p : t) (jp : JumpPad.t) : bool :=
  (x p + width p >? JumpPad.x jp) && (x p <? JumpPad.x jp + JumpPad.width jp)
  && (y p + height p >=? JumpPad.y jp) && (y p + height p <=? JumpPad.y jp + 20)
  && (vy p >=? 0).

Definition jumpPadStep (p : t) (jp : JumpPad.t) : t :=
  if onJumpPad p jp then
    let jf := default (-20) (JumpPad.jumpForce jp) in
    let jf := if jf >=? 0 then -20 else jf in
    p |> set_vy jf |> set_y (JumpPad.y jp - height p)
      |> set_grounded false |> set_jumpLocked true
      |> set_jumpsRemaining (extraJumps p)
      |> set_dashesRemaining (extraDashes p)
      |> set_isWallClimbing false |> set_isWallSliding false
  else p.

Definition jumpPadCollision (p : t) : t := fold_left jumpPadStep jumppads p.

(** The rectangle test both collision passes use. *)
Definition overlaps (p : t) (o : Obj.t) : bool :=
  (x p + width p >? Obj.x o) && (x p <? Obj.x o + Obj.width o)
  && (y p + height p >? Obj.y o) && (y p <? Obj.y o + Obj.height o).

(** X-axis movement and collision. *)
Definition resolveX (p : t) (o : Obj.t) : t :=
  if overlaps p o then
    if vx p >? 0 then
      p |> set_x (Obj.x o - width p) |> set_vx 0 |> set_lastTouchingWall 1
    else if vx p <? 0 then
      p |> set_x (Obj.x o + Obj.width o) |> set_vx 0 |> set_lastTouchingWall (-1)
    else p
  else p.

Definition advanceX (p : t) : t :=
  let worldW := Settings.worldWidth levelSettings in
  let p := p |> set_x (x p + vx p) in
  if x p <? 0 then p |> set_x 0 |> set_vx 0 |> set_lastTouchingWall (-1)
  else if x p + width p >? worldW then
    p |> set_x (worldW - width p) |> set_vx 0 |> set_lastTouchingWall 1
  else p |> set_lastTouchingWall 0.

Definition moveX (p : t) : t := fold_left resolveX platforms (advanceX p).

(** Y-axis movement and collision. *)
Definition resolveY (p : t) (o : Obj.t) : t :=
  if overlaps p o then
    if vy p >? 0 then
      p |> set_y (Obj.y o - height p) |> set_vy 0 |> set_grounded true
        |> set_jumpsRemaining (extraJumps p)
        |> set_dashesRemaining (extraDashes p)
    else if vy p <? 0 then
      p |> set_y (Obj.y o + Obj.height o) |> set_vy 0
    else p
  else p.

(** The pass starts from the body moved by [vy], kept below the top of the
    world and no longer grounded. *)
Definition advanceY (p : t) : t :=
  let p := p |> set_y (y p + vy p) in
  let p := if y p <? 0
           then let p := p |> set_y 0 in
                if vy p <? 0 then p |> set_vy 0 else p
           else p in
  p |> set_grounded false.

Definition moveY (p : t) : t := fold_left resolveY platforms (advanceY p).

(** Fall damage logic.  Reading [spawn.x] of a level without a spawn
    point throws a [TypeError]: the update has no result then. *)
Definition fallDamageLogic (p : t) : option t :=
  let worldH := Settings.worldHeight levelSettings in
  if y p >? worldH + 100 then
    let damage := orElse (Settings.fallDamage levelSettings) 20 in
    let p := takeDamage damage p in
    if hp p >? 0 then
      match spawn with
      | Some s =>
          Some (p |> set_x (Point.x s) |> set_y (Point.y s)
                  |> set_vx 0 |> set_vy 0 |> set_trail [])
      | None => None
      end
    else Some p
  else Some p.

(** The body of [update] up to and including the y-axis pass. *)
Definition integrate (p : t) : t :=
  let p := p |> recordTrail |> tickInvulnerable |> tickCooldowns in
  let speed := speedOf p in
  let jumpForce := defaultSettings.jumpForce in
  let gravity := gravityOf p in
  let p := p |> regenMp |> horizontalInput speed |> dashSkill in
  let justJumped := jumpInput && negb (jumpLocked p) in
  let '(p, didWallJump) := wallLogic speed jumpForce justJumped p in
  p |> jumpLogic jumpForce didWallJump |> applyGravity gravity
    |> jumpPadCollision |> moveX |> moveY.

Definition update (p : t) : option t := fallDamageLogic (integrate p).
End update.

(** What one call of [update] is given, and a sequence of calls. *)
Record Tick : Type := mkTick {
  tickKeys : Keys;
  tickJumppads : list JumpPad.t;
  tickSpawn : option Point.t;
  tickPlatforms : list Obj.t;
  tickSettings : Settings.t;
  tickDt : R
}.

Definition tick (i : Tick) (p : t) : option t :=
  update (tickKeys i) (tickJumppads i) (tickSpawn i) (tickPlatforms i)
         (tickSettings i) (tickDt i) p.

Fixpoint updates (ticks : list Tick) (p : t) : option t :=
  match ticks with
  | [] => Some p
  | i :: rest => p ← tick i p; updates rest p
  end.
End Player.

(** ** Triggers, level data and the game object *)

Module Binding.
Record t : Type := mk { trapIndex : nat; delay : R }.
End Binding.

(** A trigger volume; a missing [bindings] array is the empty list. *)
Module Trigger.
Record t : Type := mk {
  x : R;
  y : R;
  width : R;
  height : R;
  oneShot : bool;
  triggered : bool;
  bindings : list Binding.t
}.

Definition set_triggered (v : bool) (tr : t) : t :=
  mk (x tr) (y tr) (width tr) (height tr) (oneShot tr) v (bindings tr).
End Trigger.

Module LevelData.
Record t : Type := mk {
  settings : Settings.t;
  platforms : list Obj.t;
  traps : list Obj.t;
  jumppads : list JumpPad.t;
  triggers : list Trigger.t;
  spawn : option Point.t
}.
End LevelData.

Inductive GameState : Type := play | edit | won.

#[global] Instance GameState_eq_dec : EqDecision GameState.
Proof. solve_decision. Defined.

(** A callback registered with [setTimeout] by the trigger detection and
    not run yet: [() => { if (this.state === 'play') trap.dormant = false; }].
    [due] is the host time in milliseconds at which it runs; the captured
    [trap] object is the entry [trapIndex] of the current [traps] array, whose
    entries keep their places while a level is played. *)
Module Timer.
Record t : Type := mk { due : R; trapIndex : nat }.
End Timer.

Module Game.
Import ObjSet.

Record t : Type := mk {
  state : GameState;
  currentLevelData : LevelData.t;
  player : Player.t;
  lastTimestamp : R;
  timers : list Timer.t
}.

(** [loadLevel], "Reset and Initialize Dormancy for Triggers": every trap
    is woken, every trigger disarmed, and each trap some binding names is
    put to sleep. *)
Definition bindDormant (traps : list Obj.t) (bind : Binding.t) : list Obj.t :=
  alter (set_dormant true) (Binding.trapIndex bind) traps.

Definition initDormancy (ld : LevelData.t) : LevelData.t :=
  let traps := set_dormant false <$> LevelData.traps ld in
  let traps :=
    fold_left (fun traps tr => fold_left bindDormant (Trigger.bindings tr) traps)
              (LevelData.triggers ld) traps in
  LevelData.mk (LevelData.settings ld) (LevelData.platforms ld) traps
               (LevelData.jumppads ld)
               (Trigger.set_triggered false <$> LevelData.triggers ld)
               (LevelData.spawn ld).

(** *** [getLaserBounds(trap, platforms)] *)

Record LaserBounds : Type := mkBounds {
  minX : R; maxX : R; minY : R; maxY : R;
  startX : R; startY : R; endX : R; endY : R
}.

(** [(trap.rotation || 0) % 360]; [%] truncates like [Z.rem]. *)
Definition rotationOf (trap : Obj.t) : Z :=
  Z.rem (default 0%Z (Obj.rotation trap)) 360.

Definition getLaserBounds (trap : Obj.t) (platforms : list Obj.t) : LaserBounds :=
  let rotation := rotationOf trap in
  let '(startX, startY, endX, endY) :=
    if bool_decide (rotation = 90%Z) then
      (Obj.x trap, Obj.y trap - Obj.width trap / 2,
       Obj.x trap, Obj.y trap + Obj.width trap / 2)
    else if bool_decide (rotation = 270%Z) then
      (Obj.x trap, Obj.y trap + Obj.width trap / 2,
       Obj.x trap, Obj.y trap - Obj.width trap / 2)
    else if bool_decide (rotation = 180%Z) then
      (Obj.x trap + Obj.width trap / 2, Obj.y trap,
       Obj.x trap - Obj.width trap / 2, Obj.y trap)
    else
      (Obj.x trap - Obj.width trap / 2, Obj.y trap,
       Obj.x trap + Obj.width trap / 2, Obj.y trap) in
  let '(endX, endY) :=
    if bool_decide (rotation = 0%Z) || bool_decide (rotation = 180%Z) then
      (fold_left
         (fun endX p =>
            if (startY >=? Obj.y p) && (startY <=? Obj.y p + Obj.height p) then
              if bool_decide (rotation = 0%Z) then
                if (Obj.x p >=? startX) && (Obj.x p <? endX)
                then Obj.x p else endX
              else
                if (Obj.x p + Obj.width p <=? startX) && (Obj.x p + Obj.width p >? endX)
                then Obj.x p + Obj.width p else endX
            else endX)
         platforms endX, endY)
    else
      (endX,
       fold_left
         (fun endY p =>
            if (startX >=? Obj.x p) && (startX <=? Obj.x p + Obj.width p) then
              if bool_decide (rotation = 90%Z) then
                if (Obj.y p >=? startY) && (Obj.y p <? endY)
                then Obj.y p else endY
              else
                if (Obj.y p + Obj.height p <=? startY) && (Obj.y p + Obj.height p >? endY)
                then Obj.y p + Obj.height p else endY
            else endY)
         platforms endY) in
  mkBounds (Rmin startX endX) (Rmax startX endX) (Rmin startY endY) (Rmax startY endY)
           startX startY endX endY.

(** *** Trigger detection, the first block of [update(dt)]

    [now] is the host time of the call in milliseconds; a binding with a
    positive delay registers a timer [delay * 1000] later. *)
Definition playerInTrigger (p : Player.t) (tr : Trigger.t) : bool :=
  (Player.x p <? Trigger.x tr + Trigger.width tr)
  && (Player.x p + Player.width p >? Trigger.x tr)
  && (Player.y p <? Trigger.y tr + Trigger.height tr)
  && (Player.y p + Player.height p >? Trigger.y tr).

Definition fireBinding (now : R) (acc : list Obj.t * list Timer.t) (bind : Binding.t)
  : list Obj.t * list Timer.t :=
  let '(traps, timers) := acc in
  match traps !! Binding.trapIndex bind with
  | Some _ =>
      if Binding.delay bind >? 0 then
        (traps,
         timers ++ [Timer.mk (now + Binding.delay bind * 1000) (Binding.trapIndex bind)])
      else
        (alter (set_dormant false) (Binding.trapIndex bind) traps, timers)
  | None => acc
  end.

Definition detectTrigger (now : R) (p : Player.t) (tr : Trigger.t)
    (acc : list Obj.t * list Timer.t) : Trigger.t * (list Obj.t * list Timer.t) :=
  if Trigger.triggered tr && Trigger.oneShot tr then (tr, acc)
  else if playerInTrigger p tr then
    (Trigger.set_triggered true tr, fold_left (fireBinding now) (Trigger.bindings tr) acc)
  else (tr, acc).

Fixpoint triggerDetection (now : R) (p : Player.t) (triggers : list Trigger.t)
    (acc : list Obj.t * list Timer.t) : list Trigger.t * (list Obj.t * list Timer.t) :=
  match triggers with
  | [] => ([], acc)
  | tr :: rest =>
      let '(tr, acc) := detectTrigger now p tr acc in
      let '(rest, acc) := triggerDetection now p rest acc in
      (tr :: rest, acc)
  end.

(** *** [applyMovement(obj, isPlatform)], the closure inside [update(dt)]

    It writes to [obj] and, for a platform that carries the body, to
    [this.player]; for a trap it reads the platforms of the level.  The
    definitions below are its commented blocks, in order. *)

(** [Math.hypot(dx, dy)]. *)
Definition hypot (dx dy : R) : R := sqrt (dx * dx + dy * dy).

(** The box a moving trap is treated as, against one platform. *)
Definition hits (minX maxX minY maxY : R) (p : Obj.t) : bool :=
  (minX <? Obj.x p + Obj.width p) && (maxX >? Obj.x p)
  && (minY <? Obj.y p + Obj.height p) && (maxY >? Obj.y p).

(** "Initialize base coordinates to avoid drift from oscillation". *)
Definition initBase (obj : Obj.t) : Obj.t :=
  obj |> set_baseX (Some (default (Obj.x obj) (Obj.baseX obj)))
      |> set_baseY (Some (default (Obj.y obj) (Obj.baseY obj))).

(** "1. Linear A-to-B Movement", on an object whose base is initialized. *)
Definition linearMovement (platforms : list Obj.t) (dt : R) (isPlatform : bool)
    (obj : Obj.t) : Obj.t :=
  let baseX := default (Obj.x obj) (Obj.baseX obj) in
  let baseY := default (Obj.y obj) (Obj.baseY obj) in
  let tx := orElse (Obj.tx obj) 0 in
  let ty := orElse (Obj.ty obj) 0 in
  if positive (Obj.speed obj) && (negb (tx =? 0) || negb (ty =? 0)) then
    let startX := default baseX (Obj.startX obj) in
    let startY := default baseY (Obj.startY obj) in
    let movingForward := default true (Obj.movingForward obj) in
    let obj := obj |> set_startX (Some startX) |> set_startY (Some startY) in
    let targetX := if movingForward then startX + tx else startX in
    let targetY := if movingForward then startY + ty else startY in
    let dx := targetX - baseX in
    let dy := targetY - baseY in
    let dist := hypot dx dy in
    let moveStep := default 0 (Obj.speed obj) * dt in
    if dist <=? moveStep then
      obj |> set_baseX (Some targetX) |> set_baseY (Some targetY)
          |> set_movingForward (Some (negb movingForward))
    else
      let deltaX := dx / dist * moveStep in
      let deltaY := dy / dist * moveStep in
      (* Collision check for traps against platforms *)
      let willCollide :=
        if negb isPlatform then
          let futureX := baseX + deltaX in
          let futureY := baseY + deltaY in
          let sw := Obj.width obj * orElse (Obj.scale obj) 1 in
          let sh := Obj.height obj * orElse (Obj.scale obj) 1 in
          existsb (hits (futureX - sw / 2) (futureX + sw / 2)
                        (futureY - sh / 2) (futureY + sh / 2)) platforms
        else false in
      let '(deltaX, deltaY, movingForward) :=
        if willCollide
        then (0, 0, negb movingForward) (* Turn around immediately *)
        else (deltaX, deltaY, movingForward) in
      obj |> set_baseX (Some (baseX + deltaX)) |> set_baseY (Some (baseY + deltaY))
          |> set_movingForward (Some movingForward)
  else obj.

(** "2. Oscillation / Curve Movement": the object with its clock advanced,
    and the offset [(ox, oy)]. *)
Definition oscillation (dt : R) (obj : Obj.t) : Obj.t * (R * R) :=
  if positive (Obj.oscSpeed obj) && (truthy (Obj.oscX obj) || truthy (Obj.oscY obj))
  then
    let oscTime := default 0 (Obj.oscTime obj) + dt * default 0 (Obj.oscSpeed obj) in
    (obj |> set_oscTime (Some oscTime),
     (sin oscTime * orElse (Obj.oscX obj) 0, cos oscTime * orElse (Obj.oscY obj) 0))
  else (obj, (0, 0)).

(** "Move player if standing on platform". *)
Definition carry (isPlatform : bool) (obj : Obj.t) (totalDeltaX totalDeltaY : R)
    (player : Player.t) : Player.t :=
  if isPlatform && (Player.vy player >=? 0)
     && (Player.x player + Player.width player >? Obj.x obj)
     && (Player.x player <? Obj.x obj + Obj.width obj)
     && (Rabs (Player.y player + Player.height player - Obj.y obj) <? 15)
  then
    player |> Player.set_x (Player.x player + totalDeltaX)
           |> Player.set_y (Player.y player + totalDeltaY)
  else player.

Definition applyMovement (platforms : list Obj.t) (dt : R) (isPlatform : bool)
    (obj : Obj.t) (player : Player.t) : Obj.t * Player.t :=
  if negb (truthy (Obj.speed obj)) && negb (truthy (Obj.oscSpeed obj))
  then (obj, player)
  else
    let obj := initBase obj in
    let obj := linearMovement platforms dt isPlatform obj in
    let '(obj, (ox, oy)) := oscillation dt obj in
    (* 3. Final positional blending *)
    let oldX := Obj.x obj in
    let oldY := Obj.y obj in
    let obj := obj |> set_x (default 0 (Obj.baseX obj) + ox)
                   |> set_y (default 0 (Obj.baseY obj) + oy) in
    let totalDeltaX := Obj.x obj - oldX in
    let totalDeltaY := Obj.y obj - oldY in
    (obj, carry isPlatform obj totalDeltaX totalDeltaY player).

(** The two loops of [update(dt)] over [applyMovement]: every platform,
    then every trap that is not dormant. *)
Fixpoint movePlatforms (platforms : list Obj.t) (dt : R) (ps : list Obj.t)
    (player : Player.t) : list Obj.t * Player.t :=
  match ps with
  | [] => ([], player)
  | p :: rest =>
      let '(p, player) := applyMovement platforms dt true p player in
      let '(rest, player) := movePlatforms platforms dt rest player in
      (p :: rest, player)
  end.

Definition moveTraps (platforms : list Obj.t) (dt : R) (traps : list Obj.t)
    (player : Player.t) : list Obj.t :=
  (fun t => if Obj.dormant t then t
            else (applyMovement platforms dt false t player).1) <$> traps.

(** *** Trap collision logic of [update(dt)] *)
Definition trapHit (platforms : list Obj.t) (player : Player.t) (trap : Obj.t) : bool :=
  let rotation := rotationOf trap in
  let isVertical := bool_decide (rotation = 90%Z) || bool_decide (rotation = 270%Z) in
  if bool_decide (Obj.type trap = "laser") then
    let bounds := getLaserBounds trap platforms in
    let px := Player.x player + Player.width player / 2 in
    let py := Player.y player + Player.height player / 2 in
    (px >=? minX bounds - Player.width player / 2)
    && (px <=? maxX bounds + Player.width player / 2)
    && (py >=? minY bounds - Player.height player / 2)
    && (py <=? maxY bounds + Player.height player / 2)
  else
    let tWidth := if isVertical then Obj.height trap else Obj.width trap in
    let tHeight := if isVertical then Obj.width trap else Obj.height trap in
    let dx := Player.x player + Player.width player / 2 - Obj.x trap in
    let dy := Player.y player + Player.height player / 2 - Obj.y trap in
    (Rabs dx <? Player.width player / 2 + tWidth / 2)
    && (Rabs dy <? Player.height player / 2 + tHeight / 2).

Definition trapStep (platforms : list Obj.t) (player : Player.t) (trap : Obj.t)
  : Player.t :=
  if Obj.dormant trap then player
  else if trapHit platforms player trap
  then Player.takeDamage (orElse (Obj.damage trap) 20) player
  else player.

Definition trapCollision (platforms traps : list Obj.t) (player : Player.t) : Player.t :=
  if negb (Player.invulnerable player)
  then fold_left (trapStep platforms) traps player
  else player.

(** *** [update(dt)]

    The simulation part of the method: trigger detection, scripted
    motion, the body's update and the trap collisions, in the order of the
    source.  The camera, the timer display and the goal, facility, item and
    exit bookkeeping that follow are outside the model, and with them the
    ways a level ends or is loaded again (the time limit, the exit, the
    deferred [gameOver] of a lethal hit): the model follows one level while
    it is played.  [now] is the host time of the call, [keys] the polled
    input. *)
Definition update (now : R) (keys : Keys) (dt : R) (g : t) : option t :=
  if bool_decide (state g <> play) then Some g
  else
    let ld := currentLevelData g in
    let '(triggers, (traps, timers)) :=
      triggerDetection now (player g) (LevelData.triggers ld)
                       (LevelData.traps ld, timers g) in
    let '(platforms, player) :=
      movePlatforms (LevelData.platforms ld) dt (LevelData.platforms ld) (player g) in
    let traps := moveTraps platforms dt traps player in
    player ← Player.update keys (LevelData.jumppads ld) (LevelData.spawn ld)
               platforms (LevelData.settings ld) dt player;
    let player := trapCollision platforms traps player in
    Some (mk (state g)
             (LevelData.mk (LevelData.settings ld) platforms traps
                           (LevelData.jumppads ld) triggers (LevelData.spawn ld))
             player (lastTimestamp g) timers).

(** [loop(timestamp)]: the frame callback. *)
Definition loop (timestamp : R) (keys : Keys) (g : t) : option t :=
  let dt := (timestamp - lastTimestamp g) / 1000 in
  update timestamp keys dt
         (mk (state g) (currentLevelData g) (player g) timestamp (timers g)).

(** *** The host's timers

    A registered callback runs once, when the host time has reached its
    [due] time; the host runs the callbacks that are due before it calls the
    next frame. *)
Definition runTimer (g : t) (tm : Timer.t) : t :=
  if bool_decide (state g = play) then
    let ld := currentLevelData g in
    mk (state g)
       (LevelData.mk (LevelData.settings ld) (LevelData.platforms ld)
                     (alter (set_dormant false) (Timer.trapIndex tm) (LevelData.traps ld))
                     (LevelData.jumppads ld) (LevelData.triggers ld) (LevelData.spawn ld))
       (player g) (lastTimestamp g) (timers g)
  else g.

Definition fireTimers (now : R) (g : t) : t :=
  let due := filter (fun tm => Timer.due tm <= now) (timers g) in
  let waiting := filter (fun tm => ~ Timer.due tm <= now) (timers g) in
  fold_left runTimer due
            (mk (state g) (currentLevelData g) (player g) (lastTimestamp g) waiting).

Definition frame (g : t) (f : R * Keys) : option t :=
  loop f.1 f.2 (fireTimers f.1 g).

(** A run of frames, each with its timestamp and the keys held. *)
Fixpoint run (frames : list (R * Keys)) (g : t) : option t :=
  match frames with
  | [] => Some g
  | f :: rest => g ← frame g f; run rest g
  end.
End Game.


(** ** The camera: [class Camera]

    The view of the level: its top-left corner and the countdown of a
    shake.  [canvas.width] and [canvas.height] are read from the page; the
    field [target] is set to [null] by the constructor and not used again.
    The calls of [shake] that the simulation makes are not threaded through
    the model of [update]: the class is modelled on its own. *)
Record Canvas : Type := mkCanvas { canvasWidth : R; canvasHeight : R }.

Module Camera.
Record t : Type := mk {
  x : R;
  y : R;
  shakeTimer : R;
  shakeMagnitude : R
}.

Definition set_x (v : R) (c : t) : t := mk v (y c) (shakeTimer c) (shakeMagnitude c).
Definition set_y (v : R) (c : t) : t := mk (x c) v (shakeTimer c) (shakeMagnitude c).
Definition set_shakeTimer (v : R) (c : t) : t := mk (x c) (y c) v (shakeMagnitude c).

(** The constructor. *)
Definition init : t := mk 0 0 0 0.

Definition shake (duration magnitude : R) (c : t) : t := mk (x c) (y c) duration magnitude.

Definition update (dt : R) (c : t) : t :=
  if shakeTimer c >? 0 then
    let c := c |> set_shakeTimer (shakeTimer c - dt) in
    if shakeTimer c <? 0 then c |> set_shakeTimer 0 else c
  else c.

Definition follow (canvas : Canvas) (target : Player.t) (c : t) : t :=
  c |> set_x (Player.x target - canvasWidth canvas / 2)
    |> set_y (Player.y target - canvasHeight canvas / 2).

Definition clamp (canvas : Canvas) (worldWidth worldHeight : R) (c : t) : t :=
  let c := if x c <? 0 then c |> set_x 0 else c in
  let c := if y c <? 0 then c |> set_y 0 else c in
  let c := if x c + canvasWidth canvas >? worldWidth
           then c |> set_x (worldWidth - canvasWidth canvas) else c in
  if y c + canvasHeight canvas >? worldHeight
  then c |> set_y (worldHeight - canvasHeight canvas) else c.
End Camera.

(** ** Goals and items: two more blocks of [Game.update(dt)] *)

(** A goal; a missing [collected] is [false]. *)
Module Goal.
Record t : Type := mk { x : R; y : R; collected : bool }.
End Goal.

(** An item; [type] is ["hp"] or ["mp"]. *)
Module Item.
Record t : Type := mk { type : string; x : R; y : R; collected : bool }.
End Item.

Module Pickups.
(** "Goal collection logic".  The state is the level's goals, the counter
    [this.collectedGoals] and the currency of the run; [runActive] is the flag
    [RunManager.addCurrency] tests ([update] runs in play only, so the test
    [this.state !== 'edit'] holds). *)
Definition inReach (player : Player.t) (g : Goal.t) : bool :=
  let dx := Player.x player + Player.width player / 2 - Goal.x g in
  let dy := Player.y player + Player.height player / 2 - Goal.y g in
  Game.hypot dx dy <? Player.width player / 2 + 20.

Definition addCurrency (runActive : bool) (amount : R) (currency : R) : R :=
  if runActive then currency + amount else currency.

Fixpoint collectGoals (runActive : bool) (player : Player.t) (goals : list Goal.t)
    (collectedGoals : nat) (currency : R) : list Goal.t * nat * R :=
  match goals with
  | [] => ([], collectedGoals, currency)
  | g :: rest =>
      let '(g, collectedGoals, currency) :=
        if negb (Goal.collected g) then
          if inReach player g
          then (Goal.mk (Goal.x g) (Goal.y g) true, S collectedGoals,
                addCurrency runActive 1 currency)
          else (g, collectedGoals, currency)
        else (g, collectedGoals, currency) in
      let '(rest, collectedGoals, currency) :=
        collectGoals runActive player rest collectedGoals currency in
      (g :: rest, collectedGoals, currency)
  end.

(** The loop over [this.currentLevelData.items]. *)
Definition touches (player : Player.t) (item : Item.t) : bool :=
  Game.hypot (Player.x player + Player.width player / 2 - Item.x item)
             (Player.y player + Player.height player / 2 - Item.y item) <? 30.

Definition collectItem (player : Player.t) (item : Item.t) : Item.t * Player.t :=
  if negb (Item.collected item) && touches player item then
    let item' := Item.mk (Item.type item) (Item.x item) (Item.y item) true in
    if bool_decide (Item.type item = "hp") then
      (item', player |> Player.set_hp (Rmin (Player.hp player + 30) (Player.maxHp player)))
    else if bool_decide (Item.type item = "mp") then
      (item', player |> Player.set_mp (Rmin (Player.mp player + 40) (Player.maxMp player)))
    else (item', player)
  else (item, player).

Fixpoint collectItems (items : list Item.t) (player : Player.t)
  : list Item.t * Player.t :=
  match items with
  | [] => ([], player)
  | item :: rest =>
      let '(item, player) := collectItem player item in
      let '(rest, player) := collectItems rest player in
      (item :: rest, player)
  end.
End Pickups.

(** ** The list of levels: [class LevelManager]

    The manager keeps the array [levels] and [currentLevelIndex].  What it
    needs of a level is abstract here: [ensureSettings] gives a level
    without [settings] a copy of the defaults and [setName] writes its name.
    Saving to [localStorage], the dashboard and the call of
    [game.loadLevel] do not write to the manager. *)
Module LevelManager.
Section manager.
Context {Level : Type}.
Variable ensureSettings : Level -> Level.
Variable setName : string -> Level -> Level.

Record t : Type := mk {
  levels : list Level;
  currentLevelIndex : Z
}.

(** [levels[i]] for a number [i]: [undefined] outside the array. *)
Definition at_ (l : list Level) (i : Z) : option Level :=
  if bool_decide (0 <= i)%Z then l !! Z.to_nat i else None.

Definition len (m : t) : Z := Z.of_nat (length (levels m)).

Definition getCurrentLevel (m : t) : option Level :=
  at_ (levels m) (currentLevelIndex m).

Definition getNextLevelIndex (m : t) : Z :=
  if bool_decide (currentLevelIndex m + 1 < len m)%Z
  then (currentLevelIndex m + 1)%Z else (-1)%Z.

Definition loadLevel (index : Z) (m : t) : t :=
  if bool_decide (0 <= index)%Z && bool_decide (index < len m)%Z
  then mk (alter ensureSettings (Z.to_nat index) (levels m)) index
  else m.

(** [createNewLevel()]; [fresh] is the level it pushes. *)
Definition createNewLevel (fresh : Level) (m : t) : t :=
  let m := mk (levels m ++ [fresh]) (currentLevelIndex m) in
  loadLevel (len m - 1) m.

(** The three assignments that exchange [levels[i]] and [levels[j]], both
    inside the array. *)
Definition swap (i j : nat) (l : list Level) : list Level :=
  match l !! i, l !! j with
  | Some temp, Some other => <[j := temp]> (<[i := other]> l)
  | _, _ => l
  end.


Definition moveLevelUp (index : Z) (m : t) : t :=
  if bool_decide (index > 0)%Z && bool_decide (index < len m)%Z then
    mk (swap (Z.to_nat index) (Z.to_nat (index - 1)) (levels m))
       (if bool_decide (currentLevelIndex m = index) then (currentLevelIndex m - 1)%Z
        else if bool_decide (currentLevelIndex m = index - 1)%Z
             then (currentLevelIndex m + 1)%Z
             else currentLevelIndex m)
  else m.

Definition moveLevelDown (index : Z) (m : t) : t :=
  if bool_decide (index >= 0)%Z && bool_decide (index < len m - 1)%Z then
    mk (swap (Z.to_nat index) (Z.to_nat (index + 1)) (levels m))
       (if bool_decide (currentLevelIndex m = index) then (currentLevelIndex m + 1)%Z
        else if bool_decide (currentLevelIndex m = index + 1)%Z
             then (currentLevelIndex m - 1)%Z
             else currentLevelIndex m)
  else m.

(** [renameLevel(index, newName)]; the empty string is falsy. *)
Definition renameLevel (index : Z) (newName : string) (m : t) : t :=
  if negb (bool_decide (newName = EmptyString))
     && bool_decide (index >= 0)%Z && bool_decide (index < len m)%Z
  then mk (alter (setName newName) (Z.to_nat index) (levels m)) (currentLevelIndex m)
  else m.
End manager.
End LevelManager.

(** * Properties *)

(** Decide the comparisons of a goal over concrete numbers. *)
Ltac rsolve :=
  first [ lra | lia | done | unfold Rabs; repeat destruct (Rcase_abs _); lra ].

Ltac rdecide :=
  repeat match goal with
  | |- context [bool_decide ?P] =>
      first [ rewrite (bool_decide_eq_true_2 P) by (simpl; rsolve)
            | rewrite (bool_decide_eq_false_2 P) by (simpl; rsolve) ]
  end.

(** Reduce the projections of updated bodies, and nothing else. *)
Ltac fields :=
  cbn [Player.x Player.y Player.width Player.height Player.vx Player.vy
     Player.grounded Player.jumpLocked Player.trail Player.maxHp Player.hp
     Player.maxMp Player.mp Player.defense Player.invulnerable
     Player.invulnerableTimer Player.extraJumps Player.jumpsRemaining
     Player.extraDashes Player.dashesRemaining Player.dashCooldown Player.isDashing
     Player.dashTimer Player.lastDirection Player.wallClimbLevel
     Player.lastTouchingWall Player.wallJumpTimer Player.isWallSliding
     Player.isWallClimbing Player.dashSpeedMult Player.doubleJumpMult
     Player.set_x Player.set_y Player.set_vx Player.set_vy Player.set_grounded
     Player.set_jumpLocked Player.set_trail Player.set_hp Player.set_mp
     Player.set_invulnerable Player.set_invulnerableTimer Player.set_jumpsRemaining
     Player.set_dashesRemaining Player.set_dashCooldown Player.set_isDashing
     Player.set_dashTimer Player.set_lastDirection Player.set_lastTouchingWall
     Player.set_wallJumpTimer Player.set_isWallSliding Player.set_isWallClimbing
     negb andb orb fst snd].

(** Evaluate the records and lists of a goal over a concrete level; the
    numbers stay as they are. *)
Ltac evaluate :=
  cbv beta iota zeta delta
    [Player.x Player.y Player.width Player.height Player.vx Player.vy
     Player.grounded Player.jumpLocked Player.trail Player.maxHp Player.hp
     Player.maxMp Player.mp Player.defense Player.invulnerable
     Player.invulnerableTimer Player.extraJumps Player.jumpsRemaining
     Player.extraDashes Player.dashesRemaining Player.dashCooldown Player.isDashing
     Player.dashTimer Player.lastDirection Player.wallClimbLevel
     Player.lastTouchingWall Player.wallJumpTimer Player.isWallSliding
     Player.isWallClimbing Player.dashSpeedMult Player.doubleJumpMult
     Player.set_x Player.set_y Player.set_vx Player.set_vy Player.set_grounded
     Player.set_jumpLocked Player.set_trail Player.set_hp Player.set_mp
     Player.set_invulnerable Player.set_invulnerableTimer Player.set_jumpsRemaining
     Player.set_dashesRemaining Player.set_dashCooldown Player.set_isDashing
     Player.set_dashTimer Player.set_lastDirection Player.set_lastTouchingWall
     Player.set_wallJumpTimer Player.set_isWallSliding Player.set_isWallClimbing
     Player.reset Player.jumpInput noKeys rect
     KeyA KeyD KeyW KeyS Space ShiftLeft ShiftRight
     Settings.worldWidth Settings.worldHeight Settings.fallDamage Settings.mpRegen
     Obj.type Obj.x Obj.y Obj.width Obj.height Obj.rotation Obj.scale Obj.damage
     Obj.dormant Obj.speed Obj.tx Obj.ty Obj.oscX Obj.oscY Obj.oscSpeed Obj.baseX
     Obj.baseY Obj.startX Obj.startY Obj.movingForward Obj.oscTime
     ObjSet.set_x ObjSet.set_y ObjSet.set_dormant ObjSet.set_baseX ObjSet.set_baseY
     ObjSet.set_startX ObjSet.set_startY ObjSet.set_movingForward ObjSet.set_oscTime
     JumpPad.x JumpPad.y JumpPad.width JumpPad.jumpForce Point.x Point.y
     defaultSettings.gravity defaultSettings.friction defaultSettings.jumpForce
     defaultSettings.speed defaultSettings.maxFallSpeed defaultSettings.fastFallSpeed
     defaultSettings.fallDamage defaultSettings.mpRegen
     defaultSettings.playerMaxHp defaultSettings.playerMaxMp
     default from_option Datatypes.id orElse truthy positive negb andb orb fold_left
     existsb length removelast fst snd].

Ltac run f := unfold f; evaluate; rdecide; evaluate.

(** One call of [update] on a concrete body, phase by phase. *)
Ltac run_integrate :=
  unfold Player.integrate;
  run Player.recordTrail; run Player.tickInvulnerable; run Player.tickCooldowns;
  run Player.speedOf; run Player.gravityOf; run Player.regenMp;
  run Player.horizontalInput; run Player.dashSkill; run Player.wallLogic;
  run Player.jumpLogic; run Player.applyGravity;
  unfold Player.jumpPadCollision; run Player.jumpPadStep; run Player.onJumpPad;
  unfold Player.moveX; run Player.advanceX; run Player.resolveX;
  unfold Player.moveY; run Player.advanceY; run Player.resolveY;
  run Player.overlaps.

Ltac run_update :=
  unfold Player.update; run_integrate;
  run Player.fallDamageLogic; run Player.takeDamage.

(** Project the fields of a level object through its setters. *)
Ltac ofields :=
  cbn [Obj.type Obj.x Obj.y Obj.width Obj.height Obj.rotation Obj.scale Obj.damage
     Obj.dormant Obj.speed Obj.tx Obj.ty Obj.oscX Obj.oscY Obj.oscSpeed Obj.baseX
     Obj.baseY Obj.startX Obj.startY Obj.movingForward Obj.oscTime
     ObjSet.set_x ObjSet.set_y ObjSet.set_dormant ObjSet.set_baseX ObjSet.set_baseY
     ObjSet.set_startX ObjSet.set_startY ObjSet.set_movingForward ObjSet.set_oscTime
     default from_option id negb andb orb fst snd].

(** ** The body: damage and the invulnerability window *)

Section PlayerFacts.
Import Player.

(** The fields [takeDamage] reads and writes. *)
Definition vitals (p : t) : R * R * bool * R :=
  (hp p, defense p, invulnerable p, invulnerableTimer p).

Ltac phase f := unfold f, vitals; intros; repeat case_match; reflexivity.

Lemma vitals_fold {A} (step : t -> A -> t) (l : list A) :
  (forall p a, vitals (step p a) = vitals p) ->
  forall p, vitals (fold_left step l p) = vitals p.
Proof.
  intros Hstep. induction l as [|a l IH]; intros p; simpl; [done|].
  by rewrite IH, Hstep.
Qed.

Lemma vitals_recordTrail p : vitals (recordTrail p) = vitals p.
Proof. phase recordTrail. Qed.

Lemma vitals_tickCooldowns dt p : vitals (tickCooldowns dt p) = vitals p.
Proof. phase tickCooldowns. Qed.

Lemma vitals_regenMp ls dt p : vitals (regenMp ls dt p) = vitals p.
Proof. phase regenMp. Qed.

Lemma vitals_horizontalInput keys dt speed p :
  vitals (horizontalInput keys dt speed p) = vitals p.
Proof. phase horizontalInput. Qed.

Lemma vitals_dashSkill keys p : vitals (dashSkill keys p) = vitals p.
Proof. phase dashSkill. Qed.

Lemma vitals_wallLogic keys dt speed jf jj p :
  vitals (wallLogic keys dt speed jf jj p).1 = vitals p.
Proof. unfold wallLogic, consumeMp, vitals. repeat case_match; reflexivity. Qed.

Lemma vitals_jumpLogic keys jf wj p : vitals (jumpLogic keys jf wj p) = vitals p.
Proof. phase jumpLogic. Qed.

Lemma vitals_applyGravity keys g p : vitals (applyGravity keys g p) = vitals p.
Proof. phase applyGravity. Qed.

Lemma vitals_jumpPadCollision pads p : vitals (jumpPadCollision pads p) = vitals p.
Proof. apply vitals_fold. phase jumpPadStep. Qed.

Lemma vitals_moveX platforms ls p : vitals (moveX platforms ls p) = vitals p.
Proof.
  unfold moveX. rewrite vitals_fold by (phase resolveX). phase advanceX.
Qed.

Lemma vitals_moveY platforms p : vitals (moveY platforms p) = vitals p.
Proof.
  unfold moveY. rewrite vitals_fold by (phase resolveY). phase advanceY.
Qed.

(** Up to the fall check, [update] touches the vitals only in its
    countdown of the invulnerability window. *)
Lemma vitals_integrate keys pads platforms ls dt p :
  vitals (integrate keys pads platforms ls dt p) = vitals (tickInvulnerable p).
Proof.
  unfold integrate.
  destruct (wallLogic _ _ _ _ _ _) as [q w] eqn:Hw.
  rewrite vitals_moveY, vitals_moveX, vitals_jumpPadCollision, vitals_applyGravity,
    vitals_jumpLogic.
  change q with (q, w).1. rewrite <- Hw.
  rewrite vitals_wallLogic, vitals_dashSkill, vitals_horizontalInput, vitals_regenMp,
    vitals_tickCooldowns.
  unfold tickInvulnerable, recordTrail, vitals. simpl.
  repeat case_match; simpl in *; congruence.
Qed.

Lemma takeDamage_invulnerable amount p :
  invulnerable p = true -> takeDamage amount p = p.
Proof. unfold takeDamage. by intros ->. Qed.

Lemma takeDamage_vulnerable amount p :
  invulnerable p = false ->
  hp (takeDamage amount p) = Rmax (hp p - Rmax (amount - defense p) 0) 0
  /\ invulnerable (takeDamage amount p) = true
  /\ invulnerableTimer (takeDamage amount p) = 30.
Proof.
  unfold takeDamage. intros ->.
  repeat case_bool_decide; simpl in *; repeat split; try reflexivity.
  all: unfold Rmax; repeat destruct (Rle_dec _ _); lra.
Qed.

(** While more than one unit is left on the countdown, a call of [update]
    takes one unit off and leaves the body invulnerable and its hp alone:
    the fall check, if it runs, calls a [takeDamage] that does nothing. *)
Lemma update_in_window i p p' :
  invulnerable p = true -> 1 < invulnerableTimer p -> tick i p = Some p' ->
  invulnerable p' = true /\ hp p' = hp p
  /\ invulnerableTimer p' = invulnerableTimer p - 1.
Proof.
  intros Hinv Htimer. unfold tick, update.
  pose proof (vitals_integrate (tickKeys i) (tickJumppads i) (tickPlatforms i)
                (tickSettings i) (tickDt i) p) as Hv.
  set (q := integrate _ _ _ _ _ p) in *.
  assert (Hq : vitals q = (hp p, defense p, true, invulnerableTimer p - 1)).
  { rewrite Hv. unfold tickInvulnerable, vitals. rewrite Hinv. simpl.
    rewrite bool_decide_eq_false_2 by lra. simpl. by rewrite Hinv. }
  unfold vitals in Hq. injection Hq as Hhp _ Hi Ht.
  unfold fallDamageLogic. rewrite (takeDamage_invulnerable _ q Hi).
  repeat case_match; intros [= <-]; simpl; auto.
Qed.

Lemma invulnerable_window ticks : forall p p',
  invulnerable p = true -> INR (length ticks) < invulnerableTimer p ->
  updates ticks p = Some p' ->
  invulnerable p' = true /\ hp p' = hp p.
Proof.
  induction ticks as [|i ticks IH]; intros p p' Hinv Hlen; simpl.
  { by intros [= <-]. }
  destruct (tick i p) as [q|] eqn:Hq; simpl; [|done].
  change (length (i :: ticks)) with (S (length ticks)) in Hlen.
  rewrite S_INR in Hlen. pose proof (pos_INR (length ticks)).
  destruct (update_in_window i p q Hinv ltac:(lra) Hq) as (Hi & Hhp & Ht).
  intros Hrun. destruct (IH q p' Hi ltac:(lra) Hrun) as [? ?].
  split; [done | congruence].
Qed.

(** C1.  [takeDamage(amount)] leaves an invulnerable body as it is.  On a
    vulnerable body it takes [max(amount - defense, 0)] off the hp, floors the
    hp at 0 and starts the fixed window: [invulnerable] with a countdown of 30
    calls of [update] (0.5 s at 60 frames per second).  A second call made
    while that window runs, that is after at most 29 calls of [update] on
    whatever input, does not reduce the hp again. *)
Theorem takeDamage_window (amount : R) (p : Player.t) :
  (invulnerable p = true -> takeDamage amount p = p)
  /\ (invulnerable p = false ->
      hp (takeDamage amount p) = Rmax (hp p - Rmax (amount - defense p) 0) 0
      /\ invulnerable (takeDamage amount p) = true
      /\ invulnerableTimer (takeDamage amount p) = 30)
  /\ (invulnerable p = false ->
      forall (ticks : list Tick) (p' : Player.t) (again : R),
        (length ticks < 30)%nat ->
        updates ticks (takeDamage amount p) = Some p' ->
        hp (takeDamage again p') = hp (takeDamage amount p)).
Proof.
  split; [apply takeDamage_invulnerable|].
  split; [apply takeDamage_vulnerable|].
  intros Hv ticks p' again Hlen Hrun.
  destruct (takeDamage_vulnerable amount p Hv) as (_ & Hi & Ht).
  destruct (invulnerable_window ticks _ p' Hi) as [Hi' Hhp]; [|done|].
  { rewrite Ht. apply lt_INR in Hlen. simpl in Hlen. lra. }
  by rewrite (takeDamage_invulnerable again p' Hi').
Qed.
End PlayerFacts.

(** ** The body: collision passes, jump pads and settings *)

Section CollisionFacts.
Import Player.

(** A platform met with [vy = 0] leaves the body as it is. *)
Lemma resolveY_at_rest p o : vy p = 0 -> resolveY p o = p.
Proof.
  intros Hv. unfold resolveY. rewrite Hv.
  rewrite (bool_decide_eq_false_2 (0 > 0)), (bool_decide_eq_false_2 (0 < 0)) by lra.
  by destruct (overlaps p o).
Qed.

Lemma resolveY_fold_at_rest l : forall p, vy p = 0 -> fold_left resolveY l p = p.
Proof.
  induction l as [|o l IH]; intros p Hv; simpl; [done|].
  rewrite resolveY_at_rest by done. by apply IH.
Qed.

Lemma resolveY_miss p o : overlaps p o = false -> resolveY p o = p.
Proof. unfold resolveY. by intros ->. Qed.

Lemma resolveY_stops p o :
  overlaps p o = true -> vy p <> 0 -> vy (resolveY p o) = 0.
Proof.
  unfold resolveY. intros -> Hv.
  repeat case_bool_decide; simpl; try done. lra.
Qed.

(** C6.  The y-axis collision pass of [update] runs [resolveY] over the
    platforms, from the body moved by [vy].  Every platform the body overlaps
    while it moves down puts the body on the platform's top, zeroes [vy], sets
    [grounded] and resets [jumpsRemaining] to [extraJumps] and
    [dashesRemaining] to [extraDashes]; every platform it overlaps while it
    moves up puts the body below the platform's underside and zeroes [vy], and
    does not set [grounded].  The pass as a whole is decided by the first
    platform of the list the moved body overlaps, and the pass starts with
    [grounded] unset. *)
Theorem y_pass_lands_and_bonks (platforms : list Obj.t) (p : Player.t) :
  (forall b o, overlaps b o = true -> vy b > 0 ->
     y (resolveY b o) = Obj.y o - height b
     /\ vy (resolveY b o) = 0
     /\ grounded (resolveY b o) = true
     /\ jumpsRemaining (resolveY b o) = extraJumps b
     /\ dashesRemaining (resolveY b o) = extraDashes b)
  /\ (forall b o, overlaps b o = true -> vy b < 0 ->
     y (resolveY b o) = Obj.y o + Obj.height o
     /\ vy (resolveY b o) = 0
     /\ grounded (resolveY b o) = grounded b)
  /\ grounded (advanceY p) = false
  /\ (forall pre o post,
     platforms = pre ++ o :: post ->
     Forall (fun o' => overlaps (advanceY p) o' = false) pre ->
     overlaps (advanceY p) o = true ->
     moveY platforms p = resolveY (advanceY p) o).
Proof.
  split; [|split; [|split]].
  - intros b o Ho Hv. unfold resolveY. rewrite Ho.
    rewrite (bool_decide_eq_true_2 (vy b > 0)) by done. by simpl.
  - intros b o Ho Hv. unfold resolveY. rewrite Ho.
    rewrite (bool_decide_eq_false_2 (vy b > 0)) by lra.
    rewrite (bool_decide_eq_true_2 (vy b < 0)) by done. by simpl.
  - unfold advanceY. by repeat case_match.
  - intros pre o post -> Hpre Ho. unfold moveY.
    rewrite fold_left_app. simpl.
    assert (Hskip : fold_left resolveY pre (advanceY p) = advanceY p).
    { clear Ho. induction Hpre as [|o' pre Ho' _ IH]; simpl; [done|].
      by rewrite resolveY_miss. }
    rewrite Hskip.
    destruct (decide (vy (advanceY p) = 0)) as [Hz|Hnz].
    + rewrite (resolveY_at_rest _ o Hz). by apply resolveY_fold_at_rest.
    + apply resolveY_fold_at_rest. by apply resolveY_stops.
Qed.

(** A body falling at 3 onto a platform whose top is at 200. *)
Example landing_example :
  let p := Player.reset |> set_y 168 |> set_vy 3 |> set_jumpsRemaining 0 in
  let q := moveY [rect 0 200 400 20] p in
  y q = 170 /\ vy q = 0 /\ grounded q = true
  /\ jumpsRemaining q = extraJumps p /\ dashesRemaining q = extraDashes p.
Proof.
  intros p q.
  destruct (y_pass_lands_and_bonks [rect 0 200 400 20] p) as (Hland & _ & _ & Hpass).
  assert (Ho : overlaps (advanceY p) (rect 0 200 400 20) = true).
  { unfold overlaps, advanceY, p. simpl. rdecide. simpl. rdecide. done. }
  assert (Hv : vy (advanceY p) > 0).
  { unfold advanceY, p. simpl. rdecide. simpl. lra. }
  subst q. rewrite (Hpass [] _ [] eq_refl (Forall_nil_2 _) Ho).
  destruct (Hland _ _ Ho Hv) as (-> & -> & -> & -> & ->).
  unfold advanceY, p. simpl. rdecide. simpl. repeat split; try reflexivity. lra.
Qed.

(** C9.  A jump pad the body triggers launches it upward: the force
    applied is the pad's [jumpForce] when that is a negative number and -20
    when it is missing or not negative, so [vy] is strictly negative right
    after the pad fires, and it still is when the loop over the pads ends. *)
Theorem jump_pad_launches_upward (jumppads : list JumpPad.t) (p : Player.t)
    (jp : JumpPad.t) :
  jp ∈ jumppads -> onJumpPad p jp = true ->
  vy (jumpPadStep p jp) < 0
  /\ vy (jumpPadStep p jp)
     = match JumpPad.jumpForce jp with
       | Some f => if f >=? 0 then -20 else f
       | None => -20
       end
  /\ vy (jumpPadCollision jumppads p) < 0.
Proof.
  assert (Hstep : forall b pad, onJumpPad b pad = true ->
            vy (jumpPadStep b pad) < 0
            /\ vy (jumpPadStep b pad)
               = match JumpPad.jumpForce pad with
                 | Some f => if f >=? 0 then -20 else f
                 | None => -20
                 end).
  { intros b pad Hb. unfold jumpPadStep. rewrite Hb.
    destruct (JumpPad.jumpForce pad) as [f|]; simpl.
    - case_bool_decide; simpl; split; try done; lra.
    - rewrite bool_decide_eq_false_2 by lra. simpl. split; [lra|done]. }
  assert (Hkeep : forall l b, vy b < 0 -> vy (fold_left jumpPadStep l b) < 0).
  { induction l as [|pad l IH]; intros b Hb; simpl; [done|].
    apply IH. destruct (onJumpPad b pad) eqn:Hpad; [by apply Hstep|].
    unfold jumpPadStep. by rewrite Hpad. }
  intros Hin Hhit. split; [by apply Hstep|]. split; [by apply Hstep|].
  unfold jumpPadCollision. revert p Hhit.
  induction jumppads as [|pad l IH]; intros p Hhit; [by apply elem_of_nil in Hin|].
  simpl. destruct (onJumpPad p pad) eqn:Hpad.
  - apply Hkeep. by apply Hstep.
  - apply elem_of_cons in Hin as [->|Hin]; [congruence|].
    unfold jumpPadStep at 2. rewrite Hpad. by apply IH.
Qed.

(** A pad whose [jumpForce] is 5 throws the body up at 20. *)
Example jump_pad_example :
  vy (jumpPadCollision [JumpPad.mk 50 300 100 20 (Some 5)]
                       (Player.reset |> set_y 275)) = -20.
Proof.
  unfold jumpPadCollision, jumpPadStep, onJumpPad. simpl. rdecide. simpl.
  by rdecide.
Qed.

(** C10.  The body's physics constants never come from the level: two
    settings records that agree on the world size, [fallDamage] and [mpRegen]
    (and on the other fields that are no physics constants), and differ in
    [gravity], [friction], [speed], [jumpForce], [maxFallSpeed] or
    [fastFallSpeed] only, give the same body after [update], position and
    velocity included. *)
Theorem update_ignores_level_physics (keys : Keys) (jumppads : list JumpPad.t)
    (spawn : option Point.t) (platforms : list Obj.t) (dt : R) (p : Player.t)
    (s1 s2 : Settings.t) :
  Settings.gridSize s1 = Settings.gridSize s2 ->
  Settings.worldWidth s1 = Settings.worldWidth s2 ->
  Settings.worldHeight s1 = Settings.worldHeight s2 ->
  Settings.playerMaxHp s1 = Settings.playerMaxHp s2 ->
  Settings.playerMaxMp s1 = Settings.playerMaxMp s2 ->
  Settings.platformCost s1 = Settings.platformCost s2 ->
  Settings.fallDamage s1 = Settings.fallDamage s2 ->
  Settings.mpRegen s1 = Settings.mpRegen s2 ->
  update keys jumppads spawn platforms s1 dt p
  = update keys jumppads spawn platforms s2 dt p.
Proof.
  intros _ Hw Hh _ _ _ Hf Hm.
  unfold update, integrate, fallDamageLogic, moveX, advanceX, regenMp.
  by rewrite Hw, Hh, Hf, Hm.
Qed.
End CollisionFacts.

(** ** The body: falling out of the world *)

Section FallFacts.
Import Player.

(** C7.  When the y-axis pass leaves the body below [worldHeight + 100],
    [update] applies the fall damage once, through one call of [takeDamage],
    and if the hp is still positive it puts the body on the level's spawn
    point with [vx] and [vy] zeroed; a body left without hp stays where it
    fell.  When that call did reduce the hp (the body was not invulnerable),
    no call of [update] among the next 29 reduces it again, wherever the body
    is then: the damage is not repeated tick after tick. *)
Theorem fall_damage_once (keys : Keys) (jumppads : list JumpPad.t) (s : Point.t)
    (platforms : list Obj.t) (ls : Settings.t) (dt : R) (p : Player.t) :
  let q := integrate keys jumppads platforms ls dt p in
  let hit := takeDamage (orElse (Settings.fallDamage ls) 20) q in
  y q > Settings.worldHeight ls + 100 ->
  exists p',
    update keys jumppads (Some s) platforms ls dt p = Some p'
    /\ hp p' = hp hit
    /\ (hp hit > 0 -> x p' = Point.x s /\ y p' = Point.y s /\ vx p' = 0 /\ vy p' = 0)
    /\ (hp hit <= 0 -> p' = hit /\ x p' = x q /\ y p' = y q)
    /\ (invulnerable q = false ->
        forall (ticks : list Tick) (p'' : Player.t),
          (length ticks < 30)%nat -> updates ticks p' = Some p'' -> hp p'' = hp p').
Proof.
  intros q hit Hfall. unfold update, fallDamageLogic. fold q.
  rewrite (bool_decide_eq_true_2 _ Hfall). fold hit.
  assert (Hwin : forall p', hp p' = hp hit -> invulnerable p' = invulnerable hit ->
            invulnerableTimer p' = invulnerableTimer hit ->
            invulnerable q = false ->
            forall ticks p'', (length ticks < 30)%nat ->
              updates ticks p' = Some p'' -> hp p'' = hp p').
  { intros p' Hhp Hi Ht Hq ticks p'' Hlen Hrun.
    destruct (takeDamage_vulnerable (orElse (Settings.fallDamage ls) 20) q Hq)
      as (_ & Hi' & Ht'). fold hit in Hi', Ht'.
    destruct (invulnerable_window ticks p' p'') as [_ ?]; try done.
    - congruence.
    - rewrite Ht, Ht'. apply lt_INR in Hlen. simpl in Hlen. lra. }
  case_bool_decide as Hhp.
  - eexists. split; [reflexivity|]. simpl.
    split; [done|]. split; [done|]. split; [intros; lra|].
    by refine (Hwin _ _ _ _).
  - exists hit. split; [done|]. split; [done|]. split; [intros; lra|].
    split; [|by refine (Hwin _ _ _ _)].
    intros _. split; [done|].
    unfold hit, takeDamage. by repeat case_match.
Qed.
End FallFacts.

(** ** The body: what [dt] reaches *)

Section StepFacts.
Import Player.

(** Every field of the body but those [dt] reaches inside one call of
    [update]: mana, the dash bookkeeping and the wall-jump lock. *)
Definition core (p : t) :=
  (x p, y p, width p, height p, vx p, vy p, grounded p, jumpLocked p, trail p,
   (maxHp p, hp p, maxMp p, defense p, invulnerable p, invulnerableTimer p),
   (extraJumps p, jumpsRemaining p, extraDashes p, lastDirection p, wallClimbLevel p,
    lastTouchingWall p, isWallSliding p, isWallClimbing p, dashSpeedMult p,
    doubleJumpMult p)).

Definition agree (p q : t) : Prop := core p = core q.

Ltac agree_close :=
  repeat match goal with E : _ = _ |- _ => rewrite E end;
  repeat case_match; fields; congruence.

Ltac agree_with unfolding :=
  let H := fresh "H" in
  intros H; unfold agree, core in H; injection H; clear H; intros;
  unfold agree, core; unfolding; fields; agree_close.

Ltac agree_step f := agree_with ltac:(unfold f).

Lemma agree_fold {A} (step : t -> A -> t) (l : list A) :
  (forall p q a, agree p q -> agree (step p a) (step q a)) ->
  forall p q, agree p q -> agree (fold_left step l p) (fold_left step l q).
Proof.
  intros Hstep. induction l as [|a l IH]; intros p q Hpq; simpl; [done|].
  by apply IH, Hstep.
Qed.

Lemma agree_jumpLogic keys jf wj p q :
  agree p q -> agree (jumpLogic keys jf wj p) (jumpLogic keys jf wj q).
Proof. agree_step jumpLogic. Qed.

Lemma agree_applyGravity keys g p q :
  agree p q -> agree (applyGravity keys g p) (applyGravity keys g q).
Proof. agree_step applyGravity. Qed.

Lemma agree_jumpPadCollision pads p q :
  agree p q -> agree (jumpPadCollision pads p) (jumpPadCollision pads q).
Proof.
  apply agree_fold. intros p' q' jp.
  agree_with ltac:(unfold jumpPadStep, onJumpPad).
Qed.

Lemma agree_moveX platforms ls p q :
  agree p q -> agree (moveX platforms ls p) (moveX platforms ls q).
Proof.
  intros H. apply agree_fold.
  - intros p' q' o. agree_with ltac:(unfold resolveX, overlaps).
  - revert H. agree_step advanceX.
Qed.

Lemma agree_moveY platforms p q :
  agree p q -> agree (moveY platforms p) (moveY platforms q).
Proof.
  intros H. apply agree_fold.
  - intros p' q' o. agree_with ltac:(unfold resolveY, overlaps).
  - revert H. agree_step advanceY.
Qed.

Lemma agree_dashSkill keys p q : agree p q -> agree (dashSkill keys p) (dashSkill keys q).
Proof. agree_step dashSkill. Qed.

(** Before the dash skill is looked at, the two runs also agree on the flags
    the horizontal input and the wall logic read. *)
Definition agree0 (p q : t) : Prop :=
  agree p q /\ isDashing p = false /\ isDashing q = false
  /\ wallJumpTimer p = wallJumpTimer q /\ wallClimbLevel p <= 0.

Ltac agree0_with unfolding :=
  let H := fresh "H" in
  intros (H & ? & ? & ? & ?); unfold agree, core in H; injection H; clear H; intros;
  unfold agree0, agree, core; unfolding; fields;
  repeat match goal with E : _ = _ |- _ => rewrite E end;
  repeat case_match; fields; repeat split; congruence.

Lemma agree0_tickCooldowns dt1 dt2 p :
  isDashing p = false -> wallClimbLevel p <= 0 ->
  agree0 (tickCooldowns dt1 p) (tickCooldowns dt2 p).
Proof.
  intros Hd Hw. unfold agree0, agree, core, tickCooldowns. fields.
  repeat case_match; fields; rewrite ?Hd in *; repeat split; congruence.
Qed.

Lemma agree0_regenMp ls dt1 dt2 p q :
  agree0 p q -> agree0 (regenMp ls dt1 p) (regenMp ls dt2 q).
Proof. agree0_with ltac:(unfold regenMp). Qed.

Lemma agree_horizontalInput keys dt1 dt2 speed p q :
  agree0 p q ->
  agree (horizontalInput keys dt1 speed p) (horizontalInput keys dt2 speed q)
  /\ wallClimbLevel (horizontalInput keys dt1 speed p) <= 0.
Proof. agree0_with ltac:(unfold horizontalInput). Qed.

Lemma wallClimbLevel_dashSkill keys p :
  wallClimbLevel (dashSkill keys p) = wallClimbLevel p.
Proof. unfold dashSkill. by case_match. Qed.

Lemma agree_wallLogic keys dt1 dt2 speed jf jj p q :
  agree p q -> wallClimbLevel p <= 0 ->
  agree (wallLogic keys dt1 speed jf jj p).1 (wallLogic keys dt2 speed jf jj q).1
  /\ (wallLogic keys dt1 speed jf jj p).2 = false
  /\ (wallLogic keys dt2 speed jf jj q).2 = false.
Proof.
  intros H Hw. unfold agree, core in H. injection H; clear H; intros.
  assert (Hq : wallClimbLevel q <= 0) by congruence.
  unfold wallLogic. fields.
  rewrite (bool_decide_eq_false_2 (wallClimbLevel p > 0)) by lra.
  rewrite (bool_decide_eq_false_2 (wallClimbLevel q > 0)) by lra.
  simpl. unfold agree, core. fields. repeat split; congruence.
Qed.

Lemma agree_takeDamage amount p q :
  agree p q -> agree (takeDamage amount p) (takeDamage amount q).
Proof. agree_step takeDamage. Qed.

Lemma agree_fallDamageLogic spawn ls p q :
  agree p q ->
  core <$> fallDamageLogic spawn ls p = core <$> fallDamageLogic spawn ls q.
Proof.
  intros H. unfold fallDamageLogic.
  assert (Hy : y p = y q) by (unfold agree, core in H; by injection H).
  rewrite Hy. case_bool_decide; [|simpl; by f_equal].
  apply (agree_takeDamage (orElse (Settings.fallDamage ls) 20)) in H.
  set (hp' := takeDamage _ p) in *. set (hq' := takeDamage _ q) in *.
  assert (Hhp : hp hp' = hp hq') by (unfold agree, core in H; by injection H).
  rewrite Hhp. case_bool_decide; [|simpl; by f_equal].
  destruct spawn as [s|]; simpl; [|done]. f_equal.
  unfold agree, core in H. injection H; clear H; intros.
  unfold core. fields. congruence.
Qed.

(** Two calls of [update] on one body that is not dashing and has no wall
    climb skill, with time steps [dt1] and [dt2], agree on the body they
    leave up to the fields [dt] reaches. *)
Lemma agree_integrate keys pads platforms ls dt1 dt2 p :
  isDashing p = false -> wallClimbLevel p <= 0 ->
  agree (integrate keys pads platforms ls dt1 p) (integrate keys pads platforms ls dt2 p).
Proof.
  intros Hd Hw. unfold integrate. cbv zeta.
  set (p0 := tickInvulnerable (recordTrail p)).
  assert (Hd0 : isDashing p0 = false).
  { unfold p0, tickInvulnerable, recordTrail. by repeat case_match. }
  assert (Hw0 : wallClimbLevel p0 <= 0).
  { unfold p0, tickInvulnerable, recordTrail. by repeat case_match. }
  pose proof (agree0_tickCooldowns dt1 dt2 p0 Hd0 Hw0) as Ha.
  assert (Hs : speedOf (tickCooldowns dt1 p0) = speedOf (tickCooldowns dt2 p0)).
  { destruct Ha as (_ & H1 & H2 & _). unfold speedOf. by rewrite H1, H2. }
  assert (Hg : gravityOf (tickCooldowns dt1 p0) = gravityOf (tickCooldowns dt2 p0)).
  { destruct Ha as (_ & H1 & H2 & _). unfold gravityOf. by rewrite H1, H2. }
  rewrite <- Hs, <- Hg.
  set (speed := speedOf _). set (gravity := gravityOf _).
  apply (agree0_regenMp ls dt1 dt2) in Ha.
  apply (agree_horizontalInput keys dt1 dt2 speed) in Ha as [Ha Hl].
  apply (agree_dashSkill keys) in Ha.
  rewrite <- (wallClimbLevel_dashSkill keys) in Hl.
  set (d1 := dashSkill keys (horizontalInput keys dt1 _ _)) in *.
  set (d2 := dashSkill keys (horizontalInput keys dt2 _ _)) in *.
  assert (Hj : jumpLocked d1 = jumpLocked d2).
  { unfold agree, core in Ha. by injection Ha. }
  rewrite <- Hj.
  destruct (agree_wallLogic keys dt1 dt2 speed defaultSettings.jumpForce
              (jumpInput keys && negb (jumpLocked d1)) d1 d2 Ha Hl) as (Hwl & Hf1 & Hf2).
  destruct (wallLogic keys dt1 _ _ _ d1) as [w1 f1].
  destruct (wallLogic keys dt2 _ _ _ d2) as [w2 f2].
  simpl in Hwl, Hf1, Hf2. subst f1 f2.
  by apply agree_moveY, agree_moveX, agree_jumpPadCollision, agree_applyGravity,
    agree_jumpLogic.
Qed.

(** C2, as the code has it.  The body is integrated per call of [update],
    not per second: the call adds [vx] to [x] and [vy] to [y] before it
    resolves collisions, gravity adds its constant to [vy], and the
    invulnerability window loses one unit, whatever [dt] is.  So two calls on
    one body that is not dashing and has no wall climb skill, with two
    different time steps, leave the same position, velocity, hp and
    invulnerability window (and the same throw, when the level has no spawn
    point); they can differ in the fields [dt] does scale: mana, the dash
    bookkeeping and the wall-jump lock. *)
Theorem update_is_fixed_step (keys : Keys) (jumppads : list JumpPad.t)
    (spawn : option Point.t) (platforms : list Obj.t) (ls : Settings.t)
    (dt1 dt2 : R) (p : Player.t) :
  isDashing p = false -> wallClimbLevel p <= 0 ->
  core <$> update keys jumppads spawn platforms ls dt1 p
  = core <$> update keys jumppads spawn platforms ls dt2 p
  /\ (forall b, 0 <= x b + vx b -> x b + vx b + width b <= Settings.worldWidth ls ->
      x (advanceX ls b) = x b + vx b)
  /\ (forall b, 0 <= y b + vy b -> y (advanceY b) = y b + vy b)
  /\ (forall b g, isWallClimbing b = false ->
      vy (applyGravity keys g b)
      = Rmin (vy b + g) (if KeyS keys then defaultSettings.fastFallSpeed
                         else defaultSettings.maxFallSpeed))
  /\ (forall b, invulnerable b = true ->
      invulnerableTimer (tickInvulnerable b) = invulnerableTimer b - 1).
Proof.
  intros Hd Hw. split; [|split; [|split; [|split]]].
  - unfold update. by apply agree_fallDamageLogic, agree_integrate.
  - intros b H0 Hw'. unfold advanceX. fields. by rdecide.
  - intros b H0. unfold advanceY. fields. by rdecide.
  - intros b g Hc. unfold applyGravity. rewrite Hc. fields.
    unfold Rmin.
    destruct (KeyS keys); case_bool_decide; destruct (Rle_dec _ _); fields; lra.
  - intros b Hi. unfold tickInvulnerable. rewrite Hi. fields. by case_match.
Qed.
End StepFacts.

(** ** Concrete ticks *)

Section PlayerExamples.
Import Player.

(** An 800 by 600 world under the default settings. *)
Definition smallWorld : Settings.t :=
  Settings.mk 0.4 0.85 (-11) 4 9 15 25 800 600 100 100 10 (Some 20) (Some 0.1).

(** The same world on a level that asks for no gravity and other speeds. *)
Definition moonWorld : Settings.t :=
  Settings.mk 0 1 (-30) 10 1 2 25 800 600 100 100 10 (Some 20) (Some 0.1).

Definition holdRight : Keys := mkKeys false true false false false false false.

(** C2 fails as stated: at 60 frames per second, on a body that was just
    hit and walks right, one call of [update] moves [x] by [vx] and [y] by
    [vy], not by [vx * dt] and [vy * dt]; gravity adds 0.4 to [vy], not
    [0.4 * dt]; and the invulnerability window goes from 30 to 29, not to
    [30 - dt]. *)
Lemma dt_scaling_counterexample :
  let dt := 1 / 60 in
  let p := takeDamage 10 Player.reset in
  exists p',
    update holdRight [] None [] smallWorld dt p = Some p'
    /\ x p' - x p = vx p' /\ x p' - x p <> vx p' * dt
    /\ y p' - y p = vy p' /\ y p' - y p <> vy p' * dt
    /\ vy p' - vy p = defaultSettings.gravity
    /\ vy p' - vy p <> defaultSettings.gravity * dt
    /\ invulnerableTimer p = 30
    /\ invulnerableTimer p' = 30 - 1 /\ invulnerableTimer p' <> 30 - dt.
Proof.
  intros dt p. subst dt p. unfold holdRight, smallWorld.
  run takeDamage. run_update.
  eexists. split; [reflexivity|]. evaluate. repeat split; lra.
Qed.

Lemma update_is_fixed_step_witness :
  core <$> update holdRight [] None [] smallWorld (1 / 60) Player.reset
  = core <$> update holdRight [] None [] smallWorld (1 / 144) Player.reset.
Proof.
  refine (proj1 (update_is_fixed_step holdRight [] None [] smallWorld (1 / 60)
                   (1 / 144) Player.reset eq_refl _)).
  evaluate. lra.
Defined.

(** A body that has fallen to [y = 800] in a world 600 high. *)
Lemma fall_damage_once_witness :
  exists p',
    update noKeys [] (Some (Point.mk 100 100)) [] smallWorld (1 / 60)
           (Player.reset |> set_y 800) = Some p'
    /\ hp p' = 80 /\ x p' = 100 /\ y p' = 100 /\ vx p' = 0 /\ vy p' = 0.
Proof.
  destruct (fall_damage_once noKeys [] (Point.mk 100 100) [] smallWorld (1 / 60)
              (Player.reset |> set_y 800)) as (p' & Hu & Hhp & Hup & _).
  { unfold smallWorld. run_integrate. lra. }
  revert Hhp Hup. unfold smallWorld. run_integrate. run takeDamage.
  intros Hhp Hup. exists p'. split; [exact Hu|]. split; [rewrite Hhp; lra|].
  apply Hup. lra.
Defined.

Lemma jump_pad_launches_upward_witness :
  vy (jumpPadCollision [JumpPad.mk 50 300 100 20 (Some 5)]
                       (Player.reset |> set_y 275)) < 0.
Proof.
  refine (proj2 (proj2 (jump_pad_launches_upward
                          [JumpPad.mk 50 300 100 20 (Some 5)]
                          (Player.reset |> set_y 275)
                          (JumpPad.mk 50 300 100 20 (Some 5)) _ _))).
  - apply list_elem_of_here.
  - run onJumpPad. reflexivity.
Defined.

Lemma update_ignores_level_physics_witness :
  update holdRight [] None [rect 0 130 800 20] smallWorld (1 / 60) Player.reset
  = update holdRight [] None [rect 0 130 800 20] moonWorld (1 / 60) Player.reset.
Proof.
  apply update_ignores_level_physics; reflexivity.
Defined.
End PlayerExamples.

(** ** The beam of a laser *)

Section LaserFacts.
Import Game.

(** The nominal beam of a laser fired to the right passes through the box
    of a platform: some point of the segment from the emitter to the nominal
    end lies in the platform's rectangle. *)
Definition passesThrough (trap p : Obj.t) : Prop :=
  exists u,
    Obj.x trap - Obj.width trap / 2 <= u <= Obj.x trap + Obj.width trap / 2
    /\ Obj.x p <= u <= Obj.x p + Obj.width p
    /\ Obj.y p <= Obj.y trap <= Obj.y p + Obj.height p.

(** What the loop asks of a platform before it cuts the beam: the platform
    spans the beam's height and its left face lies on the beam's path, at or
    after the emitter and before the nominal end.  This is less than
    [passesThrough]: a platform with the emitter inside it, or one that
    straddles the emitter, has its left face behind the emitter. *)
Definition blocksRight (trap p : Obj.t) : Prop :=
  Obj.y trap >= Obj.y p /\ Obj.y trap <= Obj.y p + Obj.height p
  /\ Obj.x p >= Obj.x trap - Obj.width trap / 2
  /\ Obj.x p < Obj.x trap + Obj.width trap / 2.

(** The loop of [getLaserBounds] for a beam fired to the right from
    [(sx, sy)]: one step, and what the loop computes from a bound [e]. *)
Definition clipRight (sx sy : R) (e : R) (p : Obj.t) : R :=
  if (sy >=? Obj.y p) && (sy <=? Obj.y p + Obj.height p) then
    if (Obj.x p >=? sx) && (Obj.x p <? e) then Obj.x p else e
  else e.

Lemma clipRight_cases sx sy e p :
  (clipRight sx sy e p = Obj.x p
   /\ sy >= Obj.y p /\ sy <= Obj.y p + Obj.height p /\ Obj.x p >= sx /\ Obj.x p < e)
  \/ (clipRight sx sy e p = e
      /\ ~ (sy >= Obj.y p /\ sy <= Obj.y p + Obj.height p /\ Obj.x p >= sx
            /\ Obj.x p < e)).
Proof.
  unfold clipRight. repeat case_bool_decide; simpl; [left|right..]; tauto.
Qed.

Lemma clipRight_le sx sy l : forall e, fold_left (clipRight sx sy) l e <= e.
Proof.
  induction l as [|p l IH]; intros e; simpl; [lra|].
  specialize (IH (clipRight sx sy e p)).
  destruct (clipRight_cases sx sy e p) as [(He & ?)|(He & _)]; rewrite He in *; lra.
Qed.

Lemma clipRight_below sx sy l : forall e p,
  p ∈ l -> sy >= Obj.y p -> sy <= Obj.y p + Obj.height p -> Obj.x p >= sx ->
  fold_left (clipRight sx sy) l e <= Obj.x p.
Proof.
  induction l as [|a l IH]; intros e p Hin H1 H2 H3; [by apply elem_of_nil in Hin|].
  simpl. apply elem_of_cons in Hin as [->|Hin]; [|by apply IH].
  pose proof (clipRight_le sx sy l (clipRight sx sy e a)).
  destruct (clipRight_cases sx sy e a) as [(He & ?)|(He & Hn)]; rewrite He in *.
  - lra.
  - destruct (Rlt_dec (Obj.x a) e); [tauto|lra].
Qed.

Lemma clipRight_attained sx sy l : forall e,
  fold_left (clipRight sx sy) l e = e
  \/ exists q, q ∈ l /\ sy >= Obj.y q /\ sy <= Obj.y q + Obj.height q
               /\ Obj.x q >= sx /\ Obj.x q < e
               /\ fold_left (clipRight sx sy) l e = Obj.x q.
Proof.
  induction l as [|a l IH]; intros e; simpl; [by left|].
  destruct (clipRight_cases sx sy e a) as [(He & Ha)|(He & _)]; rewrite He.
  - right. destruct (IH (Obj.x a)) as [Hf|(q & Hq & ? & ? & ? & ? & Hf)].
    + exists a. rewrite Hf. split; [apply list_elem_of_here|tauto].
    + exists q. split; [by apply list_elem_of_further|].
      repeat split; try done. lra.
  - destruct (IH e) as [Hf|(q & Hq & ? & ? & ? & ? & Hf)]; [by left|right].
    exists q. split; [by apply list_elem_of_further|done].
Qed.

(** For a laser pointing right the bounds come from one run of that loop. *)
Lemma getLaserBounds_right trap platforms :
  rotationOf trap = 0%Z ->
  getLaserBounds trap platforms
  = let sx := Obj.x trap - Obj.width trap / 2 in
    let ex := fold_left (clipRight sx (Obj.y trap)) platforms
                        (Obj.x trap + Obj.width trap / 2) in
    mkBounds (Rmin sx ex) (Rmax sx ex) (Rmin (Obj.y trap) (Obj.y trap))
             (Rmax (Obj.y trap) (Obj.y trap)) sx (Obj.y trap) ex (Obj.y trap).
Proof.
  intros Hr. unfold getLaserBounds. cbv zeta. rewrite Hr.
  rewrite (bool_decide_eq_false_2 (0%Z = 90%Z)), (bool_decide_eq_false_2 (0%Z = 270%Z)),
    (bool_decide_eq_false_2 (0%Z = 180%Z)), (bool_decide_eq_true_2 (0%Z = 0%Z)) by done.
  reflexivity.
Qed.

(** C4, as the code has it.  For a laser with rotation 0 and any list of
    platforms, the beam starts at [x - width / 2] and runs along [y].  A
    platform blocks it when it spans the beam's height and its left face
    [p.x] lies in [[x - width / 2, x + width / 2)].  The end of the beam is
    the nominal end [x + width / 2] when no platform blocks it, and otherwise
    the left face of a blocking platform that is nearest to the emitter.  A
    platform (of width at least 0) that blocks the beam is one the nominal
    beam passes through; a platform the nominal beam passes through blocks
    it unless its left face is behind the emitter, or exactly at the nominal
    end.  So platforms whose left faces are all behind the emitter leave the
    beam at its nominal length, also when the beam runs through them.  The
    bounds are a function of the trap and of the platforms they are computed
    from: nothing is kept from an earlier evaluation. *)
Theorem laser_clipped_at_nearest_platform (trap : Obj.t) (platforms : list Obj.t) :
  rotationOf trap = 0%Z ->
  let b := getLaserBounds trap platforms in
  startX b = Obj.x trap - Obj.width trap / 2
  /\ startY b = Obj.y trap /\ endY b = Obj.y trap
  /\ ((forall p, p ∈ platforms -> ~ blocksRight trap p) ->
      endX b = Obj.x trap + Obj.width trap / 2)
  /\ (forall p, p ∈ platforms -> blocksRight trap p ->
      exists q, q ∈ platforms /\ blocksRight trap q /\ endX b = Obj.x q
                /\ forall r, r ∈ platforms -> blocksRight trap r -> Obj.x q <= Obj.x r)
  /\ (forall p, 0 <= Obj.width p -> blocksRight trap p -> passesThrough trap p)
  /\ (forall p, passesThrough trap p ->
      blocksRight trap p \/ Obj.x p < Obj.x trap - Obj.width trap / 2
      \/ Obj.x p = Obj.x trap + Obj.width trap / 2)
  /\ ((forall p, p ∈ platforms -> Obj.x p < Obj.x trap - Obj.width trap / 2) ->
      endX b = Obj.x trap + Obj.width trap / 2).
Proof.
  intros Hr b. subst b. rewrite (getLaserBounds_right _ _ Hr). cbn.
  set (sx := Obj.x trap - Obj.width trap / 2).
  set (nominal := Obj.x trap + Obj.width trap / 2).
  split; [done|]. split; [done|]. split; [done|].
  pose proof (clipRight_attained sx (Obj.y trap) platforms nominal) as Hatt.
  assert (Hfree : (forall p, p ∈ platforms -> ~ blocksRight trap p) ->
            fold_left (clipRight sx (Obj.y trap)) platforms nominal = nominal).
  { intros Hfree. destruct Hatt as [?|(q & Hq & ? & ? & ? & ? & _)]; [done|].
    exfalso. apply (Hfree q Hq). by unfold blocksRight. }
  split; [done|]. split; [|split; [|split]].
  - intros p Hp (Hp1 & Hp2 & Hp3 & Hp4).
    pose proof (clipRight_below sx (Obj.y trap) platforms nominal p Hp Hp1 Hp2 Hp3).
    destruct Hatt as [Hf|(q & Hq & ? & ? & ? & ? & Hf)]; [fold nominal in Hp4; lra|].
    exists q. split; [done|]. split; [by unfold blocksRight|]. split; [done|].
    intros r Hrin (Hr1 & Hr2 & Hr3 & _). rewrite <- Hf.
    by apply clipRight_below.
  - intros p Hw (Hp1 & Hp2 & Hp3 & Hp4). exists (Obj.x p).
    fold sx nominal in Hp3, Hp4 |- *. lra.
  - intros p (u & Hu & Hpu & Hpy). unfold blocksRight. fold sx nominal in Hu |- *.
    destruct (Rlt_dec (Obj.x p) sx) as [?|?]; [by right; left|].
    destruct (Rlt_dec (Obj.x p) nominal) as [?|?]; [left; lra|right; right; lra].
  - intros Hbehind. apply Hfree. intros p Hp (_ & _ & Hp3 & _).
    specialize (Hbehind p Hp). fold sx in Hp3, Hbehind. lra.
Qed.

(** The laser of the spec's example: fired to the right from [x = 600]
    along [y = 200] with a nominal length of 400, it stops at the left face
    of the nearer of two platforms in its way. *)
Definition exampleLaser : Obj.t :=
  Obj.mk "laser" 800 200 400 10 (Some 0%Z) (Some 1) (Some 50) false
         None None None None None None None None None None None None.

(** C4 fails as stated for a platform that straddles the emitter.  The
    beam of [exampleLaser] runs from 600 to 1000 along [y = 200]; the platform
    [{x: 550, y: 150, width: 100, height: 100}] covers the beam from 600 to
    650, so the beam passes through its box.  Its left face, 550, is behind
    the emitter: the loop does not cut the beam, which keeps its nominal end
    1000 and is not clipped to the left face.  With a second platform at 900
    the beam ends there, not at the platform it passes through first. *)
Lemma straddled_emitter_counterexample :
  let straddler := rect 550 150 100 100 in
  passesThrough exampleLaser straddler
  /\ endX (getLaserBounds exampleLaser [straddler]) = 1000
  /\ endX (getLaserBounds exampleLaser [straddler]) <> Obj.x straddler
  /\ endX (getLaserBounds exampleLaser [straddler; rect 900 150 50 100]) = 900.
Proof.
  cbv zeta.
  assert (H1 : endX (getLaserBounds exampleLaser [rect 550 150 100 100]) = 1000).
  { rewrite getLaserBounds_right by reflexivity. cbn [endX].
    unfold clipRight, exampleLaser. evaluate. rdecide. evaluate. lra. }
  split; [|split; [done|split]].
  - exists 625. unfold exampleLaser. evaluate. lra.
  - rewrite H1. evaluate. lra.
  - rewrite getLaserBounds_right by reflexivity. cbn [endX].
    unfold clipRight, exampleLaser. evaluate. rdecide. evaluate. rdecide. evaluate. lra.
Qed.

Lemma laser_clipped_at_nearest_platform_witness :
  endX (getLaserBounds exampleLaser [rect 900 150 50 100; rect 700 100 50 200;
                                     rect 650 300 50 50]) = 700.
Proof.
  destruct (laser_clipped_at_nearest_platform exampleLaser
              [rect 900 150 50 100; rect 700 100 50 200; rect 650 300 50 50]
              eq_refl) as (_ & _ & _ & _ & Hclip & _).
  destruct (Hclip (rect 700 100 50 200)) as (q & Hq & Hb & He & Hmin).
  { apply list_elem_of_further, list_elem_of_here. }
  { unfold blocksRight, exampleLaser. evaluate. lra. }
  rewrite He. apply Rle_antisym.
  - apply (Hmin (rect 700 100 50 200)).
    + apply list_elem_of_further, list_elem_of_here.
    + unfold blocksRight, exampleLaser. evaluate. lra.
  - destruct Hb as (Hb1 & Hb2 & Hb3 & Hb4).
    repeat (apply elem_of_cons in Hq as [->|Hq]); revert Hb1 Hb2 Hb3 Hb4;
      unfold exampleLaser; evaluate; try lra.
    by apply elem_of_nil in Hq.
Defined.
End LaserFacts.

(** ** Scripted motion *)

Section MotionFacts.
Import Game.

Lemma hypot_nonneg a b : 0 <= hypot a b.
Proof. apply sqrt_pos. Qed.


Lemma hypot_axis a : hypot a 0 = Rabs a.
Proof.
  unfold hypot. replace (a * a + 0 * 0) with (Rsqr a) by (unfold Rsqr; ring).
  apply sqrt_Rsqr_abs.
Qed.

(** How [applyMovement] reads the object it is given. *)
Definition baseOf (obj : Obj.t) : R * R :=
  (default (Obj.x obj) (Obj.baseX obj), default (Obj.y obj) (Obj.baseY obj)).

Definition startOf (obj : Obj.t) : R * R :=
  (default (baseOf obj).1 (Obj.startX obj), default (baseOf obj).2 (Obj.startY obj)).

Definition forwardOf (obj : Obj.t) : bool := default true (Obj.movingForward obj).

Definition targetOf (obj : Obj.t) : R * R :=
  if forwardOf obj
  then ((startOf obj).1 + orElse (Obj.tx obj) 0, (startOf obj).2 + orElse (Obj.ty obj) 0)
  else startOf obj.

(** The distance left to the target, and the step of this tick. *)
Definition remaining (obj : Obj.t) : R :=
  hypot ((targetOf obj).1 - (baseOf obj).1) ((targetOf obj).2 - (baseOf obj).2).

Definition stepOf (dt : R) (obj : Obj.t) : R := default 0 (Obj.speed obj) * dt.

(** The collision check of a trap: its box, centred on the base moved by
    this tick's step, against the platforms. *)
Definition blocked (platforms : list Obj.t) (dt : R) (obj : Obj.t) : bool :=
  let fx := (baseOf obj).1
            + ((targetOf obj).1 - (baseOf obj).1) / remaining obj * stepOf dt obj in
  let fy := (baseOf obj).2
            + ((targetOf obj).2 - (baseOf obj).2) / remaining obj * stepOf dt obj in
  let sw := Obj.width obj * orElse (Obj.scale obj) 1 in
  let sh := Obj.height obj * orElse (Obj.scale obj) 1 in
  existsb (hits (fx - sw / 2) (fx + sw / 2) (fy - sh / 2) (fy + sh / 2)) platforms.

(** The sinusoidal offset of this tick. *)
Definition offsetOf (dt : R) (obj : Obj.t) : R * R :=
  if positive (Obj.oscSpeed obj) && (truthy (Obj.oscX obj) || truthy (Obj.oscY obj))
  then
    let t := default 0 (Obj.oscTime obj) + dt * default 0 (Obj.oscSpeed obj) in
    (sin t * orElse (Obj.oscX obj) 0, cos t * orElse (Obj.oscY obj) 0)
  else (0, 0).

(** The fields the linear movement leaves alone. *)
Definition script (obj : Obj.t) :=
  (Obj.type obj, Obj.x obj, Obj.y obj, Obj.width obj, Obj.height obj, Obj.rotation obj,
   Obj.scale obj, Obj.damage obj, Obj.dormant obj,
   (Obj.speed obj, Obj.tx obj, Obj.ty obj, Obj.oscX obj, Obj.oscY obj, Obj.oscSpeed obj,
    Obj.oscTime obj)).

Lemma script_linearMovement platforms dt isPlatform obj :
  script (linearMovement platforms dt isPlatform obj) = script obj.
Proof. unfold linearMovement, script. repeat case_match; reflexivity. Qed.

(** The linear movement of an object under a ping-pong script: the three
    ways the base can go. *)
Lemma linearMovement_cases platforms dt isPlatform obj v :
  Obj.speed obj = Some v -> v > 0 ->
  orElse (Obj.tx obj) 0 <> 0 \/ orElse (Obj.ty obj) 0 <> 0 ->
  let obj' := linearMovement platforms dt isPlatform obj in
  let dx := (targetOf obj).1 - (baseOf obj).1 in
  let dy := (targetOf obj).2 - (baseOf obj).2 in
  exists bx by',
    Obj.baseX obj' = Some bx /\ Obj.baseY obj' = Some by'
    /\ Obj.startX obj' = Some (startOf obj).1 /\ Obj.startY obj' = Some (startOf obj).2
    /\ (if remaining obj <=? stepOf dt obj then
          bx = (targetOf obj).1 /\ by' = (targetOf obj).2
          /\ Obj.movingForward obj' = Some (negb (forwardOf obj))
        else if negb isPlatform && blocked platforms dt obj then
          bx = (baseOf obj).1 + 0 /\ by' = (baseOf obj).2 + 0
          /\ Obj.movingForward obj' = Some (negb (forwardOf obj))
        else
          bx = (baseOf obj).1 + dx / remaining obj * stepOf dt obj
          /\ by' = (baseOf obj).2 + dy / remaining obj * stepOf dt obj
          /\ Obj.movingForward obj' = Some (forwardOf obj)).
Proof.
  intros Hs Hv Ht obj' dx dy. subst obj' dx dy.
  assert (Hnz : negb (orElse (Obj.tx obj) 0 =? 0) || negb (orElse (Obj.ty obj) 0 =? 0)
                = true).
  { destruct Ht; repeat case_bool_decide; simpl; done. }
  unfold linearMovement, blocked, remaining, stepOf, targetOf, startOf, forwardOf,
    baseOf. cbv zeta. ofields. rewrite Hnz, Hs. cbn [positive default from_option].
  unfold id. rewrite (bool_decide_eq_true_2 (v > 0)) by lra. cbn [andb].
  destruct (Obj.movingForward obj) as [[|]|]; cbn [from_option fst snd negb]; unfold id.
  all: destruct (bool_decide (hypot _ _ <= _)); ofields; [eauto 10|].
  all: destruct isPlatform; ofields; [eauto 10|].
  all: destruct (existsb _ _); ofields; eauto 10.
Qed.

Lemma oscillation_offset dt obj :
  (oscillation dt obj).2 = offsetOf dt obj
  /\ Obj.baseX (oscillation dt obj).1 = Obj.baseX obj
  /\ Obj.baseY (oscillation dt obj).1 = Obj.baseY obj
  /\ Obj.startX (oscillation dt obj).1 = Obj.startX obj
  /\ Obj.startY (oscillation dt obj).1 = Obj.startY obj
  /\ Obj.movingForward (oscillation dt obj).1 = Obj.movingForward obj.
Proof. unfold oscillation, offsetOf. by case_match. Qed.

Lemma offsetOf_script dt a b : script a = script b -> offsetOf dt a = offsetOf dt b.
Proof.
  unfold script, offsetOf. intros H. injection H as _ _ _ _ _ _ _ _ _ _ _ _ H1 H2 H3 H4.
  by rewrite H1, H2, H3, H4.
Qed.

(** What one call of [applyMovement] does to an object under a ping-pong
    script: the base goes one of three ways, the recorded start stays, and
    the position is the new base plus the offset of the oscillation. *)
Lemma applyMovement_linear platforms dt isPlatform obj player v :
  Obj.speed obj = Some v -> v > 0 ->
  orElse (Obj.tx obj) 0 <> 0 \/ orElse (Obj.ty obj) 0 <> 0 ->
  let obj' := (applyMovement platforms dt isPlatform obj player).1 in
  let dx := (targetOf obj).1 - (baseOf obj).1 in
  let dy := (targetOf obj).2 - (baseOf obj).2 in
  exists bx by',
    Obj.baseX obj' = Some bx /\ Obj.baseY obj' = Some by'
    /\ Obj.startX obj' = Some (startOf obj).1 /\ Obj.startY obj' = Some (startOf obj).2
    /\ Obj.x obj' = bx + (offsetOf dt obj).1 /\ Obj.y obj' = by' + (offsetOf dt obj).2
    /\ (if remaining obj <=? stepOf dt obj then
          bx = (targetOf obj).1 /\ by' = (targetOf obj).2
          /\ Obj.movingForward obj' = Some (negb (forwardOf obj))
        else if negb isPlatform && blocked platforms dt obj then
          bx = (baseOf obj).1 + 0 /\ by' = (baseOf obj).2 + 0
          /\ Obj.movingForward obj' = Some (negb (forwardOf obj))
        else
          bx = (baseOf obj).1 + dx / remaining obj * stepOf dt obj
          /\ by' = (baseOf obj).2 + dy / remaining obj * stepOf dt obj
          /\ Obj.movingForward obj' = Some (forwardOf obj)).
Proof.
  intros Hs Hv Ht obj' dx dy. subst obj' dx dy.
  unfold applyMovement. rewrite Hs. cbn [truthy].
  rewrite (bool_decide_eq_false_2 (v = 0)) by lra. cbn [negb andb].
  set (o1 := initBase obj).
  destruct (linearMovement_cases platforms dt isPlatform o1 v) as
    (bx & by' & Hbx & Hby & Hsx & Hsy & Hcase); [done..|].
  assert (Hviews : baseOf o1 = baseOf obj /\ startOf o1 = startOf obj
                   /\ forwardOf o1 = forwardOf obj /\ targetOf o1 = targetOf obj
                   /\ remaining o1 = remaining obj /\ stepOf dt o1 = stepOf dt obj
                   /\ blocked platforms dt o1 = blocked platforms dt obj).
  { unfold blocked, remaining, stepOf, targetOf, startOf, forwardOf, baseOf, o1,
      initBase. ofields. done. }
  destruct Hviews as (Hv1 & Hv2 & Hv3 & Hv4 & Hv5 & Hv6 & Hv7).
  rewrite Hv1, Hv2, Hv3, Hv4, Hv5, Hv6, Hv7 in *.
  set (o2 := linearMovement platforms dt isPlatform o1) in *.
  assert (Hoff : offsetOf dt o2 = offsetOf dt obj).
  { apply offsetOf_script. unfold o2. by rewrite script_linearMovement. }
  destruct (oscillation_offset dt o2) as (Ho & Hb1 & Hb2 & Hs1 & Hs2 & Hm).
  destruct (oscillation dt o2) as [o3 [ox oy]]. simpl in Ho, Hb1, Hb2, Hs1, Hs2, Hm.
  exists bx, by'. ofields. rewrite Hb1, Hb2, Hs1, Hs2, Hm, Hbx, Hby, <- Hoff, <- Ho.
  cbn [default from_option fst snd]. unfold id. repeat split; try done.
Qed.


(** A trap on a regular step whose box at the stepped position overlaps a
    platform: the step is cancelled and the direction flips at once. *)
Lemma blocked_step_turns_around platforms dt obj player v :
  Obj.speed obj = Some v -> v > 0 ->
  orElse (Obj.tx obj) 0 <> 0 \/ orElse (Obj.ty obj) 0 <> 0 ->
  remaining obj > v * dt -> blocked platforms dt obj = true ->
  let obj' := (applyMovement platforms dt false obj player).1 in
  Obj.baseX obj' = Some ((baseOf obj).1 + 0)
  /\ Obj.baseY obj' = Some ((baseOf obj).2 + 0)
  /\ Obj.movingForward obj' = Some (negb (forwardOf obj)).
Proof.
  intros Hs Hv Ht Hgt Hb obj'.
  destruct (applyMovement_linear platforms dt false obj player v Hs Hv Ht)
    as (bx & by' & Hbx & Hby & _ & _ & _ & _ & Hcase).
  fold obj' in Hbx, Hby, Hcase.
  assert (Hstep : stepOf dt obj = v * dt) by (unfold stepOf; by rewrite Hs).
  rewrite Hstep, Hb in Hcase.
  rewrite (bool_decide_eq_false_2 (remaining obj <= v * dt)) in Hcase by lra.
  destruct Hcase as (-> & -> & Hm). done.
Qed.
End MotionFacts.

(** ** Scripted motion on concrete objects *)

Section MotionExamples.
Import Game.

Lemma hypot_flat a b : b = 0 -> hypot a b = Rabs a.
Proof. intros ->. apply hypot_axis. Qed.

(** Evaluate one call of [applyMovement] on an object that moves along the
    x axis. *)
Ltac flat :=
  repeat match goal with
  | |- context [hypot ?a ?b] => rewrite (hypot_flat a b) by lra
  end.

Ltac run_movement :=
  unfold applyMovement; evaluate; rdecide; evaluate;
  run initBase;
  unfold linearMovement, hits; evaluate; flat; rdecide; evaluate; flat; rdecide; evaluate;
  run oscillation; run carry.

(** The second platform of the built-in level "Matrix Symphony". *)
Definition shuttle : Obj.t :=
  Obj.mk "" 300 300 100 20 None None None false (Some 100) (Some 200) (Some 0)
         None None None None None None None None None.





(** A spike half a unit from the end of its run, with a wall that its box
    enters at the end point and not before. *)
Definition arriving : Obj.t :=
  Obj.mk "spikes" 109.5 100 20 20 (Some 0%Z) (Some 1) (Some 20) false
         (Some 60) (Some 10) (Some 0) None None None (Some 109.5) (Some 100)
         (Some 100) (Some 100) (Some true) None.

Definition endWall : Obj.t := rect 119.8 90 50 50.

(** C8 on that spike: the distance left (0.5) is within the step (1), so
    the call takes the branch that snaps to the target.  That branch has no
    collision check: the spike is moved to [x = 110], where its box overlaps
    the wall, instead of staying where it was. *)
Theorem snap_skips_collision_check :
  let obj' := (applyMovement [endWall] (1 / 60) false arriving Player.reset).1 in
  remaining arriving <= stepOf (1 / 60) arriving
  /\ Obj.baseX obj' = Some 110 /\ Obj.baseY obj' = Some 100
  /\ Obj.movingForward obj' = Some false
  /\ hits (110 - 20 * 1 / 2) (110 + 20 * 1 / 2) (100 - 20 * 1 / 2) (100 + 20 * 1 / 2)
          endWall = true
  /\ hits (109.5 - 20 * 1 / 2) (109.5 + 20 * 1 / 2) (100 - 20 * 1 / 2)
          (100 + 20 * 1 / 2) endWall = false.
Proof.
  assert (Hrem : remaining arriving = 0.5).
  { unfold remaining, targetOf, startOf, forwardOf, baseOf, arriving. evaluate. rdecide.
    rewrite hypot_flat by lra. unfold Rabs. destruct (Rcase_abs _); lra. }
  intros obj'. subst obj'. split.
  { rewrite Hrem. unfold stepOf, arriving. evaluate. lra. }
  unfold arriving, endWall. run_movement. unfold hits. evaluate. rdecide.
  repeat split; f_equal; lra.
Qed.
End MotionExamples.

(** ** Triggers and dormancy *)

Section TriggerFacts.
Import Game.

(** The dormant flag of the trap at index [i], if there is one. *)
Definition dormantAt (i : nat) (traps : list Obj.t) : option bool :=
  Obj.dormant <$> traps !! i.

(** A trigger with its [triggered] flag cleared: what never changes. *)
Definition zone (tr : Trigger.t) : Trigger.t := Trigger.set_triggered false tr.

(** The test of the trigger loop: the trigger is still armed and the body
    is in it. *)
Definition fires (p : Player.t) (tr : Trigger.t) : bool :=
  negb (Trigger.triggered tr && Trigger.oneShot tr) && playerInTrigger p tr.

Lemma playerInTrigger_zone p tr : playerInTrigger p (zone tr) = playerInTrigger p tr.
Proof. done. Qed.

Lemma bindings_zone tr : Trigger.bindings (zone tr) = Trigger.bindings tr.
Proof. done. Qed.

Lemma dormantAt_alter_ne f i k traps :
  k <> i -> dormantAt i (alter f k traps) = dormantAt i traps.
Proof. intros Hk. unfold dormantAt. by rewrite list_lookup_alter_ne. Qed.

Lemma dormantAt_wake i traps :
  (i < length traps)%nat ->
  dormantAt i (alter (ObjSet.set_dormant false) i traps) = Some false.
Proof.
  intros Hi. unfold dormantAt. rewrite list_lookup_alter_eq.
  destruct (lookup_lt_is_Some_2 traps i Hi) as [o ->]. done.
Qed.

(** *** One binding, and the bindings of one trigger *)

Lemma fireBinding_length now traps timers b :
  length (fireBinding now (traps, timers) b).1 = length traps.
Proof.
  unfold fireBinding. repeat case_match; simpl; by rewrite ?length_alter.
Qed.

Section Bindings.
Variables (i : nat) (now : R).

(** What the bindings of a firing trigger do to trap [i] when all of
    them that name it are delayed. *)
Lemma fireBindings_delayed bs : forall traps timers,
  (forall b, b ∈ bs -> Binding.trapIndex b = i -> Binding.delay b > 0) ->
  let r := fold_left (fireBinding now) bs (traps, timers) in
  length r.1 = length traps
  /\ dormantAt i r.1 = dormantAt i traps
  /\ exists new, r.2 = timers ++ new
      /\ (forall tm, tm ∈ new -> Timer.trapIndex tm = i ->
            exists b, b ∈ bs /\ Binding.trapIndex b = i
                      /\ Timer.due tm = now + Binding.delay b * 1000)
      /\ (forall b, b ∈ bs -> Binding.trapIndex b = i -> (i < length traps)%nat ->
            Timer.mk (now + Binding.delay b * 1000) i ∈ new).
Proof.
  induction bs as [|b bs IH]; intros traps timers Hd; simpl.
  { split; [done|]. split; [done|]. exists []. rewrite app_nil_r.
    split; [done|]. split; intros ? Hin; by apply elem_of_nil in Hin. }
  destruct (fireBinding now (traps, timers) b) as [traps1 timers1] eqn:Hb.
  destruct (IH traps1 timers1) as (Hlen & Hdor & new & Hnew & Hfrom & Hto).
  { intros b' Hb'. apply Hd. by apply list_elem_of_further. }
  assert (Hlen1 : length traps1 = length traps).
  { change traps1 with (traps1, timers1).1. rewrite <- Hb. apply fireBinding_length. }
  unfold fireBinding in Hb.
  destruct (traps !! Binding.trapIndex b) as [o|] eqn:Hlook.
  - destruct (bool_decide (Binding.delay b > 0)) eqn:Hdelay.
    + injection Hb as <- <-.
      split; [done|]. split; [done|].
      exists (Timer.mk (now + Binding.delay b * 1000) (Binding.trapIndex b) :: new).
      split; [by rewrite Hnew, <- app_assoc|]. split.
      * intros tm Htm Hi. apply elem_of_cons in Htm as [->|Htm].
        -- exists b. split; [apply list_elem_of_here|done].
        -- destruct (Hfrom tm Htm Hi) as (b' & ? & ? & ?).
           exists b'. split; [by apply list_elem_of_further|done].
      * intros b' Hb' Hi Hlt. apply elem_of_cons in Hb' as [->|Hb'].
        -- rewrite <- Hi. apply list_elem_of_here.
        -- apply list_elem_of_further. by apply Hto.
    + injection Hb as <- <-.
      assert (Hne : Binding.trapIndex b <> i).
      { intros Hi. apply bool_decide_eq_false in Hdelay. apply Hdelay.
        apply Hd; [apply list_elem_of_here|done]. }
      rewrite length_alter in *.
      split; [done|]. split; [by rewrite Hdor, dormantAt_alter_ne|].
      exists new. split; [done|]. split.
      * intros tm Htm Hi. destruct (Hfrom tm Htm Hi) as (b' & ? & ? & ?).
        exists b'. split; [by apply list_elem_of_further|done].
      * intros b' Hb' Hi Hlt. apply elem_of_cons in Hb' as [->|Hb']; [done|].
        by apply Hto.
  - injection Hb as <- <-.
    assert (Hne : Binding.trapIndex b = i -> ~ (i < length traps)%nat).
    { intros <-. apply lookup_ge_None in Hlook. lia. }
    split; [done|]. split; [done|].
    exists new. split; [done|]. split.
    + intros tm Htm Hi. destruct (Hfrom tm Htm Hi) as (b' & ? & ? & ?).
      exists b'. split; [by apply list_elem_of_further|done].
    + intros b' Hb' Hi Hlt. apply elem_of_cons in Hb' as [->|Hb'].
      * by destruct (Hne Hi).
      * by apply Hto.
Qed.

(** Bindings that do not name trap [i] leave it and its timers alone. *)
Lemma fireBindings_elsewhere bs : forall traps timers,
  (forall b, b ∈ bs -> Binding.trapIndex b <> i) ->
  let r := fold_left (fireBinding now) bs (traps, timers) in
  length r.1 = length traps
  /\ dormantAt i r.1 = dormantAt i traps
  /\ exists new, r.2 = timers ++ new
                 /\ forall tm, tm ∈ new -> Timer.trapIndex tm <> i.
Proof.
  intros traps timers Hne.
  destruct (fireBindings_delayed bs traps timers) as (Hl & Hd & new & Hn & Hfrom & _).
  { intros b Hb Hi. by destruct (Hne b Hb). }
  split; [done|]. split; [done|]. exists new. split; [done|].
  intros tm Htm Hi. destruct (Hfrom tm Htm Hi) as (b & Hb & Hbi & _).
  by destruct (Hne b Hb).
Qed.
End Bindings.

(** *** The trigger loop, seen from one trap

    Trap [i] is named by bindings of triggers with the zone of [tr] only,
    each with the delay [d > 0]. *)
Section Wired.
Variables (i : nat) (d : R) (tr : Trigger.t).
Hypothesis d_pos : d > 0.

Definition wired (trs : list Trigger.t) : Prop :=
  forall tr' b, tr' ∈ trs -> b ∈ Trigger.bindings tr' -> Binding.trapIndex b = i ->
    zone tr' = zone tr /\ Binding.delay b = d.

Lemma wired_zones trs trs' : zone <$> trs' = zone <$> trs -> wired trs -> wired trs'.
Proof.
  intros Hz Hw tr' b Htr' Hb Hi.
  assert (Hin : zone tr' ∈ zone <$> trs) by (rewrite <- Hz; by apply list_elem_of_fmap_2).
  apply list_elem_of_fmap in Hin as (tr0 & Hz0 & Htr0).
  rewrite Hz0. apply (Hw tr0 b Htr0); [|done].
  by rewrite <- bindings_zone, <- Hz0.
Qed.

Lemma detectTrigger_quiet now p tr' acc :
  fires p tr' = false -> detectTrigger now p tr' acc = (tr', acc).
Proof.
  unfold fires, detectTrigger.
  destruct (Trigger.triggered tr' && Trigger.oneShot tr'); [done|].
  simpl. by intros ->.
Qed.

Lemma detectTrigger_fires now p tr' acc :
  fires p tr' = true ->
  detectTrigger now p tr' acc
  = (Trigger.set_triggered true tr', fold_left (fireBinding now) (Trigger.bindings tr') acc).
Proof.
  unfold fires, detectTrigger.
  destruct (Trigger.triggered tr' && Trigger.oneShot tr'); [done|].
  simpl. by intros ->.
Qed.

Lemma triggerDetection_wired now p trs : forall traps timers,
  wired trs ->
  let r := triggerDetection now p trs (traps, timers) in
  zone <$> r.1 = zone <$> trs
  /\ length r.2.1 = length traps
  /\ dormantAt i r.2.1 = dormantAt i traps
  /\ (forall tr'', tr'' ∈ r.1 -> Trigger.triggered tr'' = true ->
        playerInTrigger p tr'' = true
        \/ exists tr', tr' ∈ trs /\ zone tr' = zone tr'' /\ Trigger.triggered tr' = true)
  /\ exists new, r.2.2 = timers ++ new
      /\ (forall tm, tm ∈ new -> Timer.trapIndex tm = i ->
            Timer.due tm = now + d * 1000 /\ playerInTrigger p tr = true)
      /\ ((exists tr' b, tr' ∈ trs /\ fires p tr' = true
                         /\ b ∈ Trigger.bindings tr' /\ Binding.trapIndex b = i) ->
          (i < length traps)%nat ->
          exists tm, tm ∈ new /\ Timer.trapIndex tm = i
                     /\ Timer.due tm = now + d * 1000).
Proof.
  induction trs as [|tr' trs IH]; intros traps timers Hw; simpl.
  { split; [done|]. split; [done|]. split; [done|].
    split; [by intros ? Hin%elem_of_nil|].
    exists []. rewrite app_nil_r. split; [done|].
    split; [by intros ? Hin%elem_of_nil|].
    by intros (? & ? & Hin%elem_of_nil & _). }
  assert (Hw' : wired trs).
  { intros ? ? ?. apply Hw. by apply list_elem_of_further. }
  assert (Hhere : forall b, b ∈ Trigger.bindings tr' -> Binding.trapIndex b = i ->
            zone tr' = zone tr /\ Binding.delay b = d).
  { intros b. apply Hw, list_elem_of_here. }
  destruct (fires p tr') eqn:Hf.
  - rewrite detectTrigger_fires by done.
    destruct (fireBindings_delayed i now (Trigger.bindings tr') traps timers)
      as (Hl1 & Hd1 & new1 & Hn1 & Hfrom1 & Hto1).
    { intros b Hb Hi. destruct (Hhere b Hb Hi) as [_ ->]. done. }
    destruct (fold_left _ _ _) as [traps1 timers1]. simpl in Hl1, Hd1, Hn1.
    specialize (IH traps1 timers1 Hw').
    destruct (triggerDetection now p trs (traps1, timers1)) as [trs2 [traps2 timers2]].
    simpl in IH. destruct IH as (Hz & Hl2 & Hd2 & Htrig & new2 & Hn2 & Hfrom2 & Hto2).
    simpl. split; [by f_equal|]. split; [congruence|]. split; [congruence|].
    split.
    { intros tr'' Hin Ht. apply elem_of_cons in Hin as [->|Hin].
      - left. unfold fires in Hf. by apply andb_prop in Hf as [_ ?].
      - destruct (Htrig tr'' Hin Ht) as [?|(t0 & ? & ? & ?)]; [by left|right].
        exists t0. split; [by apply list_elem_of_further|done]. }
    exists (new1 ++ new2). split; [by rewrite Hn2, Hn1, app_assoc|]. split.
    + intros tm Htm Hi. apply elem_of_app in Htm as [Htm|Htm]; [|by apply Hfrom2].
      destruct (Hfrom1 tm Htm Hi) as (b & Hb & Hbi & Hdue).
      destruct (Hhere b Hb Hbi) as [Hzone Hdelay]. split; [by rewrite Hdue, Hdelay|].
      unfold fires in Hf. apply andb_prop in Hf as [_ Hin].
      by rewrite <- playerInTrigger_zone, <- Hzone, playerInTrigger_zone.
    + intros (t0 & b & Ht0 & Hf0 & Hb & Hbi) Hlt.
      apply elem_of_cons in Ht0 as [->|Ht0].
      * exists (Timer.mk (now + Binding.delay b * 1000) i).
        split; [apply elem_of_app; left; by apply Hto1|].
        destruct (Hhere b Hb Hbi) as [_ ->]. done.
      * destruct Hto2 as (tm & ? & ? & ?); [by exists t0, b|lia|].
        exists tm. split; [apply elem_of_app; by right|done].
  - rewrite detectTrigger_quiet by done.
    specialize (IH traps timers Hw').
    destruct (triggerDetection now p trs (traps, timers)) as [trs2 [traps2 timers2]].
    simpl in IH. destruct IH as (Hz & Hl2 & Hd2 & Htrig & new2 & Hn2 & Hfrom2 & Hto2).
    simpl. split; [by f_equal|]. split; [done|]. split; [done|].
    split.
    { intros tr'' Hin Ht. apply elem_of_cons in Hin as [->|Hin].
      - right. exists tr'. split; [apply list_elem_of_here|done].
      - destruct (Htrig tr'' Hin Ht) as [?|(t0 & ? & ? & ?)]; [by left|right].
        exists t0. split; [by apply list_elem_of_further|done]. }
    exists new2. split; [done|]. split; [done|].
    intros (t0 & b & Ht0 & Hf0 & Hb & Hbi) Hlt.
    apply elem_of_cons in Ht0 as [->|Ht0]; [congruence|].
    apply Hto2; [by exists t0, b|done].
Qed.
End Wired.
End TriggerFacts.

(** *** One frame, seen from one trap *)

Section FrameFacts.
Import Game.

Lemma dormant_oscillation dt obj : Obj.dormant (oscillation dt obj).1 = Obj.dormant obj.
Proof. unfold oscillation. by case_match. Qed.

Lemma dormant_linearMovement platforms dt isPlatform obj :
  Obj.dormant (linearMovement platforms dt isPlatform obj) = Obj.dormant obj.
Proof.
  pose proof (script_linearMovement platforms dt isPlatform obj) as Hs.
  unfold script in Hs. by injection Hs.
Qed.

Lemma dormant_applyMovement platforms dt isPlatform obj player :
  Obj.dormant (applyMovement platforms dt isPlatform obj player).1 = Obj.dormant obj.
Proof.
  unfold applyMovement. destruct (negb _ && negb _); [done|].
  pose proof (dormant_oscillation dt
                (linearMovement platforms dt isPlatform (initBase obj))) as Ho.
  destruct (oscillation dt _) as [o [ox oy]]. simpl in Ho. ofields.
  by rewrite Ho, dormant_linearMovement.
Qed.

Lemma moveTraps_dormantAt i platforms dt traps player :
  dormantAt i (moveTraps platforms dt traps player) = dormantAt i traps.
Proof.
  unfold dormantAt, moveTraps. rewrite list_lookup_fmap.
  destruct (traps !! i) as [o|]; simpl; [|done].
  destruct (Obj.dormant o) eqn:Hd; [by rewrite Hd|].
  by rewrite dormant_applyMovement, Hd.
Qed.

Lemma moveTraps_length platforms dt traps player :
  length (moveTraps platforms dt traps player) = length traps.
Proof. unfold moveTraps. by rewrite length_fmap. Qed.

(** [update] changes the triggers, the dormant flags and the timers
    through its trigger loop only. *)
Lemma update_triggers i now keys dt g g' :
  state g = play -> update now keys dt g = Some g' ->
  let r := triggerDetection now (player g) (LevelData.triggers (currentLevelData g))
             (LevelData.traps (currentLevelData g), timers g) in
  state g' = play
  /\ LevelData.triggers (currentLevelData g') = r.1
  /\ timers g' = r.2.2
  /\ dormantAt i (LevelData.traps (currentLevelData g')) = dormantAt i r.2.1
  /\ length (LevelData.traps (currentLevelData g')) = length r.2.1
  /\ lastTimestamp g' = lastTimestamp g.
Proof.
  intros Hs. unfold update. rewrite Hs.
  rewrite (bool_decide_eq_false_2 (play <> play)) by (by intros []).
  destruct (triggerDetection _ _ _ _) as [trs [traps tms]].
  destruct (movePlatforms _ _ _ _) as [platforms player1].
  destruct (Player.update _ _ _ _ _ _ _) as [player2|]; simpl; [|done].
  intros [= <-]. simpl.
  by rewrite moveTraps_dormantAt, moveTraps_length.
Qed.

(** The host's timers: the callbacks that are due wake their traps. *)
Lemma runTimers_state l : forall g,
  state (fold_left runTimer l g) = state g
  /\ LevelData.triggers (currentLevelData (fold_left runTimer l g))
     = LevelData.triggers (currentLevelData g)
  /\ player (fold_left runTimer l g) = player g
  /\ lastTimestamp (fold_left runTimer l g) = lastTimestamp g
  /\ timers (fold_left runTimer l g) = timers g
  /\ length (LevelData.traps (currentLevelData (fold_left runTimer l g)))
     = length (LevelData.traps (currentLevelData g)).
Proof.
  induction l as [|tm l IH]; intros g; simpl; [done|].
  destruct (IH (runTimer g tm)) as (-> & -> & -> & -> & -> & ->).
  unfold runTimer. case_bool_decide; simpl; by rewrite ?length_alter.
Qed.

Lemma runTimers_dormantAt i l : forall g,
  state g = play ->
  let traps := LevelData.traps (currentLevelData g) in
  let traps' := LevelData.traps (currentLevelData (fold_left runTimer l g)) in
  ((forall tm, tm ∈ l -> Timer.trapIndex tm <> i) -> dormantAt i traps' = dormantAt i traps)
  /\ ((exists tm, tm ∈ l /\ Timer.trapIndex tm = i) -> (i < length traps)%nat ->
      dormantAt i traps' = Some false)
  /\ (dormantAt i traps = Some false -> dormantAt i traps' = Some false).
Proof.
  induction l as [|tm l IH]; intros g Hs; simpl.
  { split; [done|]. split; [|done]. by intros (? & Hin%elem_of_nil & _). }
  assert (Hs' : state (runTimer g tm) = play).
  { unfold runTimer. by case_bool_decide. }
  assert (Htr : LevelData.traps (currentLevelData (runTimer g tm))
                = alter (ObjSet.set_dormant false) (Timer.trapIndex tm)
                        (LevelData.traps (currentLevelData g))).
  { unfold runTimer. by rewrite bool_decide_eq_true_2. }
  destruct (IH (runTimer g tm) Hs') as (Hkeep & Hwake & Hstay).
  rewrite Htr in Hkeep, Hwake, Hstay. rewrite length_alter in Hwake.
  assert (Hfalse : dormantAt i (LevelData.traps (currentLevelData g)) = Some false ->
            dormantAt i (alter (ObjSet.set_dormant false) (Timer.trapIndex tm)
                               (LevelData.traps (currentLevelData g))) = Some false).
  { intros Hf. destruct (decide (Timer.trapIndex tm = i)) as [->|Hne].
    - apply dormantAt_wake. unfold dormantAt in Hf.
      apply lookup_lt_is_Some. destruct (_ !! i); [done|discriminate].
    - by rewrite dormantAt_alter_ne. }
  split; [|split].
  - intros Hne. rewrite Hkeep.
    + apply dormantAt_alter_ne, Hne, list_elem_of_here.
    + intros tm' Hin. by apply Hne, list_elem_of_further.
  - intros (tm' & Hin & Hi) Hlt. apply elem_of_cons in Hin as [->|Hin].
    + apply Hstay. rewrite Hi. by apply dormantAt_wake.
    + apply Hwake; [by exists tm'|done].
  - intros Hf. by apply Hstay, Hfalse.
Qed.

Lemma fireTimers_spec i t g :
  state g = play ->
  let g' := fireTimers t g in
  let traps := LevelData.traps (currentLevelData g) in
  let traps' := LevelData.traps (currentLevelData g') in
  state g' = play
  /\ LevelData.triggers (currentLevelData g') = LevelData.triggers (currentLevelData g)
  /\ player g' = player g
  /\ lastTimestamp g' = lastTimestamp g
  /\ length traps' = length traps
  /\ (forall tm, tm ∈ timers g' <-> tm ∈ timers g /\ ~ Timer.due tm <= t)
  /\ ((forall tm, tm ∈ timers g -> Timer.trapIndex tm = i -> ~ Timer.due tm <= t) ->
      dormantAt i traps' = dormantAt i traps)
  /\ ((exists tm, tm ∈ timers g /\ Timer.trapIndex tm = i /\ Timer.due tm <= t) ->
      (i < length traps)%nat -> dormantAt i traps' = Some false)
  /\ (dormantAt i traps = Some false -> dormantAt i traps' = Some false).
Proof.
  intros Hs g' traps traps'. subst g' traps traps'. unfold fireTimers.
  set (due := filter _ (timers g)). set (g0 := mk _ _ _ _ _).
  destruct (runTimers_state due g0) as (-> & -> & -> & -> & -> & ->).
  destruct (runTimers_dormantAt i due g0 Hs) as (Hkeep & Hwake & Hstay).
  simpl in *. do 5 (split; [done|]). split; [|split; [|split]].
  - intros tm. rewrite list_elem_of_filter. tauto.
  - intros Hnone. apply Hkeep. intros tm Hin Hi.
    apply list_elem_of_filter in Hin as [Hdue Hin]. by apply (Hnone tm).
  - intros (tm & Hin & Hi & Hdue). apply Hwake. exists tm.
    split; [by apply list_elem_of_filter|done].
  - done.
Qed.
End FrameFacts.

(** *** A delayed binding, from level load on *)

Section DelayedBinding.
Import Game.

(** The body is outside the zone of [tr] when each of these frames starts. *)
Fixpoint outside (tr : Trigger.t) (frames : list (R * Keys)) (g : Game.t) : Prop :=
  match frames with
  | [] => True
  | f :: rest =>
      playerInTrigger (player g) tr = false
      /\ forall g', frame g f = Some g' -> outside tr rest g'
  end.

(** The host's clock does not run backwards: each frame's timestamp is at
    least the one before it, starting from [c]. *)
Fixpoint clockwise (c : R) (frames : list (R * Keys)) : Prop :=
  match frames with
  | [] => True
  | f :: rest => c <= f.1 /\ clockwise f.1 rest
  end.

(** The game right after [loadLevel] has reset the dormancy of [ld], in
    play and with no callback pending. *)
Definition loaded (ld : LevelData.t) (g : Game.t) : Prop :=
  state g = play /\ currentLevelData g = initDormancy ld /\ timers g = [].

Variables (ld : LevelData.t) (i : nat) (d : R) (tr : Trigger.t).
Hypothesis d_pos : d > 0.
Hypothesis i_trap : (i < length (LevelData.traps ld))%nat.
Hypothesis tr_trigger : tr ∈ LevelData.triggers ld.
Hypothesis tr_binds : exists b, b ∈ Trigger.bindings tr /\ Binding.trapIndex b = i.
Hypothesis only_tr : wired i d tr (LevelData.triggers ld).

(** [loadLevel] puts trap [i] to sleep. *)
Lemma bindDormant_fold bs : forall traps,
  let traps' := fold_left bindDormant bs traps in
  length traps' = length traps
  /\ (dormantAt i traps = Some true -> dormantAt i traps' = Some true)
  /\ ((exists b, b ∈ bs /\ Binding.trapIndex b = i) -> (i < length traps)%nat ->
      dormantAt i traps' = Some true).
Proof.
  induction bs as [|b bs IH]; intros traps; simpl.
  { split; [done|]. split; [done|]. by intros (? & Hin%elem_of_nil & _). }
  destruct (IH (bindDormant traps b)) as (Hl & Hkeep & Hset).
  unfold bindDormant in *. rewrite length_alter in *.
  assert (Htrue : dormantAt i traps = Some true ->
            dormantAt i (alter (ObjSet.set_dormant true) (Binding.trapIndex b) traps)
            = Some true).
  { intros Ht. destruct (decide (Binding.trapIndex b = i)) as [->|Hne].
    - unfold dormantAt in *. rewrite list_lookup_alter_eq.
      by destruct (traps !! i).
    - by rewrite dormantAt_alter_ne. }
  split; [done|]. split; [by intros ?; apply Hkeep, Htrue|].
  intros (b' & Hin & Hb') Hlt. apply elem_of_cons in Hin as [->|Hin].
  - apply Hkeep. rewrite Hb'. unfold dormantAt. rewrite list_lookup_alter_eq.
    by destruct (lookup_lt_is_Some_2 traps i Hlt) as [o ->].
  - apply Hset; [by exists b'|done].
Qed.

Lemma bindAll_keeps trs : forall traps,
  let traps' :=
    fold_left (fun traps t => fold_left bindDormant (Trigger.bindings t) traps)
              trs traps in
  length traps' = length traps
  /\ (dormantAt i traps = Some true -> dormantAt i traps' = Some true).
Proof.
  induction trs as [|t trs IH]; intros traps; simpl; [done|].
  destruct (bindDormant_fold (Trigger.bindings t) traps) as (Hl & Hkeep & _).
  destruct (IH (fold_left bindDormant (Trigger.bindings t) traps)) as (Hl' & Hkeep').
  split; [congruence|]. intros ?. by apply Hkeep', Hkeep.
Qed.

Lemma bindAll_sleeps trs : forall traps,
  (i < length traps)%nat ->
  (exists t b, t ∈ trs /\ b ∈ Trigger.bindings t /\ Binding.trapIndex b = i) ->
  dormantAt i
    (fold_left (fun traps t => fold_left bindDormant (Trigger.bindings t) traps)
               trs traps) = Some true.
Proof.
  induction trs as [|t trs IH]; intros traps Hlt (t' & b & Hin & Hb & Hi).
  { by apply elem_of_nil in Hin. }
  simpl. destruct (bindDormant_fold (Trigger.bindings t) traps) as (Hl & _ & Hset).
  apply elem_of_cons in Hin as [->|Hin].
  - apply bindAll_keeps, Hset; [by exists b|done].
  - apply IH; [lia|by exists t', b].
Qed.

Lemma initDormancy_sleeps :
  dormantAt i (LevelData.traps (initDormancy ld)) = Some true
  /\ length (LevelData.traps (initDormancy ld)) = length (LevelData.traps ld).
Proof.
  unfold initDormancy. simpl. destruct tr_binds as (b & Hb & Hi). split.
  - apply bindAll_sleeps; [by rewrite length_fmap|by exists tr, b].
  - destruct (bindAll_keeps (LevelData.triggers ld)
                (ObjSet.set_dormant false <$> LevelData.traps ld)) as (-> & _).
    apply length_fmap.
Qed.

(** One frame, seen from trap [i]: the callbacks that are due run, then the
    triggers are tested against the body as the frame finds it. *)
Lemma frame_spec f g g' :
  state g = play -> wired i d tr (LevelData.triggers (currentLevelData g)) ->
  frame g f = Some g' ->
  let g1 := fireTimers f.1 g in
  state g' = play
  /\ zone <$> LevelData.triggers (currentLevelData g')
     = zone <$> LevelData.triggers (currentLevelData g)
  /\ length (LevelData.traps (currentLevelData g'))
     = length (LevelData.traps (currentLevelData g))
  /\ lastTimestamp g' = f.1
  /\ dormantAt i (LevelData.traps (currentLevelData g'))
     = dormantAt i (LevelData.traps (currentLevelData g1))
  /\ (forall tr'', tr'' ∈ LevelData.triggers (currentLevelData g') ->
        Trigger.triggered tr'' = true ->
        playerInTrigger (player g) tr'' = true
        \/ exists tr', tr' ∈ LevelData.triggers (currentLevelData g)
                       /\ zone tr' = zone tr'' /\ Trigger.triggered tr' = true)
  /\ exists new : list Timer.t,
      (forall tm, tm ∈ timers g' <->
                  (tm ∈ timers g /\ ~ Timer.due tm <= f.1) \/ tm ∈ new)
      /\ (forall tm, tm ∈ new -> Timer.trapIndex tm = i ->
            Timer.due tm = f.1 + d * 1000 /\ playerInTrigger (player g) tr = true)
      /\ ((exists tr' b, tr' ∈ LevelData.triggers (currentLevelData g)
                         /\ fires (player g) tr' = true
                         /\ b ∈ Trigger.bindings tr' /\ Binding.trapIndex b = i) ->
          (i < length (LevelData.traps (currentLevelData g)))%nat ->
          exists tm, tm ∈ new /\ Timer.trapIndex tm = i
                     /\ Timer.due tm = f.1 + d * 1000).
Proof.
  intros Hs Hw Hf g1.
  destruct (fireTimers_spec i f.1 g Hs)
    as (Hs1 & Htrs1 & Hp1 & Hc1 & Hl1 & Htm1 & _).
  fold g1 in Hs1, Htrs1, Hp1, Hc1, Hl1, Htm1.
  unfold frame, loop in Hf. fold g1 in Hf.
  apply (update_triggers i) in Hf; [|done]. simpl in Hf.
  rewrite Htrs1, Hp1 in Hf.
  destruct (triggerDetection_wired i d tr d_pos f.1 (player g)
              (LevelData.triggers (currentLevelData g))
              (LevelData.traps (currentLevelData g1)) (timers g1) Hw)
    as (Hz & Hl & Hd & Horigin & new & Hnew & Hfrom & Hto).
  destruct Hf as (Hs' & -> & Ht' & -> & -> & ->).
  split; [done|]. split; [exact Hz|]. split; [by rewrite Hl|].
  split; [done|]. split; [exact Hd|]. split; [exact Horigin|].
  exists new. split; [|split; [done|]].
  - intros tm. rewrite Ht', Hnew, elem_of_app, Htm1. tauto.
  - intros Hex Hlt. apply Hto; [done|]. by rewrite Hl1.
Qed.

(** Before the body has entered the zone: trap [i] sleeps, no callback for
    it is pending, and the triggers wired to it are armed. *)
Definition asleep (g : Game.t) : Prop :=
  state g = play
  /\ zone <$> LevelData.triggers (currentLevelData g) = zone <$> LevelData.triggers ld
  /\ length (LevelData.traps (currentLevelData g)) = length (LevelData.traps ld)
  /\ dormantAt i (LevelData.traps (currentLevelData g)) = Some true
  /\ (forall tm, tm ∈ timers g -> Timer.trapIndex tm <> i)
  /\ (forall tr', tr' ∈ LevelData.triggers (currentLevelData g) ->
        zone tr' = zone tr -> Trigger.triggered tr' = false).

(** After the frame at [t0] has seen the body in the zone: either trap [i]
    still sleeps and the callback due at [t0 + d * 1000] is pending, or that
    time has passed and the trap is awake.  No callback for [i] is due
    earlier. *)
Definition counting (t0 : R) (g : Game.t) : Prop :=
  state g = play
  /\ zone <$> LevelData.triggers (currentLevelData g) = zone <$> LevelData.triggers ld
  /\ length (LevelData.traps (currentLevelData g)) = length (LevelData.traps ld)
  /\ t0 <= lastTimestamp g
  /\ (forall tm, tm ∈ timers g -> Timer.trapIndex tm = i ->
        t0 + d * 1000 <= Timer.due tm)
  /\ ((dormantAt i (LevelData.traps (currentLevelData g)) = Some true
       /\ exists tm, tm ∈ timers g /\ Timer.trapIndex tm = i
                     /\ Timer.due tm = t0 + d * 1000)
      \/ (dormantAt i (LevelData.traps (currentLevelData g)) = Some false
          /\ t0 + d * 1000 <= lastTimestamp g)).

Lemma zone_idem t : zone (zone t) = zone t.
Proof. done. Qed.

Lemma loaded_asleep g : loaded ld g -> asleep g.
Proof.
  intros (Hs & Hc & Ht). destruct initDormancy_sleeps as (Hd & Hl).
  unfold asleep. rewrite Hc. split; [done|]. split.
  { unfold initDormancy. simpl. rewrite <- list_fmap_compose.
    apply list_fmap_ext. by intros ? ? _. }
  split; [done|]. split; [done|]. split.
  { intros tm. rewrite Ht. by intros ?%elem_of_nil. }
  unfold initDormancy. simpl. by intros tr' (t & -> & _)%list_elem_of_fmap _.
Qed.

Lemma asleep_frame f g g' :
  asleep g -> playerInTrigger (player g) tr = false -> frame g f = Some g' ->
  asleep g'.
Proof.
  intros (Hs & Hz & Hl & Hd & Hnone & Harmed) Hout Hf.
  assert (Hw : wired i d tr (LevelData.triggers (currentLevelData g))).
  { by apply (wired_zones i d tr _ _ Hz). }
  destruct (frame_spec f g g' Hs Hw Hf)
    as (Hs' & Hz' & Hl' & _ & Hd' & Horigin & new & Htm & Hfrom & _).
  destruct (fireTimers_spec i f.1 g Hs) as (_ & _ & _ & _ & _ & _ & Hkeep & _).
  split; [done|]. split; [congruence|]. split; [congruence|]. split.
  { rewrite Hd', Hkeep; [done|]. intros tm Hin Hi. by destruct (Hnone tm Hin). }
  split.
  - intros tm [[Hin _]|Hin]%Htm Hi; [by apply (Hnone tm)|].
    destruct (Hfrom tm Hin Hi) as [_ Hp]. congruence.
  - intros tr'' Hin Hzone. destruct (Trigger.triggered tr'') eqn:Htrig; [|done].
    destruct (Horigin tr'' Hin Htrig) as [Hp|(tr' & Hin' & Hz'' & Ht)].
    + rewrite <- playerInTrigger_zone, Hzone, playerInTrigger_zone in Hp. congruence.
    + rewrite (Harmed tr' Hin') in Ht; [done|congruence].
Qed.

Lemma asleep_run pre : forall g g',
  asleep g -> outside tr pre g -> run pre g = Some g' -> asleep g'.
Proof.
  induction pre as [|f pre IH]; intros g g' Hg Hout Hrun; simpl in *.
  { by injection Hrun as <-. }
  destruct (frame g f) as [g1|] eqn:Hf; simpl in Hrun; [|done].
  destruct Hout as [Hp Hrest].
  apply (IH g1); [by apply (asleep_frame f g)|by apply Hrest|done].
Qed.

Lemma entry_frame f g g' :
  asleep g -> playerInTrigger (player g) tr = true -> frame g f = Some g' ->
  counting f.1 g' /\ lastTimestamp g' = f.1.
Proof.
  intros (Hs & Hz & Hl & Hd & Hnone & Harmed) Hin Hf.
  assert (Hw : wired i d tr (LevelData.triggers (currentLevelData g))).
  { by apply (wired_zones i d tr _ _ Hz). }
  destruct (frame_spec f g g' Hs Hw Hf)
    as (Hs' & Hz' & Hl' & Hc' & Hd' & _ & new & Htm & Hfrom & Hto).
  destruct (fireTimers_spec i f.1 g Hs) as (_ & _ & _ & _ & _ & _ & Hkeep & _).
  split; [|done].
  split; [done|]. split; [congruence|]. split; [congruence|].
  split; [rewrite Hc'; lra|]. split.
  { intros tm [[Hold _]|Hnew]%Htm Hi; [by destruct (Hnone tm Hold)|].
    destruct (Hfrom tm Hnew Hi) as [-> _]. lra. }
  left. split.
  { rewrite Hd', Hkeep; [done|]. intros tm Hold Hi. by destruct (Hnone tm Hold). }
  destruct Hto as (tm & Hnew & Hi & Hdue).
  - assert (Hin' : zone tr ∈ zone <$> LevelData.triggers (currentLevelData g)).
    { rewrite Hz. by apply list_elem_of_fmap_2. }
    apply list_elem_of_fmap in Hin' as (tr' & Hzone & Htr').
    destruct tr_binds as (b & Hb & Hi).
    exists tr', b. split; [done|]. split; [|split; [|done]].
    + unfold fires. rewrite (Harmed tr' Htr') by done. simpl.
      by rewrite <- playerInTrigger_zone, <- Hzone, playerInTrigger_zone.
    + by rewrite <- bindings_zone, <- Hzone, bindings_zone.
  - by rewrite Hl.
  - exists tm. split; [apply Htm; by right|done].
Qed.

(** What the callbacks that are due at [t] do to a game that is counting. *)
Lemma counting_fireTimers t0 t g :
  counting t0 g -> lastTimestamp g <= t ->
  dormantAt i (LevelData.traps (currentLevelData (fireTimers t g)))
  = Some (bool_decide (t < t0 + d * 1000))
  /\ (t < t0 + d * 1000 ->
      exists tm, tm ∈ timers g /\ Timer.trapIndex tm = i
                 /\ Timer.due tm = t0 + d * 1000).
Proof.
  intros (Hs & Hz & Hl & Ht0 & Hlate & Hcase) Ht.
  destruct (fireTimers_spec i t g Hs)
    as (_ & _ & _ & _ & _ & _ & Hkeep & Hwake & Hstay).
  case_bool_decide as Hlt.
  - destruct Hcase as [[Hd Hex]|[_ Hpast]]; [|lra]. split; [|done].
    rewrite Hkeep; [done|]. intros tm Hin Hi. specialize (Hlate tm Hin Hi). lra.
  - split; [|intros; lra]. destruct Hcase as [[_ (tm & Hin & Hi & Hdue)]|[Hd _]].
    + apply Hwake; [|by rewrite Hl]. exists tm. split; [done|]. split; [done|]. lra.
    + by apply Hstay.
Qed.

Lemma counting_frame t0 f g g' :
  counting t0 g -> lastTimestamp g <= f.1 -> frame g f = Some g' ->
  counting t0 g' /\ lastTimestamp g' = f.1.
Proof.
  intros Hg Hc Hf. destruct (counting_fireTimers t0 f.1 g Hg Hc) as [Hd Hpending].
  destruct Hg as (Hs & Hz & Hl & Ht0 & Hlate & _).
  assert (Hw : wired i d tr (LevelData.triggers (currentLevelData g))).
  { by apply (wired_zones i d tr _ _ Hz). }
  destruct (frame_spec f g g' Hs Hw Hf)
    as (Hs' & Hz' & Hl' & Hc' & Hd' & _ & new & Htm & Hfrom & _).
  split; [|done].
  split; [done|]. split; [congruence|]. split; [congruence|].
  split; [rewrite Hc'; lra|]. split.
  { intros tm [[Hold _]|Hnew]%Htm Hi; [by apply Hlate|].
    destruct (Hfrom tm Hnew Hi) as [-> _]. lra. }
  rewrite Hd', Hd, Hc'. case_bool_decide as Hlt.
  - left. split; [done|]. destruct (Hpending Hlt) as (tm & Hin & Hi & Hdue).
    exists tm. split; [|done]. apply Htm. left. split; [done|]. lra.
  - right. split; [done|]. lra.
Qed.

Lemma counting_run t0 post : forall g g',
  counting t0 g -> clockwise (lastTimestamp g) post ->
  run post g = Some g' ->
  counting t0 g' /\ forall t, Forall (fun f => f.1 <= t) post ->
                              lastTimestamp g <= t -> lastTimestamp g' <= t.
Proof.
  induction post as [|f post IH]; intros g g' Hg Hsorted Hrun; simpl in *.
  { by injection Hrun as <-. }
  destruct (frame g f) as [g1|] eqn:Hf; simpl in Hrun; [|done].
  destruct Hsorted as [Hle Hrest].
  destruct (counting_frame t0 f g g1 Hg Hle Hf) as [Hg1 Hc1].
  destruct (IH g1 g') as [Hg' Hlast]; [done|by rewrite Hc1|done|].
  split; [done|]. intros t [Hf1 Hpost]%Forall_cons _.
  apply Hlast; [done|]. by rewrite Hc1.
Qed.

(** C3.  Trap [i] is bound only through the zone of [tr], with the delay
    [d > 0] (in seconds), and the level has just been loaded.  The body is
    outside the zone during the frames [pre] and inside it when the frame
    [f0] starts; the frames [post] follow, whatever the body does in them.
    At every host time [t] from [f0] on, once the callbacks that are due at
    [t] have run, trap [i] is dormant exactly if [t] is earlier than
    [d * 1000] milliseconds after [f0]. *)
Theorem delayed_trap_wakes_on_time pre f0 post t g0 g1 g3 :
  loaded ld g0 ->
  outside tr pre g0 -> run pre g0 = Some g1 ->
  playerInTrigger (player g1) tr = true ->
  run (f0 :: post) g1 = Some g3 ->
  clockwise f0.1 post ->
  Forall (fun f => f.1 <= t) (f0 :: post) ->
  dormantAt i (LevelData.traps (currentLevelData (fireTimers t g3)))
  = Some (bool_decide (t < f0.1 + d * 1000)).
Proof.
  intros Hload Hout Hpre Hin Hrun Hclock Hbefore.
  assert (Hg1 : asleep g1).
  { apply (asleep_run pre g0); [by apply loaded_asleep|done|done]. }
  simpl in Hrun. destruct (frame g1 f0) as [g2|] eqn:Hf0; simpl in Hrun; [|done].
  destruct (entry_frame f0 g1 g2 Hg1 Hin Hf0) as [Hg2 Hc2].
  apply Forall_cons in Hbefore as [Hf0t Hpost].
  destruct (counting_run f0.1 post g2 g3 Hg2) as [Hg3 Hlast]; [by rewrite Hc2|done|].
  apply counting_fireTimers; [done|]. apply Hlast; [done|]. by rewrite Hc2.
Qed.
End DelayedBinding.

Section DelayedExamples.
Import Game.

(** With a spawn point the body's update always has a result, and so has
    the frame. *)
Lemma update_spawned keys jumppads s platforms levelSettings dt p :
  is_Some (Player.update keys jumppads (Some s) platforms levelSettings dt p).
Proof.
  unfold Player.update, Player.fallDamageLogic.
  generalize (Player.integrate keys jumppads platforms levelSettings dt p).
  intros q. destruct (_ >? _); [|done]. by destruct (_ >? _).
Qed.

Lemma frame_spawned now keys dt g s :
  LevelData.spawn (currentLevelData g) = Some s -> is_Some (update now keys dt g).
Proof.
  intros Hs. unfold update. destruct (bool_decide (state g <> play)); [done|].
  destruct (triggerDetection _ _ _ _) as [trs [traps tms]].
  destruct (movePlatforms _ _ _ _) as [platforms player1]. rewrite Hs.
  by destruct (update_spawned keys (LevelData.jumppads (currentLevelData g)) s
                 platforms (LevelData.settings (currentLevelData g)) dt player1)
    as [p' ->].
Qed.

(** A spike that sleeps until two seconds after the body is found in the
    zone around the spawn point. *)
Definition sleeper : Obj.t :=
  Obj.mk "spikes" 400 300 20 20 (Some 0%Z) (Some 1) (Some 20) false
         None None None None None None None None None None None None.

Definition tripwire : Trigger.t :=
  Trigger.mk 50 50 200 200 true false [Binding.mk 0 2].

Definition ambush : LevelData.t :=
  LevelData.mk smallWorld [rect 0 500 800 50] [sleeper] [] [tripwire]
               (Some (Point.mk 100 100)).

Definition ambushStart : Game.t :=
  Game.mk play (initDormancy ambush) Player.reset 0 [].

Lemma delayed_trap_wakes_on_time_witness :
  exists g,
    run [(16, noKeys)] ambushStart = Some g
    /\ dormantAt 0 (LevelData.traps (currentLevelData (fireTimers 2015 g))) = Some true
    /\ dormantAt 0 (LevelData.traps (currentLevelData (fireTimers 2016 g))) = Some false.
Proof.
  destruct (frame_spawned 16 noKeys ((16 - 0) / 1000)
              (Game.mk play (initDormancy ambush) Player.reset 16 [])
              (Point.mk 100 100) eq_refl) as [g Hg].
  assert (Hrun : run [(16, noKeys)] ambushStart = Some g).
  { change (update 16 noKeys ((16 - 0) / 1000)
              (Game.mk play (initDormancy ambush) Player.reset 16 []) ≫= Some
            = Some g).
    by rewrite Hg. }
  assert (Hwired : wired 0 2 tripwire (LevelData.triggers ambush)).
  { intros tr' b ->%list_elem_of_singleton ->%list_elem_of_singleton _. done. }
  assert (Hin : playerInTrigger (player ambushStart) tripwire = true).
  { unfold playerInTrigger. simpl.
    rewrite !bool_decide_eq_true_2 by lra. done. }
  assert (Hat : forall t, 16 <= t ->
            dormantAt 0 (LevelData.traps (currentLevelData (fireTimers t g)))
            = Some (bool_decide (t < 16 + 2 * 1000))).
  { intros t Ht.
    apply (delayed_trap_wakes_on_time ambush 0 2 tripwire ltac:(lra)
             ltac:(simpl; lia) ltac:(apply list_elem_of_here)
             ltac:(exists (Binding.mk 0 2); split; [apply list_elem_of_here|done])
             Hwired [] (16, noKeys) [] t ambushStart ambushStart g);
      [done|done|done|done|done|done|].
    apply Forall_cons. split; [simpl; lra|apply Forall_nil_2]. }
  exists g. split; [done|]. split.
  - rewrite Hat by lra. by rewrite bool_decide_eq_true_2 by lra.
  - rewrite Hat by lra. by rewrite bool_decide_eq_false_2 by lra.
Defined.
End DelayedExamples.

(** ** The body: what a call of [update] keeps *)

Section BodyInvariants.
Import Player.

Ltac keeps f := unfold f; intros; repeat case_match; reflexivity.

Lemma fold_keeps {A B} (view : t -> B) (step : t -> A -> t) (l : list A) :
  (forall p a, view (step p a) = view p) ->
  forall p, view (fold_left step l p) = view p.
Proof.
  intros Hstep. induction l as [|a l IH]; intros p; simpl; [done|].
  by rewrite IH, Hstep.
Qed.

(** *** Mana *)

Definition mana (p : t) : R * R := (mp p, maxMp p).

Lemma mana_recordTrail p : mana (recordTrail p) = mana p.
Proof. keeps recordTrail. Qed.

Lemma mana_tickInvulnerable p : mana (tickInvulnerable p) = mana p.
Proof. keeps tickInvulnerable. Qed.

Lemma mana_tickCooldowns dt p : mana (tickCooldowns dt p) = mana p.
Proof. keeps tickCooldowns. Qed.

Lemma mana_horizontalInput keys dt speed p :
  mana (horizontalInput keys dt speed p) = mana p.
Proof. keeps horizontalInput. Qed.

Lemma mana_dashSkill keys p : mana (dashSkill keys p) = mana p.
Proof. keeps dashSkill. Qed.

Lemma mana_jumpLogic keys jf wj p : mana (jumpLogic keys jf wj p) = mana p.
Proof. keeps jumpLogic. Qed.

Lemma mana_applyGravity keys g p : mana (applyGravity keys g p) = mana p.
Proof. keeps applyGravity. Qed.

Lemma mana_jumpPadCollision pads p : mana (jumpPadCollision pads p) = mana p.
Proof. apply (fold_keeps mana). keeps jumpPadStep. Qed.

Lemma mana_moveX platforms ls p : mana (moveX platforms ls p) = mana p.
Proof.
  unfold moveX. rewrite (fold_keeps mana) by (keeps resolveX). keeps advanceX.
Qed.

Lemma mana_moveY platforms p : mana (moveY platforms p) = mana p.
Proof.
  unfold moveY. rewrite (fold_keeps mana) by (keeps resolveY). keeps advanceY.
Qed.

Lemma mana_fallDamageLogic spawn ls p p' :
  fallDamageLogic spawn ls p = Some p' -> mana p' = mana p.
Proof.
  unfold fallDamageLogic, takeDamage, mana.
  repeat case_match; intros [= <-]; reflexivity.
Qed.

(** The regeneration adds [regenRate * dt] and stops at [maxMp]. *)
Lemma mana_regenMp ls dt p :
  0 <= default 0.1 (Settings.mpRegen ls) * dt -> mp p <= maxMp p ->
  let q := regenMp ls dt p in
  maxMp q = maxMp p
  /\ mp p <= mp q <= maxMp p
  /\ mp q <= mp p + default 0.1 (Settings.mpRegen ls) * dt.
Proof.
  intros Hr Hle. unfold regenMp. cbv zeta.
  case_bool_decide; fields; [|lra]. case_bool_decide; fields; lra.
Qed.

(** Climbing a wall at level 1 costs [dt], and only a body that has that
    much pays it. *)
Lemma mana_wallLogic keys dt speed jf jj p :
  0 <= dt -> 0 <= mp p ->
  let q := (wallLogic keys dt speed jf jj p).1 in
  maxMp q = maxMp p /\ 0 <= mp q /\ mp p - dt <= mp q <= mp p.
Proof.
  intros Hdt Hmp. unfold wallLogic, consumeMp. cbv zeta. fields.
  repeat (case_match; fields); try lra.
  all: case_bool_decide; lra.
Qed.

(** X1.  One call of [update] with [dt >= 0] and a regeneration rate that
    is not negative keeps the mana of the body between 0 and [maxMp], which
    it does not change; the call takes at most [dt] off the mana (the wall
    climb) and adds at most [regenRate * dt]. *)
Theorem mana_stays_in_range (keys : Keys) (jumppads : list JumpPad.t)
    (spawn : option Point.t) (platforms : list Obj.t) (ls : Settings.t) (dt : R)
    (p p' : Player.t) :
  0 <= dt -> 0 <= default 0.1 (Settings.mpRegen ls) ->
  0 <= mp p <= maxMp p ->
  update keys jumppads spawn platforms ls dt p = Some p' ->
  maxMp p' = maxMp p
  /\ 0 <= mp p' <= maxMp p
  /\ mp p - dt <= mp p' <= mp p + default 0.1 (Settings.mpRegen ls) * dt.
Proof.
  intros Hdt Hrate Hmp Hup. unfold update in Hup.
  apply mana_fallDamageLogic in Hup. revert Hup. unfold integrate.
  set (p2 := tickCooldowns dt (tickInvulnerable (recordTrail p))).
  assert (H2 : mana p2 = mana p).
  { unfold p2. by rewrite mana_tickCooldowns, mana_tickInvulnerable, mana_recordTrail. }
  set (p5 := dashSkill keys (horizontalInput keys dt (speedOf p2) (regenMp ls dt p2))).
  assert (H5 : mana p5 = mana (regenMp ls dt p2)).
  { unfold p5. by rewrite mana_dashSkill, mana_horizontalInput. }
  pose proof (mana_wallLogic keys dt (speedOf p2) defaultSettings.jumpForce
                (jumpInput keys && negb (jumpLocked p5)) p5 Hdt) as Hw.
  destruct (wallLogic _ _ _ _ _ _) as [p6 w]. cbn [fst] in Hw.
  rewrite mana_moveY, mana_moveX, mana_jumpPadCollision, mana_applyGravity,
    mana_jumpLogic.
  unfold mana in *. injection H2 as H2 H2'. injection H5 as H5 H5'.
  intros [= -> ->].
  assert (Hr : 0 <= default 0.1 (Settings.mpRegen ls) * dt) by nra.
  destruct (mana_regenMp ls dt p2 Hr ltac:(lra)) as (Hr1 & Hr2 & Hr3).
  destruct Hw as (Hw1 & Hw2 & Hw3); [lra|]. lra.
Qed.

(** *** The ghost trail *)

Lemma trail_tickInvulnerable p : trail (tickInvulnerable p) = trail p.
Proof. keeps tickInvulnerable. Qed.

Lemma trail_tickCooldowns dt p : trail (tickCooldowns dt p) = trail p.
Proof. keeps tickCooldowns. Qed.

Lemma trail_regenMp ls dt p : trail (regenMp ls dt p) = trail p.
Proof. keeps regenMp. Qed.

Lemma trail_horizontalInput keys dt speed p :
  trail (horizontalInput keys dt speed p) = trail p.
Proof. keeps horizontalInput. Qed.

Lemma trail_dashSkill keys p : trail (dashSkill keys p) = trail p.
Proof. keeps dashSkill. Qed.

Lemma trail_wallLogic keys dt speed jf jj p :
  trail (wallLogic keys dt speed jf jj p).1 = trail p.
Proof. unfold wallLogic, consumeMp. repeat case_match; reflexivity. Qed.

Lemma trail_jumpLogic keys jf wj p : trail (jumpLogic keys jf wj p) = trail p.
Proof. keeps jumpLogic. Qed.

Lemma trail_applyGravity keys g p : trail (applyGravity keys g p) = trail p.
Proof. keeps applyGravity. Qed.

Lemma trail_jumpPadCollision pads p : trail (jumpPadCollision pads p) = trail p.
Proof. apply (fold_keeps trail). keeps jumpPadStep. Qed.

Lemma trail_moveX platforms ls p : trail (moveX platforms ls p) = trail p.
Proof.
  unfold moveX. rewrite (fold_keeps trail) by (keeps resolveX). keeps advanceX.
Qed.

Lemma trail_moveY platforms p : trail (moveY platforms p) = trail p.
Proof.
  unfold moveY. rewrite (fold_keeps trail) by (keeps resolveY). keeps advanceY.
Qed.

Lemma trail_integrate keys pads platforms ls dt p :
  trail (integrate keys pads platforms ls dt p) = trail (recordTrail p).
Proof.
  unfold integrate.
  destruct (wallLogic _ _ _ _ _ _) as [q w] eqn:Hw.
  rewrite trail_moveY, trail_moveX, trail_jumpPadCollision, trail_applyGravity,
    trail_jumpLogic.
  change q with (q, w).1. rewrite <- Hw.
  by rewrite trail_wallLogic, trail_dashSkill, trail_horizontalInput, trail_regenMp,
    trail_tickCooldowns, trail_tickInvulnerable.
Qed.

Lemma trail_fallDamageLogic spawn ls p p' :
  fallDamageLogic spawn ls p = Some p' -> trail p' = [] \/ trail p' = trail p.
Proof.
  unfold fallDamageLogic, takeDamage.
  repeat case_match; intros [= <-]; auto.
Qed.

(** X2.  A call of [update] on a body whose trail holds at most 12
    positions either empties the trail (the respawn after a fall) or puts the
    position and dash flag the body came in with in front of the 11 newest
    old entries: the trail never holds more than 12. *)
Theorem trail_keeps_last_12 (keys : Keys) (jumppads : list JumpPad.t)
    (spawn : option Point.t) (platforms : list Obj.t) (ls : Settings.t) (dt : R)
    (p p' : Player.t) :
  (length (trail p) <= 12)%nat ->
  update keys jumppads spawn platforms ls dt p = Some p' ->
  (trail p' = []
   \/ trail p' = mkTrailPos (x p) (y p) (isDashing p) :: take 11 (trail p))
  /\ (length (trail p') <= 12)%nat.
Proof.
  intros Hlen Hup. unfold update in Hup.
  assert (Hrec : trail (recordTrail p)
                 = mkTrailPos (x p) (y p) (isDashing p) :: take 11 (trail p)).
  { unfold recordTrail. fields. case_bool_decide as Hlong.
    - rewrite removelast_firstn_len. simpl in *.
      assert (length (trail p) = 12%nat) as -> by lia. done.
    - simpl in Hlong. rewrite take_ge by lia. done. }
  apply trail_fallDamageLogic in Hup as [->| ->]; [split; [by left|simpl; lia]|].
  rewrite trail_integrate, Hrec. split; [by right|].
  simpl. rewrite length_take. lia.
Qed.

(** *** Terminal velocity *)

(** The cap of the gravity block: [keys.KeyS ? fastFallSpeed : maxFallSpeed]. *)
Definition maxFallOf (keys : Keys) : R :=
  if KeyS keys then defaultSettings.fastFallSpeed else defaultSettings.maxFallSpeed.

Definition capped (keys : Keys) (p : t) : Prop :=
  isWallClimbing p = false -> vy p <= maxFallOf keys.

Lemma maxFallOf_pos keys : 0 < maxFallOf keys.
Proof.
  unfold maxFallOf, defaultSettings.fastFallSpeed, defaultSettings.maxFallSpeed.
  destruct (KeyS keys); lra.
Qed.

Lemma capped_applyGravity keys g p : capped keys (applyGravity keys g p).
Proof.
  unfold capped, applyGravity, maxFallOf. cbv zeta.
  destruct (isWallClimbing p) eqn:Hc; fields; [by rewrite Hc|].
  intros _. destruct (KeyS keys); case_bool_decide; fields; lra.
Qed.

Lemma capped_fold {A} keys (step : t -> A -> t) (l : list A) :
  (forall p a, capped keys p -> capped keys (step p a)) ->
  forall p, capped keys p -> capped keys (fold_left step l p).
Proof.
  intros Hstep. induction l as [|a l IH]; intros p Hp; simpl; [done|].
  by apply IH, Hstep.
Qed.

Lemma capped_jumpPadStep keys p jp : capped keys p -> capped keys (jumpPadStep p jp).
Proof.
  pose proof (maxFallOf_pos keys). unfold capped, jumpPadStep. cbv zeta.
  destruct (onJumpPad p jp); [|done]. fields. intros _ _.
  case_bool_decide; [lra|]. destruct (JumpPad.jumpForce jp); simpl in *; lra.
Qed.

Lemma capped_resolveX keys p o : capped keys p -> capped keys (resolveX p o).
Proof. unfold capped, resolveX. repeat case_match; fields; done. Qed.

Lemma capped_advanceX keys ls p : capped keys p -> capped keys (advanceX ls p).
Proof. unfold capped, advanceX. cbv zeta. repeat case_match; fields; done. Qed.

Lemma capped_resolveY keys p o : capped keys p -> capped keys (resolveY p o).
Proof.
  pose proof (maxFallOf_pos keys). unfold capped, resolveY.
  repeat case_match; fields; try done; intros; lra.
Qed.

Lemma capped_advanceY keys p : capped keys p -> capped keys (advanceY p).
Proof.
  pose proof (maxFallOf_pos keys). unfold capped, advanceY. cbv zeta.
  repeat case_match; fields; try done; intros; lra.
Qed.

Lemma capped_fallDamageLogic keys spawn ls p p' :
  fallDamageLogic spawn ls p = Some p' -> capped keys p -> capped keys p'.
Proof.
  pose proof (maxFallOf_pos keys). unfold capped, fallDamageLogic, takeDamage.
  repeat case_match; intros [= <-]; fields; try done; intros; lra.
Qed.

(** X3.  Terminal velocity: after a call of [update] the downward speed of
    a body that is not climbing a wall is at most [maxFallSpeed] (9), or
    [fastFallSpeed] (15) while [KeyS] is held, whatever speed it came in
    with. *)
Theorem fall_speed_is_capped (keys : Keys) (jumppads : list JumpPad.t)
    (spawn : option Point.t) (platforms : list Obj.t) (ls : Settings.t) (dt : R)
    (p p' : Player.t) :
  update keys jumppads spawn platforms ls dt p = Some p' ->
  isWallClimbing p' = false ->
  vy p' <= (if KeyS keys then 15 else 9).
Proof.
  intros Hup. apply (capped_fallDamageLogic keys _ _ _ _ Hup).
  unfold integrate. destruct (wallLogic _ _ _ _ _ _) as [q w].
  unfold moveY, moveX, jumpPadCollision.
  apply capped_fold; [apply capped_resolveY|]. apply capped_advanceY.
  apply capped_fold; [apply capped_resolveX|]. apply capped_advanceX.
  apply capped_fold; [apply capped_jumpPadStep|]. apply capped_applyGravity.
Qed.
End BodyInvariants.

(** ** The body's invariants on concrete bodies *)

Section BodyExamples.
Import Player.

Lemma mana_stays_in_range_witness :
  exists p',
    update noKeys [] (Some (Point.mk 100 100)) [] smallWorld (1 / 60) Player.reset
    = Some p'
    /\ 0 <= mp p' <= 100.
Proof.
  destruct (update_spawned noKeys [] (Point.mk 100 100) [] smallWorld (1 / 60)
              Player.reset) as [p' Hp'].
  exists p'. split; [exact Hp'|].
  destruct (mana_stays_in_range noKeys [] (Some (Point.mk 100 100)) [] smallWorld
              (1 / 60) Player.reset p') as (_ & Hrange & _).
  - lra.
  - simpl. lra.
  - evaluate. lra.
  - exact Hp'.
  - revert Hrange. evaluate. lra.
Defined.

Lemma trail_keeps_last_12_witness :
  exists p',
    update noKeys [] (Some (Point.mk 100 100)) [] smallWorld (1 / 60) Player.reset
    = Some p'
    /\ (length (trail p') <= 12)%nat.
Proof.
  destruct (update_spawned noKeys [] (Point.mk 100 100) [] smallWorld (1 / 60)
              Player.reset) as [p' Hp'].
  exists p'. split; [exact Hp'|].
  apply (trail_keeps_last_12 noKeys [] (Some (Point.mk 100 100)) [] smallWorld
           (1 / 60) Player.reset p'); [simpl; lia|exact Hp'].
Defined.

(** A body that comes in falling at 40 leaves the call at the cap. *)
Lemma fall_speed_is_capped_witness :
  exists p',
    update noKeys [] None [] smallWorld (1 / 60) (Player.reset |> set_vy 40) = Some p'
    /\ vy p' <= 9.
Proof.
  assert (H : exists p',
            update noKeys [] None [] smallWorld (1 / 60) (Player.reset |> set_vy 40)
            = Some p' /\ isWallClimbing p' = false).
  { unfold smallWorld. run_update. eexists. split; reflexivity. }
  destruct H as (p' & Hu & Hc). exists p'. split; [exact Hu|].
  exact (fall_speed_is_capped noKeys [] None [] smallWorld (1 / 60) _ p' Hu Hc).
Defined.
End BodyExamples.

(** ** Level load and the trigger loop, for every trap *)

Section DormancyFacts.
Import Game.

(** A list of traps with the dormant flags blanked: what the dormancy
    bookkeeping never changes. *)
Definition awake (traps : list Obj.t) : list Obj.t :=
  ObjSet.set_dormant false <$> traps.

(** Some binding of some trigger of the level names trap [i]. *)
Definition boundTo (i : nat) (ld : LevelData.t) : bool :=
  existsb (fun tr => existsb (fun b => bool_decide (Binding.trapIndex b = i))
                             (Trigger.bindings tr))
          (LevelData.triggers ld).

Lemma awake_alter v k traps : awake (alter (ObjSet.set_dormant v) k traps) = awake traps.
Proof.
  unfold awake. revert k. induction traps as [|o traps IH]; intros [|k]; simpl; try done.
  f_equal. apply IH.
Qed.

Lemma dormantAt_alter v k i traps :
  dormantAt i (alter (ObjSet.set_dormant v) k traps)
  = (fun d => if bool_decide (k = i) then v else d) <$> dormantAt i traps.
Proof.
  unfold dormantAt. destruct (decide (k = i)) as [->|Hne].
  - rewrite list_lookup_alter_eq, bool_decide_eq_true_2 by done.
    by destruct (traps !! i).
  - rewrite list_lookup_alter_ne, bool_decide_eq_false_2 by done.
    by destruct (traps !! i).
Qed.

Lemma bindDormant_fold_spec i bs : forall traps,
  let traps' := fold_left bindDormant bs traps in
  awake traps' = awake traps
  /\ dormantAt i traps'
     = (fun d => d || existsb (fun b => bool_decide (Binding.trapIndex b = i)) bs)
       <$> dormantAt i traps.
Proof.
  induction bs as [|b bs IH]; intros traps; cbn zeta; simpl.
  { split; [done|]. destruct (dormantAt i traps) as [[]|]; reflexivity. }
  destruct (IH (bindDormant traps b)) as [Ha Hd]. unfold bindDormant in *.
  rewrite awake_alter in Ha. split; [done|].
  rewrite Hd, dormantAt_alter. destruct (dormantAt i traps) as [d|]; simpl; [|done].
  f_equal. case_bool_decide; destruct d; reflexivity.
Qed.

Lemma bindAll_spec i trs : forall traps,
  let traps' :=
    fold_left (fun traps tr => fold_left bindDormant (Trigger.bindings tr) traps)
              trs traps in
  awake traps' = awake traps
  /\ dormantAt i traps'
     = (fun d => d || existsb (fun tr => existsb (fun b => bool_decide (Binding.trapIndex b = i))
                                                (Trigger.bindings tr)) trs)
       <$> dormantAt i traps.
Proof.
  induction trs as [|tr trs IH]; intros traps; cbn zeta; simpl.
  { split; [done|]. destruct (dormantAt i traps) as [[]|]; reflexivity. }
  destruct (bindDormant_fold_spec i (Trigger.bindings tr) traps) as [Ha1 Hd1].
  destruct (IH (fold_left bindDormant (Trigger.bindings tr) traps)) as [Ha Hd].
  split; [congruence|]. rewrite Hd, Hd1.
  destruct (dormantAt i traps) as [d|]; simpl; [|done]. by rewrite orb_assoc.
Qed.

(** X4.  What [loadLevel] makes of the dormancy of a level: a trap starts
    dormant exactly if some binding of some trigger names its index, whatever
    flag the level data carried; nothing else of a trap changes; and every
    trigger starts armed. *)
Theorem loadLevel_dormant_iff_bound (ld : LevelData.t) (i : nat) :
  let ld' := initDormancy ld in
  dormantAt i (LevelData.traps ld') = (fun _ => boundTo i ld) <$> LevelData.traps ld !! i
  /\ awake (LevelData.traps ld') = awake (LevelData.traps ld)
  /\ LevelData.triggers ld' = zone <$> LevelData.triggers ld
  /\ forall tr, tr ∈ LevelData.triggers ld' -> Trigger.triggered tr = false.
Proof.
  unfold initDormancy. cbn [LevelData.traps LevelData.triggers].
  destruct (bindAll_spec i (LevelData.triggers ld)
              (ObjSet.set_dormant false <$> LevelData.traps ld)) as [Ha Hd].
  split; [|split; [|split; [done|]]].
  - rewrite Hd. unfold dormantAt, boundTo. rewrite list_lookup_fmap.
    by destruct (LevelData.traps ld !! i).
  - rewrite Ha. unfold awake. rewrite <- list_fmap_compose. by apply list_fmap_ext.
  - by intros tr (t & -> & _)%list_elem_of_fmap.
Qed.
End DormancyFacts.

Section TriggerLoopFacts.
Import Game.

Lemma awake_length traps traps' : awake traps' = awake traps -> length traps' = length traps.
Proof.
  intros H. apply (f_equal length) in H. unfold awake in H.
  by rewrite !length_fmap in H.
Qed.

Lemma dormantAt_wake_stays k i traps :
  dormantAt i traps = Some false ->
  dormantAt i (alter (ObjSet.set_dormant false) k traps) = Some false.
Proof. intros H. rewrite dormantAt_alter, H. simpl. by case_bool_decide. Qed.

Lemma fireBinding_spec now i traps timers b :
  let r := fireBinding now (traps, timers) b in
  awake r.1 = awake traps
  /\ (exists new, r.2 = timers ++ new)
  /\ (dormantAt i traps = Some false -> dormantAt i r.1 = Some false)
  /\ (~ Binding.delay b > 0 -> Binding.trapIndex b = i -> (i < length traps)%nat ->
      dormantAt i r.1 = Some false).
Proof.
  unfold fireBinding. destruct (traps !! Binding.trapIndex b) as [o|] eqn:Hlook.
  - case_bool_decide as Hd; cbn [fst snd].
    + split; [done|]. split; [by eexists|]. split; [done|]. by intros [].
    + rewrite awake_alter. split; [done|]. split; [exists []; by rewrite app_nil_r|].
      split; [apply dormantAt_wake_stays|].
      intros _ -> Hlt. by apply dormantAt_wake.
  - cbn [fst snd]. split; [done|]. split; [exists []; by rewrite app_nil_r|].
    split; [done|]. intros _ Hi Hlt. apply lookup_ge_None in Hlook. lia.
Qed.

Lemma fireBindings_spec now i bs : forall traps timers,
  let r := fold_left (fireBinding now) bs (traps, timers) in
  awake r.1 = awake traps
  /\ (exists new, r.2 = timers ++ new)
  /\ (dormantAt i traps = Some false -> dormantAt i r.1 = Some false)
  /\ ((exists b, b ∈ bs /\ ~ Binding.delay b > 0 /\ Binding.trapIndex b = i) ->
      (i < length traps)%nat -> dormantAt i r.1 = Some false).
Proof.
  induction bs as [|b bs IH]; intros traps timers; cbn zeta; cbn [fold_left fst snd].
  { split; [done|]. split; [exists []; by rewrite app_nil_r|]. split; [done|].
    by intros (? & Hin%elem_of_nil & _). }
  destruct (fireBinding_spec now i traps timers b) as (Ha1 & (new1 & Hn1) & Hs1 & Hw1).
  destruct (fireBinding now (traps, timers) b) as [traps1 timers1].
  cbn [fst snd] in Ha1, Hn1, Hs1, Hw1.
  destruct (IH traps1 timers1) as (Ha & (new & Hn) & Hs & Hw).
  split; [by rewrite Ha|]. split; [exists (new1 ++ new); by rewrite Hn, Hn1, app_assoc|].
  split; [by intros ?; apply Hs, Hs1|].
  intros (b' & Hin & Hd & Hi) Hlt. apply elem_of_cons in Hin as [->|Hin].
  - by apply Hs, Hw1.
  - apply Hw; [by exists b'|]. by rewrite (awake_length _ _ Ha1).
Qed.

(** What the trigger loop does to a trigger. *)
Definition tripped (p : Player.t) (tr : Trigger.t) : Trigger.t :=
  if fires p tr then Trigger.set_triggered true tr else tr.

Lemma detectTrigger_tripped now p tr acc :
  (detectTrigger now p tr acc).1 = tripped p tr
  /\ (detectTrigger now p tr acc).2
     = if fires p tr then fold_left (fireBinding now) (Trigger.bindings tr) acc else acc.
Proof.
  unfold tripped. destruct (fires p tr) eqn:Hf.
  - by rewrite detectTrigger_fires.
  - by rewrite detectTrigger_quiet.
Qed.

Lemma triggerDetection_spec now p i trs : forall traps timers,
  let r := triggerDetection now p trs (traps, timers) in
  r.1 = tripped p <$> trs
  /\ awake r.2.1 = awake traps
  /\ (exists new, r.2.2 = timers ++ new)
  /\ (dormantAt i traps = Some false -> dormantAt i r.2.1 = Some false)
  /\ ((exists tr b, tr ∈ trs /\ fires p tr = true /\ b ∈ Trigger.bindings tr
                    /\ ~ Binding.delay b > 0 /\ Binding.trapIndex b = i) ->
      (i < length traps)%nat -> dormantAt i r.2.1 = Some false).
Proof.
  induction trs as [|tr trs IH]; intros traps timers; cbn zeta;
    cbn [triggerDetection fst snd].
  { split; [done|]. split; [done|]. split; [exists []; by rewrite app_nil_r|].
    split; [done|]. by intros (? & ? & Hin%elem_of_nil & _). }
  destruct (detectTrigger_tripped now p tr (traps, timers)) as [Ht Hacc].
  destruct (detectTrigger now p tr (traps, timers)) as [tr1 [traps1 timers1]].
  cbn [fst snd] in Ht, Hacc. subst tr1.
  assert (H1 : awake traps1 = awake traps
               /\ (exists new, timers1 = timers ++ new)
               /\ (dormantAt i traps = Some false -> dormantAt i traps1 = Some false)
               /\ (fires p tr = true ->
                   (exists b, b ∈ Trigger.bindings tr /\ ~ Binding.delay b > 0
                              /\ Binding.trapIndex b = i) ->
                   (i < length traps)%nat -> dormantAt i traps1 = Some false)).
  { destruct (fires p tr).
    - pose proof (fireBindings_spec now i (Trigger.bindings tr) traps timers) as Hb.
      rewrite <- Hacc in Hb. cbn [fst snd] in Hb.
      destruct Hb as (? & ? & ? & ?). auto.
    - injection Hacc as -> ->. split; [done|].
      split; [exists []; by rewrite app_nil_r|]. done. }
  destruct H1 as (Ha1 & (new1 & Hn1) & Hs1 & Hw1).
  specialize (IH traps1 timers1).
  destruct (triggerDetection now p trs (traps1, timers1)) as [trs2 [traps2 timers2]].
  cbn [fst snd] in IH. destruct IH as (-> & Ha & (new & Hn) & Hs & Hw).
  cbn [fst snd]. split; [done|]. split; [by rewrite Ha|].
  split; [exists (new1 ++ new); by rewrite Hn, Hn1, app_assoc|].
  split; [by intros ?; apply Hs, Hs1|].
  intros (t0 & b & Hin & Hf & Hb & Hd & Hi) Hlt. apply elem_of_cons in Hin as [->|Hin].
  - apply Hs, Hw1; [done|by exists b|done].
  - apply Hw; [by exists t0, b|]. by rewrite (awake_length _ _ Ha1).
Qed.

(** X5.  The footprint of the trigger loop of [update]: it changes nothing
    of a trap but its dormant flag and keeps every trap in its place; it sets
    the [triggered] flag of exactly the triggers that fire (not spent
    one-shots, body inside) and changes nothing else of a trigger; and it
    leaves the callbacks that are pending in place, adding its own behind
    them. *)
Theorem trigger_loop_footprint (now : R) (p : Player.t) (trs : list Trigger.t)
    (traps : list Obj.t) (timers : list Timer.t) :
  let r := triggerDetection now p trs (traps, timers) in
  awake r.2.1 = awake traps
  /\ length r.2.1 = length traps
  /\ r.1 = (fun tr => if fires p tr then Trigger.set_triggered true tr else tr) <$> trs
  /\ exists new, r.2.2 = timers ++ new.
Proof.
  destruct (triggerDetection_spec now p 0 trs traps timers) as (Ht & Ha & Hn & _).
  split; [done|]. split; [by apply awake_length|]. done.
Qed.
End TriggerLoopFacts.

(** ** Frames, for every trap *)

Section FrameInvariants.
Import Game.


Lemma runTimers_paused l : forall g, state g <> play -> fold_left runTimer l g = g.
Proof.
  induction l as [|tm l IH]; intros g Hs; simpl; [done|].
  unfold runTimer at 2. rewrite bool_decide_eq_false_2 by done. by apply IH.
Qed.

Lemma update_paused now keys dt g : state g <> play -> update now keys dt g = Some g.
Proof. intros Hs. unfold update. by rewrite bool_decide_eq_true_2. Qed.

(** X7.  A frame outside play ([edit], [won]) changes nothing but the
    clock: the level data and the body stay as they are, and the callbacks
    that have come due are used up without waking their traps. *)
Theorem frame_outside_play_is_void (g : Game.t) (f : R * Keys) :
  state g <> play ->
  frame g f
  = Some (Game.mk (state g) (currentLevelData g) (player g) f.1
                  (filter (fun tm => ~ Timer.due tm <= f.1) (timers g))).
Proof.
  intros Hs. unfold frame, loop, fireTimers.
  rewrite runTimers_paused by done. cbn [state currentLevelData player timers].
  by rewrite update_paused.
Qed.

End FrameInvariants.

(** ** Trap collisions *)

Section TrapCollisionFacts.
Import Game.

(** A trap that cannot hurt the body where it stands. *)
Definition harmless (platforms : list Obj.t) (p : Player.t) (trap : Obj.t) : Prop :=
  Obj.dormant trap = true \/ trapHit platforms p trap = false.

Lemma trapStep_harmless platforms p trap :
  harmless platforms p trap -> trapStep platforms p trap = p.
Proof. unfold trapStep. intros [-> | ->]; [done|]. by destruct (Obj.dormant trap). Qed.

Lemma trapStep_invulnerable platforms p trap :
  Player.invulnerable p = true -> trapStep platforms p trap = p.
Proof.
  intros Hi. unfold trapStep. destruct (Obj.dormant trap); [done|].
  destruct (trapHit platforms p trap); [|done]. by apply takeDamage_invulnerable.
Qed.

Lemma trapSteps_invulnerable platforms traps : forall p,
  Player.invulnerable p = true -> fold_left (trapStep platforms) traps p = p.
Proof.
  induction traps as [|t traps IH]; intros p Hi; simpl; [done|].
  rewrite trapStep_invulnerable by done. by apply IH.
Qed.

Lemma trapSteps_harmless platforms traps p :
  Forall (harmless platforms p) traps -> fold_left (trapStep platforms) traps p = p.
Proof.
  induction 1 as [|t traps Ht _ IH]; simpl; [done|].
  by rewrite trapStep_harmless.
Qed.

Lemma trapSteps_first_hit platforms pre trap post p :
  Player.invulnerable p = false ->
  Forall (harmless platforms p) pre ->
  Obj.dormant trap = false -> trapHit platforms p trap = true ->
  fold_left (trapStep platforms) (pre ++ trap :: post) p
  = Player.takeDamage (orElse (Obj.damage trap) 20) p.
Proof.
  intros Hv Hpre Hd Hh. rewrite fold_left_app.
  rewrite (trapSteps_harmless platforms pre p) by done. simpl.
  unfold trapStep at 2. rewrite Hd, Hh. apply trapSteps_invulnerable.
  by apply takeDamage_vulnerable.
Qed.



(** X9.  The trap collision block of [update] hurts the body at most once
    in a call.  An invulnerable body is left alone, and so is a body that no
    trap can hurt where it stands (every trap dormant or out of reach).
    Otherwise the first trap of the level's list that is awake and in reach
    deals its damage ([damage], or 20 when that is missing or 0), and the
    traps behind it deal none. *)
Theorem trap_collision_hits_once (platforms traps : list Obj.t) (p : Player.t) :
  (Player.invulnerable p = true -> trapCollision platforms traps p = p)
  /\ (Forall (harmless platforms p) traps -> trapCollision platforms traps p = p)
  /\ (forall pre trap post,
        Player.invulnerable p = false -> traps = pre ++ trap :: post ->
        Forall (harmless platforms p) pre ->
        Obj.dormant trap = false -> trapHit platforms p trap = true ->
        trapCollision platforms traps p
        = Player.takeDamage (orElse (Obj.damage trap) 20) p).
Proof.
  unfold trapCollision. split; [by intros ->|]. split.
  - intros Hall. destruct (negb _); [by apply trapSteps_harmless|done].
  - intros pre trap post Hv -> Hpre Hd Hh. rewrite Hv. simpl.
    by apply trapSteps_first_hit.
Qed.
End TrapCollisionFacts.

(** ** The body's health over a call of [Game.update] *)

Section HealthFacts.
Import Game.






End HealthFacts.

(** ** Frames of concrete games *)

Section FrameExamples.
Import Game.





(** The level of [ambush] open in the editor, with a callback left over
    from play that has come due. *)
Definition editing : Game.t := Game.mk edit ambush Player.reset 0 [Timer.mk 5 0].

Lemma frame_outside_play_is_void_witness :
  frame editing (16, noKeys)
  = Some (Game.mk edit ambush Player.reset 16
                  (filter (fun tm => ~ Timer.due tm <= 16) [Timer.mk 5 0])).
Proof.
  apply (frame_outside_play_is_void editing (16, noKeys)). simpl. discriminate.
Defined.


End FrameExamples.

(** ** What a call of [Game.update] leaves in place *)

Section LayoutFacts.
Import Game.









End LayoutFacts.

Section LayoutExamples.
Import Game.


End LayoutExamples.

(** ** Laser beams in the other directions *)

Section BeamFacts.
Import Game.

(** The loops of [getLaserBounds], for any direction.  [cross p] tells
    whether the platform spans the line of the beam and [face p] is the face
    the beam would stop at.  A beam that runs towards larger coordinates is
    cut back at a face in [[s, e)], one that runs towards smaller coordinates
    at a face in [(e, s]]. *)
Definition clipFwd (cross : Obj.t -> bool) (face : Obj.t -> R) (s e : R) (p : Obj.t) : R :=
  if cross p then if (face p >=? s) && (face p <? e) then face p else e else e.

Definition clipBack (cross : Obj.t -> bool) (face : Obj.t -> R) (s e : R) (p : Obj.t) : R :=
  if cross p then if (face p <=? s) && (face p >? e) then face p else e else e.

(** The platform spans the height [y], or the abscissa [x]. *)
Definition spansY (y : R) (p : Obj.t) : bool :=
  (y >=? Obj.y p) && (y <=? Obj.y p + Obj.height p).

Definition spansX (x : R) (p : Obj.t) : bool :=
  (x >=? Obj.x p) && (x <=? Obj.x p + Obj.width p).

Definition rightFace (p : Obj.t) : R := Obj.x p + Obj.width p.
Definition bottomFace (p : Obj.t) : R := Obj.y p + Obj.height p.

Section Loops.
Variables (cross : Obj.t -> bool) (face : Obj.t -> R) (s : R).

Lemma clipFwd_cases e p :
  (clipFwd cross face s e p = face p /\ cross p = true /\ face p >= s /\ face p < e)
  \/ (clipFwd cross face s e p = e
      /\ ~ (cross p = true /\ face p >= s /\ face p < e)).
Proof.
  unfold clipFwd. destruct (cross p); [|right; split; [done|]; by intros [? _]].
  repeat case_bool_decide; simpl; [left|right..]; tauto.
Qed.

Lemma clipBack_cases e p :
  (clipBack cross face s e p = face p /\ cross p = true /\ face p <= s /\ face p > e)
  \/ (clipBack cross face s e p = e
      /\ ~ (cross p = true /\ face p <= s /\ face p > e)).
Proof.
  unfold clipBack. destruct (cross p); [|right; split; [done|]; by intros [? _]].
  repeat case_bool_decide; simpl; [left|right..]; tauto.
Qed.

Lemma clipFwd_le l : forall e, fold_left (clipFwd cross face s) l e <= e.
Proof.
  induction l as [|p l IH]; intros e; simpl; [lra|].
  specialize (IH (clipFwd cross face s e p)).
  destruct (clipFwd_cases e p) as [(He & ?)|(He & _)]; rewrite He in *; lra.
Qed.

Lemma clipBack_ge l : forall e, e <= fold_left (clipBack cross face s) l e.
Proof.
  induction l as [|p l IH]; intros e; simpl; [lra|].
  specialize (IH (clipBack cross face s e p)).
  destruct (clipBack_cases e p) as [(He & ?)|(He & _)]; rewrite He in *; lra.
Qed.

Lemma clipFwd_attained l : forall e,
  fold_left (clipFwd cross face s) l e = e
  \/ exists q, q ∈ l /\ cross q = true /\ face q >= s /\ face q < e
               /\ fold_left (clipFwd cross face s) l e = face q.
Proof.
  induction l as [|a l IH]; intros e; simpl; [by left|].
  destruct (clipFwd_cases e a) as [(He & Ha)|(He & _)]; rewrite He.
  - right. destruct (IH (face a)) as [Hf|(q & Hq & ? & ? & ? & Hf)].
    + exists a. rewrite Hf. split; [apply list_elem_of_here|tauto].
    + exists q. split; [by apply list_elem_of_further|].
      repeat split; try done. lra.
  - destruct (IH e) as [Hf|(q & Hq & ? & ? & ? & Hf)]; [by left|right].
    exists q. split; [by apply list_elem_of_further|done].
Qed.

Lemma clipBack_attained l : forall e,
  fold_left (clipBack cross face s) l e = e
  \/ exists q, q ∈ l /\ cross q = true /\ face q <= s /\ face q > e
               /\ fold_left (clipBack cross face s) l e = face q.
Proof.
  induction l as [|a l IH]; intros e; simpl; [by left|].
  destruct (clipBack_cases e a) as [(He & Ha)|(He & _)]; rewrite He.
  - right. destruct (IH (face a)) as [Hf|(q & Hq & ? & ? & ? & Hf)].
    + exists a. rewrite Hf. split; [apply list_elem_of_here|tauto].
    + exists q. split; [by apply list_elem_of_further|].
      repeat split; try done. lra.
  - destruct (IH e) as [Hf|(q & Hq & ? & ? & ? & Hf)]; [by left|right].
    exists q. split; [by apply list_elem_of_further|done].
Qed.

Lemma clipFwd_below l : forall e p,
  p ∈ l -> cross p = true -> face p >= s ->
  fold_left (clipFwd cross face s) l e <= face p.
Proof.
  induction l as [|a l IH]; intros e p Hin H1 H2; [by apply elem_of_nil in Hin|].
  simpl. apply elem_of_cons in Hin as [->|Hin]; [|by apply IH].
  pose proof (clipFwd_le l (clipFwd cross face s e a)).
  destruct (clipFwd_cases e a) as [(He & ?)|(He & Hn)]; rewrite He in *.
  - lra.
  - destruct (Rlt_dec (face a) e); [tauto|lra].
Qed.

Lemma clipBack_above l : forall e p,
  p ∈ l -> cross p = true -> face p <= s ->
  face p <= fold_left (clipBack cross face s) l e.
Proof.
  induction l as [|a l IH]; intros e p Hin H1 H2; [by apply elem_of_nil in Hin|].
  simpl. apply elem_of_cons in Hin as [->|Hin]; [|by apply IH].
  pose proof (clipBack_ge l (clipBack cross face s e a)).
  destruct (clipBack_cases e a) as [(He & ?)|(He & Hn)]; rewrite He in *.
  - lra.
  - destruct (Rlt_dec e (face a)); [tauto|lra].
Qed.

(** Neither loop takes the end out of the span between the start and the
    nominal end. *)
Lemma clipFwd_within l e :
  let e' := fold_left (clipFwd cross face s) l e in
  Rmin s e <= Rmin s e' /\ Rmax s e' <= Rmax s e.
Proof.
  cbv zeta. pose proof (clipFwd_le l e).
  destruct (clipFwd_attained l e) as [->|(q & _ & _ & ? & ? & ->)]; [lra|].
  unfold Rmin, Rmax. repeat destruct (Rle_dec _ _); lra.
Qed.

Lemma clipBack_within l e :
  let e' := fold_left (clipBack cross face s) l e in
  Rmin s e <= Rmin s e' /\ Rmax s e' <= Rmax s e.
Proof.
  cbv zeta. pose proof (clipBack_ge l e).
  destruct (clipBack_attained l e) as [->|(q & _ & _ & ? & ? & ->)]; [lra|].
  unfold Rmin, Rmax. repeat destruct (Rle_dec _ _); lra.
Qed.
End Loops.

(** A beam along the line [y = sy] that starts at [sx] can only be cut
    back by the loop of a beam fired upwards if it ends above its start. *)
Lemma clipBack_flat cross face s l :
  fold_left (clipBack cross face s) l s = s.
Proof.
  destruct (clipBack_attained cross face s l s) as [?|(q & _ & _ & ? & ? & _)]; [done|lra].
Qed.

(** What each loop computes: the nominal end when nothing blocks, and
    otherwise the blocking face nearest to the start. *)
Lemma clipFwd_nearest cross face s l e :
  let blocks p := cross p = true /\ face p >= s /\ face p < e in
  ((forall p, p ∈ l -> ~ blocks p) -> fold_left (clipFwd cross face s) l e = e)
  /\ (forall p, p ∈ l -> blocks p ->
      exists q, q ∈ l /\ blocks q /\ fold_left (clipFwd cross face s) l e = face q
                /\ forall r, r ∈ l -> blocks r -> face q <= face r).
Proof.
  cbv zeta. pose proof (clipFwd_attained cross face s l e) as Hatt. split.
  - intros Hfree. destruct Hatt as [?|(q & Hq & ? & ? & ? & _)]; [done|].
    by destruct (Hfree q Hq).
  - intros p Hp (Hp1 & Hp2 & Hp3).
    pose proof (clipFwd_below cross face s l e p Hp Hp1 Hp2).
    destruct Hatt as [Hf|(q & Hq & ? & ? & ? & Hf)]; [lra|].
    exists q. split; [done|]. split; [done|]. split; [done|].
    intros r Hr (Hr1 & Hr2 & _). rewrite <- Hf. by apply clipFwd_below.
Qed.

Lemma clipBack_nearest cross face s l e :
  let blocks p := cross p = true /\ face p <= s /\ face p > e in
  ((forall p, p ∈ l -> ~ blocks p) -> fold_left (clipBack cross face s) l e = e)
  /\ (forall p, p ∈ l -> blocks p ->
      exists q, q ∈ l /\ blocks q /\ fold_left (clipBack cross face s) l e = face q
                /\ forall r, r ∈ l -> blocks r -> face r <= face q).
Proof.
  cbv zeta. pose proof (clipBack_attained cross face s l e) as Hatt. split.
  - intros Hfree. destruct Hatt as [?|(q & Hq & ? & ? & ? & _)]; [done|].
    by destruct (Hfree q Hq).
  - intros p Hp (Hp1 & Hp2 & Hp3).
    pose proof (clipBack_above cross face s l e p Hp Hp1 Hp2).
    destruct Hatt as [Hf|(q & Hq & ? & ? & ? & Hf)]; [lra|].
    exists q. split; [done|]. split; [done|]. split; [done|].
    intros r Hr (Hr1 & Hr2 & _). rewrite <- Hf. by apply clipBack_above.
Qed.

(** [getLaserBounds], direction by direction.  Any rotation that is not
    90, 270 or 180 is laid out like rotation 0, but only rotation 0 itself
    runs the loop of a beam fired to the right: the others run the loop of a
    beam fired upwards, on the end of a beam that has no height. *)
Definition beam (sx sy ex ey : R) : LaserBounds :=
  mkBounds (Rmin sx ex) (Rmax sx ex) (Rmin sy ey) (Rmax sy ey) sx sy ex ey.

Lemma getLaserBounds_by_rotation trap platforms :
  let x := Obj.x trap in
  let y := Obj.y trap in
  let h := Obj.width trap / 2 in
  let r := rotationOf trap in
  getLaserBounds trap platforms =
  if bool_decide (r = 90%Z) then
    beam x (y - h) x (fold_left (clipFwd (spansX x) Obj.y (y - h)) platforms (y + h))
  else if bool_decide (r = 270%Z) then
    beam x (y + h) x (fold_left (clipBack (spansX x) bottomFace (y + h)) platforms (y - h))
  else if bool_decide (r = 180%Z) then
    beam (x + h) y (fold_left (clipBack (spansY y) rightFace (x + h)) platforms (x - h)) y
  else if bool_decide (r = 0%Z) then
    beam (x - h) y (fold_left (clipFwd (spansY y) Obj.x (x - h)) platforms (x + h)) y
  else
    beam (x - h) y (x + h)
         (fold_left (clipBack (spansX (x - h)) bottomFace y) platforms y).
Proof.
  cbv zeta. unfold getLaserBounds. cbv zeta.
  destruct (decide (rotationOf trap = 90%Z)) as [Hr|H90].
  { rewrite Hr.
    rewrite (bool_decide_eq_true_2 (90%Z = 90%Z)), (bool_decide_eq_false_2 (90%Z = 0%Z)),
      (bool_decide_eq_false_2 (90%Z = 180%Z)) by done.
    reflexivity. }
  rewrite (bool_decide_eq_false_2 (rotationOf trap = 90%Z)) by done.
  destruct (decide (rotationOf trap = 270%Z)) as [Hr|H270].
  { rewrite Hr.
    rewrite (bool_decide_eq_true_2 (270%Z = 270%Z)), (bool_decide_eq_false_2 (270%Z = 0%Z)),
      (bool_decide_eq_false_2 (270%Z = 180%Z)) by done.
    reflexivity. }
  rewrite (bool_decide_eq_false_2 (rotationOf trap = 270%Z)) by done.
  destruct (decide (rotationOf trap = 180%Z)) as [Hr|H180].
  { rewrite Hr.
    rewrite (bool_decide_eq_true_2 (180%Z = 180%Z)), (bool_decide_eq_false_2 (180%Z = 0%Z))
      by done.
    reflexivity. }
  rewrite (bool_decide_eq_false_2 (rotationOf trap = 180%Z)) by done.
  destruct (decide (rotationOf trap = 0%Z)) as [Hr|H0].
  { rewrite Hr. rewrite (bool_decide_eq_true_2 (0%Z = 0%Z)) by done. reflexivity. }
  rewrite (bool_decide_eq_false_2 (rotationOf trap = 0%Z)) by done.
  reflexivity.
Qed.

Lemma getLaserBounds_nil trap :
  let x := Obj.x trap in
  let y := Obj.y trap in
  let h := Obj.width trap / 2 in
  let r := rotationOf trap in
  getLaserBounds trap [] =
  if bool_decide (r = 90%Z) then beam x (y - h) x (y + h)
  else if bool_decide (r = 270%Z) then beam x (y + h) x (y - h)
  else if bool_decide (r = 180%Z) then beam (x + h) y (x - h) y
  else beam (x - h) y (x + h) y.
Proof.
  cbv zeta. rewrite getLaserBounds_by_rotation. cbv zeta. cbn [fold_left].
  by repeat case_bool_decide.
Qed.

(** X11.  Platforms only ever shorten a beam.  For every rotation and
    every list of platforms the beam starts where the beam of the empty level
    starts, its bounding box lies inside the box of that nominal beam, and it
    stays on its axis: the box has no height or no width. *)
Theorem laser_bounds_within_nominal (trap : Obj.t) (platforms : list Obj.t) :
  let b := getLaserBounds trap platforms in
  let n := getLaserBounds trap [] in
  startX b = startX n /\ startY b = startY n
  /\ minX n <= minX b /\ maxX b <= maxX n
  /\ minY n <= minY b /\ maxY b <= maxY n
  /\ (minX b = maxX b \/ minY b = maxY b).
Proof.
  cbv zeta. rewrite getLaserBounds_nil, getLaserBounds_by_rotation. cbv zeta.
  set (x := Obj.x trap). set (y := Obj.y trap). set (h := Obj.width trap / 2).
  assert (Hflat : forall a, Rmin a a = Rmax a a).
  { intros a. unfold Rmin, Rmax. by destruct (Rle_dec a a). }
  repeat case_bool_decide; unfold beam; cbn [startX startY minX maxX minY maxY].
  - destruct (clipFwd_within (spansX x) Obj.y (y - h) platforms (y + h)).
    repeat split; try lra. by left.
  - destruct (clipBack_within (spansX x) bottomFace (y + h) platforms (y - h)).
    repeat split; try lra. by left.
  - destruct (clipBack_within (spansY y) rightFace (x + h) platforms (x - h)).
    repeat split; try lra. by right.
  - destruct (clipFwd_within (spansY y) Obj.x (x - h) platforms (x + h)).
    repeat split; try lra. by right.
  - rewrite clipBack_flat. repeat split; try lra. by right.
Qed.

(** A platform blocks a beam fired to the left when it spans the beam's
    height and its right face lies on the beam's path. *)
Definition blocksLeft (trap p : Obj.t) : Prop :=
  Obj.y trap >= Obj.y p /\ Obj.y trap <= Obj.y p + Obj.height p
  /\ Obj.x p + Obj.width p <= Obj.x trap + Obj.width trap / 2
  /\ Obj.x p + Obj.width p > Obj.x trap - Obj.width trap / 2.

(** It blocks a beam fired downwards when it spans the beam's abscissa and
    its top face lies on the beam's path, and a beam fired upwards when its
    bottom face does. *)
Definition blocksDown (trap p : Obj.t) : Prop :=
  Obj.x trap >= Obj.x p /\ Obj.x trap <= Obj.x p + Obj.width p
  /\ Obj.y p >= Obj.y trap - Obj.width trap / 2
  /\ Obj.y p < Obj.y trap + Obj.width trap / 2.

Definition blocksUp (trap p : Obj.t) : Prop :=
  Obj.x trap >= Obj.x p /\ Obj.x trap <= Obj.x p + Obj.width p
  /\ Obj.y p + Obj.height p <= Obj.y trap + Obj.width trap / 2
  /\ Obj.y p + Obj.height p > Obj.y trap - Obj.width trap / 2.

Lemma spansY_true y p :
  spansY y p = true <-> y >= Obj.y p /\ y <= Obj.y p + Obj.height p.
Proof.
  unfold spansY. rewrite andb_true_iff, !bool_decide_eq_true. tauto.
Qed.

Lemma spansX_true x p :
  spansX x p = true <-> x >= Obj.x p /\ x <= Obj.x p + Obj.width p.
Proof.
  unfold spansX. rewrite andb_true_iff, !bool_decide_eq_true. tauto.
Qed.

(** X12.  For a laser with rotation 180 the beam starts at [x + width / 2]
    and runs to the left along [y]; its end is the nominal end
    [x - width / 2] when no platform blocks it, and otherwise the right face
    of a blocking platform that is nearest to the emitter. *)
Theorem laser_left_clipped_at_nearest (trap : Obj.t) (platforms : list Obj.t) :
  rotationOf trap = 180%Z ->
  let b := getLaserBounds trap platforms in
  startX b = Obj.x trap + Obj.width trap / 2
  /\ startY b = Obj.y trap /\ endY b = Obj.y trap
  /\ ((forall p, p ∈ platforms -> ~ blocksLeft trap p) ->
      endX b = Obj.x trap - Obj.width trap / 2)
  /\ (forall p, p ∈ platforms -> blocksLeft trap p ->
      exists q, q ∈ platforms /\ blocksLeft trap q
                /\ endX b = Obj.x q + Obj.width q
                /\ forall r, r ∈ platforms -> blocksLeft trap r ->
                     Obj.x r + Obj.width r <= Obj.x q + Obj.width q).
Proof.
  intros Hr. cbv zeta. rewrite getLaserBounds_by_rotation. cbv zeta. rewrite Hr.
  rewrite (bool_decide_eq_false_2 (180%Z = 90%Z)), (bool_decide_eq_false_2 (180%Z = 270%Z)),
    (bool_decide_eq_true_2 (180%Z = 180%Z)) by done.
  unfold beam. cbn [startX startY endX endY].
  split; [done|]. split; [done|]. split; [done|].
  destruct (clipBack_nearest (spansY (Obj.y trap)) rightFace
              (Obj.x trap + Obj.width trap / 2) platforms
              (Obj.x trap - Obj.width trap / 2)) as [Hfree Hnear].
  assert (Hb : forall p, blocksLeft trap p <->
            spansY (Obj.y trap) p = true
            /\ rightFace p <= Obj.x trap + Obj.width trap / 2
            /\ rightFace p > Obj.x trap - Obj.width trap / 2).
  { intros p. unfold blocksLeft, rightFace. rewrite spansY_true. tauto. }
  split.
  - intros Hnone. apply Hfree. intros p Hp Hblocks. by apply (Hnone p Hp), Hb.
  - intros p Hp Hblocks. destruct (Hnear p Hp) as (q & Hq & Hbq & He & Hmax).
    { by apply Hb. }
    exists q. split; [done|]. split; [by apply Hb|]. split; [done|].
    intros r Hrin Hbr. apply (Hmax r Hrin). by apply Hb.
Qed.

(** X13.  Vertical beams.  With rotation 90 the beam runs down from
    [y - width / 2] along [x] and ends at the top face of the nearest platform
    that blocks it; with rotation 270 it runs up from [y + width / 2] and
    ends at the bottom face of the nearest one.  With no platform in the way
    the beam has its nominal length. *)
Theorem laser_vertical_clipped_at_nearest (trap : Obj.t) (platforms : list Obj.t) :
  let b := getLaserBounds trap platforms in
  (rotationOf trap = 90%Z ->
   startX b = Obj.x trap /\ endX b = Obj.x trap
   /\ startY b = Obj.y trap - Obj.width trap / 2
   /\ ((forall p, p ∈ platforms -> ~ blocksDown trap p) ->
       endY b = Obj.y trap + Obj.width trap / 2)
   /\ (forall p, p ∈ platforms -> blocksDown trap p ->
       exists q, q ∈ platforms /\ blocksDown trap q /\ endY b = Obj.y q
                 /\ forall r, r ∈ platforms -> blocksDown trap r -> Obj.y q <= Obj.y r))
  /\ (rotationOf trap = 270%Z ->
      startX b = Obj.x trap /\ endX b = Obj.x trap
      /\ startY b = Obj.y trap + Obj.width trap / 2
      /\ ((forall p, p ∈ platforms -> ~ blocksUp trap p) ->
          endY b = Obj.y trap - Obj.width trap / 2)
      /\ (forall p, p ∈ platforms -> blocksUp trap p ->
          exists q, q ∈ platforms /\ blocksUp trap q
                    /\ endY b = Obj.y q + Obj.height q
                    /\ forall r, r ∈ platforms -> blocksUp trap r ->
                         Obj.y r + Obj.height r <= Obj.y q + Obj.height q)).
Proof.
  cbv zeta. rewrite getLaserBounds_by_rotation. cbv zeta. split; intros Hr; rewrite Hr.
  - rewrite (bool_decide_eq_true_2 (90%Z = 90%Z)) by done.
    unfold beam. cbn [startX startY endX endY].
    split; [done|]. split; [done|]. split; [done|].
    destruct (clipFwd_nearest (spansX (Obj.x trap)) Obj.y
                (Obj.y trap - Obj.width trap / 2) platforms
                (Obj.y trap + Obj.width trap / 2)) as [Hfree Hnear].
    assert (Hb : forall p, blocksDown trap p <->
              spansX (Obj.x trap) p = true
              /\ Obj.y p >= Obj.y trap - Obj.width trap / 2
              /\ Obj.y p < Obj.y trap + Obj.width trap / 2).
    { intros p. unfold blocksDown. rewrite spansX_true. tauto. }
    split.
    + intros Hnone. apply Hfree. intros p Hp Hblocks. by apply (Hnone p Hp), Hb.
    + intros p Hp Hblocks. destruct (Hnear p Hp) as (q & Hq & Hbq & He & Hmin).
      { by apply Hb. }
      exists q. split; [done|]. split; [by apply Hb|]. split; [done|].
      intros r Hrin Hbr. apply (Hmin r Hrin). by apply Hb.
  - rewrite (bool_decide_eq_false_2 (270%Z = 90%Z)),
      (bool_decide_eq_true_2 (270%Z = 270%Z)) by done.
    unfold beam. cbn [startX startY endX endY].
    split; [done|]. split; [done|]. split; [done|].
    destruct (clipBack_nearest (spansX (Obj.x trap)) bottomFace
                (Obj.y trap + Obj.width trap / 2) platforms
                (Obj.y trap - Obj.width trap / 2)) as [Hfree Hnear].
    assert (Hb : forall p, blocksUp trap p <->
              spansX (Obj.x trap) p = true
              /\ bottomFace p <= Obj.y trap + Obj.width trap / 2
              /\ bottomFace p > Obj.y trap - Obj.width trap / 2).
    { intros p. unfold blocksUp, bottomFace. rewrite spansX_true. tauto. }
    split.
    + intros Hnone. apply Hfree. intros p Hp Hblocks. by apply (Hnone p Hp), Hb.
    + intros p Hp Hblocks. destruct (Hnear p Hp) as (q & Hq & Hbq & He & Hmax).
      { by apply Hb. }
      exists q. split; [done|]. split; [by apply Hb|]. split; [done|].
      intros r Hrin Hbr. apply (Hmax r Hrin). by apply Hb.
Qed.

(** X14.  A rotation that is none of 0, 90, 180 and 270 after
    [% 360], for instance 45 or -90, gives the beam of rotation 0, from
    [x - width / 2] to [x + width / 2] along [y], and no platform cuts it:
    the bounds are those of the empty level. *)
Theorem laser_off_axis_is_never_clipped (trap : Obj.t) (platforms : list Obj.t) :
  rotationOf trap <> 0%Z -> rotationOf trap <> 90%Z ->
  rotationOf trap <> 180%Z -> rotationOf trap <> 270%Z ->
  getLaserBounds trap platforms = getLaserBounds trap []
  /\ getLaserBounds trap platforms
     = beam (Obj.x trap - Obj.width trap / 2) (Obj.y trap)
            (Obj.x trap + Obj.width trap / 2) (Obj.y trap).
Proof.
  intros H0 H90 H180 H270.
  rewrite getLaserBounds_nil, getLaserBounds_by_rotation. cbv zeta.
  rewrite !bool_decide_eq_false_2 by done. by rewrite clipBack_flat.
Qed.
End BeamFacts.

Section BeamExamples.
Import Game.

(** The laser of the spec's example turned to the left, and at an angle. *)
Definition leftLaser : Obj.t :=
  Obj.mk "laser" 800 200 400 10 (Some 180%Z) (Some 1) (Some 50) false
         None None None None None None None None None None None None.

Definition tiltedLaser : Obj.t :=
  Obj.mk "laser" 800 200 400 10 (Some 45%Z) (Some 1) (Some 50) false
         None None None None None None None None None None None None.

Lemma laser_left_clipped_at_nearest_witness :
  endX (getLaserBounds leftLaser [rect 900 300 50 100; rect 650 100 50 200]) = 700.
Proof.
  destruct (laser_left_clipped_at_nearest leftLaser
              [rect 900 300 50 100; rect 650 100 50 200] eq_refl)
    as (_ & _ & _ & _ & Hclip).
  destruct (Hclip (rect 650 100 50 200)) as (q & Hq & Hb & He & Hmax).
  { apply list_elem_of_further, list_elem_of_here. }
  { unfold blocksLeft, leftLaser. evaluate. lra. }
  rewrite He. apply Rle_antisym.
  - destruct Hb as (Hb1 & Hb2 & Hb3 & Hb4).
    repeat (apply elem_of_cons in Hq as [->|Hq]); revert Hb1 Hb2 Hb3 Hb4;
      unfold leftLaser; evaluate; try lra.
    by apply elem_of_nil in Hq.
  - replace 700 with (Obj.x (rect 650 100 50 200) + Obj.width (rect 650 100 50 200))
      by (evaluate; lra).
    apply Hmax.
    + apply list_elem_of_further, list_elem_of_here.
    + unfold blocksLeft, leftLaser. evaluate. lra.
Defined.

Lemma laser_off_axis_is_never_clipped_witness :
  getLaserBounds tiltedLaser [rect 700 100 50 200] = getLaserBounds tiltedLaser [].
Proof.
  refine (proj1 (laser_off_axis_is_never_clipped tiltedLaser [rect 700 100 50 200]
                   _ _ _ _)); intros H; lazy in H; discriminate H.
Defined.
End BeamExamples.

(** ** Scripted motion over many calls *)

Section MotionRuns.
Import Game.

(** One call of [applyMovement] as [update] makes it: the platforms of the
    level at that time, the step and the body. *)
Definition Call : Type := list Obj.t * R * Player.t.

(** The object after a sequence of calls, the body's part left out. *)
Fixpoint moved (isPlatform : bool) (calls : list Call) (obj : Obj.t) : Obj.t :=
  match calls with
  | [] => obj
  | (platforms, dt, player) :: rest =>
      moved isPlatform rest (applyMovement platforms dt isPlatform obj player).1
  end.

(** The time the calls span. *)
Definition elapsed (calls : list Call) : R := foldr (fun c t => c.1.2 + t) 0 calls.

(** The parts of the script that say where the object goes. *)
Definition route (obj : Obj.t) :=
  (Obj.speed obj, Obj.tx obj, Obj.ty obj, Obj.oscX obj, Obj.oscY obj, Obj.oscSpeed obj).

Lemma route_applyMovement platforms dt isPlatform obj player :
  route (applyMovement platforms dt isPlatform obj player).1 = route obj.
Proof.
  unfold applyMovement. destruct (negb _ && negb _); [done|].
  set (o2 := linearMovement platforms dt isPlatform (initBase obj)).
  assert (H2 : route o2 = route obj).
  { pose proof (script_linearMovement platforms dt isPlatform (initBase obj)) as Hs.
    fold o2 in Hs. change (route obj) with (route (initBase obj)).
    unfold script in Hs. unfold route. congruence. }
  assert (H3 : route (oscillation dt o2).1 = route o2).
  { unfold oscillation. by case_match. }
  destruct (oscillation dt o2) as [o3 [ox oy]]. cbn [fst] in *. by rewrite <- H2, <- H3.
Qed.

(** *** An object that only oscillates *)

Definition oscillates (obj : Obj.t) : Prop :=
  positive (Obj.oscSpeed obj) && (truthy (Obj.oscX obj) || truthy (Obj.oscY obj)) = true
  /\ positive (Obj.speed obj)
     && (negb (orElse (Obj.tx obj) 0 =? 0) || negb (orElse (Obj.ty obj) 0 =? 0)) = false.

Lemma oscillates_route a b : route a = route b -> oscillates a -> oscillates b.
Proof. unfold route, oscillates. by intros [= -> -> -> -> -> ->]. Qed.

(** One call: the base is fixed at the first call and kept, the clock
    advances by [dt * oscSpeed], and the position is the base plus the offset
    at the new time. *)
Lemma applyMovement_oscillates platforms dt isPlatform obj player :
  oscillates obj ->
  let obj' := (applyMovement platforms dt isPlatform obj player).1 in
  let t := default 0 (Obj.oscTime obj) + dt * default 0 (Obj.oscSpeed obj) in
  Obj.baseX obj' = Some (baseOf obj).1 /\ Obj.baseY obj' = Some (baseOf obj).2
  /\ Obj.oscTime obj' = Some t
  /\ Obj.x obj' = (baseOf obj).1 + sin t * orElse (Obj.oscX obj) 0
  /\ Obj.y obj' = (baseOf obj).2 + cos t * orElse (Obj.oscY obj) 0.
Proof.
  intros [Hosc Hlin]. cbv zeta. unfold applyMovement.
  assert (Hgo : negb (truthy (Obj.speed obj)) && negb (truthy (Obj.oscSpeed obj)) = false).
  { apply andb_prop in Hosc as [Hp _]. unfold positive, truthy in *.
    destruct (Obj.oscSpeed obj) as [s|]; [|done].
    apply bool_decide_eq_true in Hp. rewrite (bool_decide_eq_false_2 (s = 0)) by lra.
    simpl. by rewrite andb_false_r. }
  rewrite Hgo.
  assert (Hl : linearMovement platforms dt isPlatform (initBase obj) = initBase obj).
  { unfold linearMovement, initBase. cbv zeta. ofields. by rewrite Hlin. }
  rewrite Hl. unfold oscillation, initBase. ofields. rewrite Hosc. ofields.
  unfold baseOf. cbn [fst snd]. done.
Qed.

Lemma elapsed_cons c calls : elapsed (c :: calls) = c.1.2 + elapsed calls.
Proof. done. Qed.

Lemma moved_oscillates isPlatform calls : forall obj,
  oscillates obj -> calls <> [] ->
  let obj' := moved isPlatform calls obj in
  let t := default 0 (Obj.oscTime obj) + elapsed calls * default 0 (Obj.oscSpeed obj) in
  Obj.baseX obj' = Some (baseOf obj).1 /\ Obj.baseY obj' = Some (baseOf obj).2
  /\ Obj.oscTime obj' = Some t
  /\ Obj.x obj' = (baseOf obj).1 + sin t * orElse (Obj.oscX obj) 0
  /\ Obj.y obj' = (baseOf obj).2 + cos t * orElse (Obj.oscY obj) 0.
Proof.
  induction calls as [|[[platforms dt] player] rest IH]; intros obj Hosc Hne; [done|].
  cbv zeta. cbn [moved].
  destruct (applyMovement_oscillates platforms dt isPlatform obj player Hosc)
    as (Hbx & Hby & Ht & Hx & Hy).
  pose proof (route_applyMovement platforms dt isPlatform obj player) as Hr.
  set (obj1 := (applyMovement platforms dt isPlatform obj player).1) in *.
  destruct rest as [|c rest].
  { cbn [moved]. rewrite (elapsed_cons (platforms, dt, player)). cbn [fst snd].
    change (elapsed []) with 0.
    replace ((dt + 0) * default 0 (Obj.oscSpeed obj))
      with (dt * default 0 (Obj.oscSpeed obj)) by ring. done. }
  destruct (IH obj1) as (Hbx' & Hby' & Ht' & Hx' & Hy');
    [by apply (oscillates_route obj)|done|].
  assert (Hbase : baseOf obj1 = baseOf obj).
  { unfold baseOf at 1. by rewrite Hbx, Hby. }
  unfold route in Hr. injection Hr as _ _ _ HA HB Hs.
  rewrite Hbase, Ht, HA, HB, Hs in *.
  set (t1 := default 0 (Obj.oscTime obj) + dt * default 0 (Obj.oscSpeed obj)) in *.
  change (default 0 (Some t1)) with t1 in *.
  rewrite (elapsed_cons (platforms, dt, player)). cbn [fst snd].
  replace (default 0 (Obj.oscTime obj)
           + (dt + elapsed (c :: rest)) * default 0 (Obj.oscSpeed obj))
    with (t1 + elapsed (c :: rest) * default 0 (Obj.oscSpeed obj))
    by (unfold t1; ring).
  by repeat split.
Qed.

(** X15.  An object that only oscillates does not drift.  After any
    non-empty sequence of calls of [applyMovement] its base is the base it
    started from (its position, for an object fresh from the level data),
    its position is that base plus [(sin t * oscX, cos t * oscY)] at the time
    [t = oscTime + elapsed * oscSpeed], and so it stays within [|oscX|] and
    [|oscY|] of the base. *)
Theorem oscillator_never_drifts (isPlatform : bool) (calls : list Call) (obj : Obj.t) :
  oscillates obj -> calls <> [] ->
  let obj' := moved isPlatform calls obj in
  let t := default 0 (Obj.oscTime obj) + elapsed calls * default 0 (Obj.oscSpeed obj) in
  baseOf obj' = baseOf obj
  /\ Obj.x obj' = (baseOf obj).1 + sin t * orElse (Obj.oscX obj) 0
  /\ Obj.y obj' = (baseOf obj).2 + cos t * orElse (Obj.oscY obj) 0
  /\ Rabs (Obj.x obj' - (baseOf obj).1) <= Rabs (orElse (Obj.oscX obj) 0)
  /\ Rabs (Obj.y obj' - (baseOf obj).2) <= Rabs (orElse (Obj.oscY obj) 0).
Proof.
  intros Hosc Hne. cbv zeta.
  destruct (moved_oscillates isPlatform calls obj Hosc Hne) as (Hbx & Hby & _ & Hx & Hy).
  split; [unfold baseOf at 1; by rewrite Hbx, Hby|].
  split; [done|]. split; [done|]. rewrite Hx, Hy.
  set (t := default 0 _ + _).
  assert (Hbound : forall u a, -1 <= u <= 1 -> Rabs (u * a) <= Rabs a).
  { intros u a Hu. rewrite Rabs_mult. pose proof (Rabs_pos a).
    assert (Rabs u <= 1) by (apply Rabs_le; lra). nra. }
  split.
  - replace ((baseOf obj).1 + sin t * orElse (Obj.oscX obj) 0 - (baseOf obj).1)
      with (sin t * orElse (Obj.oscX obj) 0) by ring.
    apply Hbound, SIN_bound.
  - replace ((baseOf obj).2 + cos t * orElse (Obj.oscY obj) 0 - (baseOf obj).2)
      with (cos t * orElse (Obj.oscY obj) 0) by ring.
    apply Hbound, COS_bound.
Qed.

(** *** An object on a ping-pong script *)

(** The object has a speed [v > 0] and somewhere to go. *)
Definition travels (obj : Obj.t) (v : R) : Prop :=
  Obj.speed obj = Some v /\ v > 0
  /\ (orElse (Obj.tx obj) 0 <> 0 \/ orElse (Obj.ty obj) 0 <> 0).

(** Its base lies on the segment from its recorded start to the start plus
    [(tx, ty)].  An object fresh from the level data, which has no recorded
    start, is at the start of the segment. *)
Definition onTrack (obj : Obj.t) : Prop :=
  exists k, 0 <= k <= 1
    /\ (baseOf obj).1 = (startOf obj).1 + k * orElse (Obj.tx obj) 0
    /\ (baseOf obj).2 = (startOf obj).2 + k * orElse (Obj.ty obj) 0.

Lemma fresh_onTrack obj : Obj.startX obj = None -> Obj.startY obj = None -> onTrack obj.
Proof.
  intros Hx Hy. exists 0. unfold startOf. rewrite Hx, Hy. simpl. split; lra.
Qed.

Lemma travels_route a b v : route a = route b -> travels a v -> travels b v.
Proof. unfold route, travels. by intros [= -> -> -> _ _ _]. Qed.

Lemma onTrack_step platforms dt isPlatform obj player v :
  travels obj v -> 0 <= dt -> onTrack obj ->
  let obj' := (applyMovement platforms dt isPlatform obj player).1 in
  onTrack obj' /\ startOf obj' = startOf obj.
Proof.
  intros (Hs & Hv & Ht) Hdt (k & Hk & Hkx & Hky). cbv zeta.
  destruct (applyMovement_linear platforms dt isPlatform obj player v Hs Hv Ht)
    as (bx & by' & Hbx & Hby & Hsx & Hsy & _ & _ & Hcase).
  pose proof (route_applyMovement platforms dt isPlatform obj player) as Hr.
  set (obj' := (applyMovement platforms dt isPlatform obj player).1) in *.
  unfold route in Hr. injection Hr as _ Htx Hty _ _ _.
  assert (Hstart : startOf obj' = startOf obj).
  { unfold startOf at 1. rewrite Hsx, Hsy. cbn [from_option]. unfold Datatypes.id.
    by destruct (startOf obj). }
  assert (Hbase : baseOf obj' = (bx, by')).
  { unfold baseOf. by rewrite Hbx, Hby. }
  split; [|done]. unfold onTrack. rewrite Hstart, Hbase, Htx, Hty. cbn [fst snd].
  set (tx := orElse (Obj.tx obj) 0) in *. set (ty := orElse (Obj.ty obj) 0) in *.
  assert (Htarget : exists a, (a = 0 \/ a = 1)
            /\ (targetOf obj).1 = (startOf obj).1 + a * tx
            /\ (targetOf obj).2 = (startOf obj).2 + a * ty).
  { unfold targetOf. destruct (forwardOf obj); [exists 1|exists 0]; cbn [fst snd].
    - split; [by right|]. fold tx ty. split; lra.
    - split; [by left|]. split; lra. }
  destruct Htarget as (a & Ha & Hax & Hay).
  assert (Hstep : stepOf dt obj = v * dt) by (unfold stepOf; by rewrite Hs).
  rewrite Hstep in Hcase. case_bool_decide as Hnear.
  { destruct Hcase as (-> & -> & _). exists a. split; [destruct Ha; lra|done]. }
  destruct (negb isPlatform && blocked platforms dt obj).
  { destruct Hcase as (-> & -> & _). exists k. split; [done|]. split; lra. }
  destruct Hcase as (-> & -> & _).
  assert (Hrem : 0 <= v * dt < remaining obj) by nra.
  set (c := v * dt / remaining obj).
  assert (Hc : 0 <= c < 1).
  { unfold c. split.
    - apply Rmult_le_pos; [lra|]. apply Rlt_le, Rinv_0_lt_compat. lra.
    - apply (Rmult_lt_reg_r (remaining obj)); [lra|]. field_simplify; lra. }
  exists (k + c * (a - k)). split; [destruct Ha; nra|].
  rewrite Hax, Hay, Hkx, Hky. unfold c. split; field; lra.
Qed.

Lemma moved_onTrack isPlatform v calls : forall obj,
  travels obj v -> Forall (fun c : Call => 0 <= c.1.2) calls -> onTrack obj ->
  onTrack (moved isPlatform calls obj)
  /\ startOf (moved isPlatform calls obj) = startOf obj
  /\ route (moved isPlatform calls obj) = route obj.
Proof.
  induction calls as [|[[platforms dt] player] rest IH]; intros obj Ht Hdts Hon; [done|].
  apply Forall_cons in Hdts as [Hdt Hdts]. cbn [fst snd] in Hdt. cbn [moved].
  destruct (onTrack_step platforms dt isPlatform obj player v Ht Hdt Hon) as [Hon1 Hs1].
  pose proof (route_applyMovement platforms dt isPlatform obj player) as Hr1.
  destruct (IH (applyMovement platforms dt isPlatform obj player).1)
    as (Hon' & Hs' & Hr'); [by apply (travels_route obj)|done|done|].
  split; [done|]. split; congruence.
Qed.

(** X16.  An object on a ping-pong script never leaves its track: with
    [speed > 0], somewhere to go and steps [dt >= 0], after any sequence of
    calls of [applyMovement] the base is on the segment from the recorded
    start to the start plus [(tx, ty)], and the recorded start and the script
    are what they were.  This holds for platforms and for traps, blocked or
    not. *)
Theorem mover_stays_on_track (isPlatform : bool) (calls : list Call) (obj : Obj.t)
    (v : R) :
  Obj.speed obj = Some v -> v > 0 ->
  orElse (Obj.tx obj) 0 <> 0 \/ orElse (Obj.ty obj) 0 <> 0 ->
  Forall (fun c : Call => 0 <= c.1.2) calls ->
  onTrack obj ->
  let obj' := moved isPlatform calls obj in
  startOf obj' = startOf obj
  /\ exists k, 0 <= k <= 1
       /\ (baseOf obj').1 = (startOf obj).1 + k * orElse (Obj.tx obj) 0
       /\ (baseOf obj').2 = (startOf obj).2 + k * orElse (Obj.ty obj) 0.
Proof.
  intros Hs Hv Ht Hdts Hon. cbv zeta.
  destruct (moved_onTrack isPlatform v calls obj) as ((k & Hk & Hx & Hy) & Hstart & Hr);
    [done..|].
  split; [done|]. unfold route in Hr. injection Hr as _ Htx Hty _ _ _.
  exists k. by rewrite <- Hstart, <- Htx, <- Hty.
Qed.
End MotionRuns.

Section MotionRunExamples.
Import Game.

(** A platform that swings 50 to either side of where the level puts it. *)
Definition pendulum : Obj.t :=
  Obj.mk "" 300 300 100 20 None None None false None None None
         (Some 50) None (Some 2) None None None None None None.

Lemma oscillator_never_drifts_witness :
  baseOf (moved true [([], 1 / 60, Player.reset); ([], 1 / 30, Player.reset)] pendulum)
  = baseOf pendulum.
Proof.
  refine (proj1 (oscillator_never_drifts true
                   [([], 1 / 60, Player.reset); ([], 1 / 30, Player.reset)]
                   pendulum _ _)).
  - unfold oscillates, pendulum. evaluate. rdecide. done.
  - done.
Defined.

Lemma mover_stays_on_track_witness :
  startOf (moved true [([], 1 / 60, Player.reset); ([], 1 / 30, Player.reset)] shuttle)
  = startOf shuttle.
Proof.
  refine (proj1 (mover_stays_on_track true
                   [([], 1 / 60, Player.reset); ([], 1 / 30, Player.reset)]
                   shuttle 100 eq_refl _ _ _ _)).
  - lra.
  - left. unfold shuttle. evaluate. rdecide. lra.
  - apply Forall_cons. split; [simpl; lra|].
    apply Forall_cons. split; [simpl; lra|]. apply Forall_nil_2.
  - by apply fresh_onTrack.
Defined.
End MotionRunExamples.

(** ** The camera *)

Section CameraFacts.
Import Camera.

(** X17.  Each frame the camera is centred on the body and then clamped.
    If the world is at least as wide as the canvas, the view ends up inside
    the world horizontally, and exactly centred whenever the centred view
    already was inside; if the world is narrower than the canvas, the view
    is pinned with its right edge on the world's.  The same holds
    vertically.  The shake is not touched. *)
Theorem camera_view_stays_in_world (canvas : Canvas) (worldWidth worldHeight : R)
    (target : Player.t) (c : Camera.t) :
  let c' := clamp canvas worldWidth worldHeight (follow canvas target c) in
  let cx := Player.x target - canvasWidth canvas / 2 in
  let cy := Player.y target - canvasHeight canvas / 2 in
  (canvasWidth canvas <= worldWidth ->
   0 <= x c' /\ x c' + canvasWidth canvas <= worldWidth
   /\ (0 <= cx <= worldWidth - canvasWidth canvas -> x c' = cx))
  /\ (worldWidth < canvasWidth canvas -> x c' = worldWidth - canvasWidth canvas)
  /\ (canvasHeight canvas <= worldHeight ->
      0 <= y c' /\ y c' + canvasHeight canvas <= worldHeight
      /\ (0 <= cy <= worldHeight - canvasHeight canvas -> y c' = cy))
  /\ (worldHeight < canvasHeight canvas -> y c' = worldHeight - canvasHeight canvas)
  /\ shakeTimer c' = shakeTimer c /\ shakeMagnitude c' = shakeMagnitude c.
Proof.
  cbv zeta. unfold clamp, follow. cbv zeta.
  cbn [x y shakeTimer shakeMagnitude set_x set_y].
  repeat (case_bool_decide; cbn [x y shakeTimer shakeMagnitude set_x set_y] in * ).
  all: repeat split; intros; lra.
Qed.

(** The time a sequence of steps spans. *)
Definition total (dts : list R) : R := foldr Rplus 0 dts.

Lemma total_nonneg dts : Forall (fun dt => 0 <= dt) dts -> 0 <= total dts.
Proof. induction 1; simpl; lra. Qed.

Lemma update_countdown dt c :
  0 <= dt -> 0 <= shakeTimer c ->
  shakeTimer (update dt c) = Rmax 0 (shakeTimer c - dt)
  /\ shakeMagnitude (update dt c) = shakeMagnitude c
  /\ x (update dt c) = x c /\ y (update dt c) = y c.
Proof.
  intros Hdt Ht. unfold update. cbv zeta.
  repeat (case_bool_decide; cbn [x y shakeTimer shakeMagnitude set_shakeTimer] in * );
    repeat split; try done; unfold Rmax; destruct (Rle_dec _ _); lra.
Qed.

Lemma updates_countdown dts : forall c,
  Forall (fun dt => 0 <= dt) dts -> 0 <= shakeTimer c ->
  shakeTimer (fold_left (fun c dt => update dt c) dts c)
  = Rmax 0 (shakeTimer c - total dts).
Proof.
  induction dts as [|dt dts IH]; intros c Hdts Ht; simpl.
  { unfold Rmax. destruct (Rle_dec _ _); lra. }
  apply Forall_cons in Hdts as [Hdt Hdts].
  destruct (update_countdown dt c Hdt Ht) as (Hu & _).
  pose proof (total_nonneg dts Hdts). rewrite IH, Hu; [|done|].
  - unfold Rmax. repeat destruct (Rle_dec _ _); lra.
  - rewrite Hu. unfold Rmax. destruct (Rle_dec _ _); lra.
Qed.

(** X18.  A shake ends on time: after [shake(duration, magnitude)] with
    [duration >= 0] and any sequence of updates with steps [dt >= 0], the
    countdown is the duration less the time elapsed, and 0 once that much time
    has passed; it is never negative. *)
Theorem shake_ends_on_time (duration magnitude : R) (dts : list R) (c : Camera.t) :
  0 <= duration -> Forall (fun dt => 0 <= dt) dts ->
  shakeTimer (fold_left (fun c dt => update dt c) dts (shake duration magnitude c))
  = Rmax 0 (duration - total dts).
Proof. intros Hd Hdts. by rewrite updates_countdown. Qed.
End CameraFacts.

(** ** Goals and items *)

Section PickupFacts.
Import Pickups.

(** A goal the body collects in this call. *)
Definition fresh (player : Player.t) (g : Goal.t) : bool :=
  negb (Goal.collected g) && inReach player g.

Definition gather (player : Player.t) (g : Goal.t) : Goal.t :=
  Goal.mk (Goal.x g) (Goal.y g) (Goal.collected g || inReach player g).

(** How many goals the call collects. *)
Definition newly (player : Player.t) (goals : list Goal.t) : nat :=
  length (List.filter (fresh player) goals).

Lemma collectGoals_spec runActive player goals : forall n currency,
  collectGoals runActive player goals n currency
  = (gather player <$> goals, (n + newly player goals)%nat,
     addCurrency runActive (INR (newly player goals)) currency).
Proof.
  unfold newly.
  induction goals as [|g goals IH]; intros n currency; cbn [collectGoals List.filter].
  { simpl. rewrite Nat.add_0_r. unfold addCurrency. destruct runActive; f_equal; lra. }
  rewrite fmap_cons.
  assert (Hstep :
    (if negb (Goal.collected g) then
       if inReach player g
       then (Goal.mk (Goal.x g) (Goal.y g) true, S n, addCurrency runActive 1 currency)
       else (g, n, currency)
     else (g, n, currency))
    = (gather player g, if fresh player g then S n else n,
       if fresh player g then addCurrency runActive 1 currency else currency)).
  { unfold fresh, gather. destruct g as [gx gy [|]]; simpl; [done|].
    by destruct (inReach player _). }
  rewrite Hstep, IH. destruct (fresh player g); [|done].
  cbn [length]. rewrite S_INR. unfold addCurrency.
  f_equal; [f_equal; lia|destruct runActive; lra].
Qed.

(** X19.  Goal collection counts every goal once.  One pass marks exactly
    the goals that were not collected and are in reach of the body, leaves
    every goal where it is, adds their number to [collectedGoals] and, in an
    active run, the same number to the currency; a second pass with the body
    in the same place marks and adds nothing. *)
Theorem goals_are_counted_once (runActive : bool) (player : Player.t)
    (goals : list Goal.t) (n : nat) (currency : R) :
  let r := collectGoals runActive player goals n currency in
  r.1.1 = (fun g => Goal.mk (Goal.x g) (Goal.y g)
                      (Goal.collected g || inReach player g)) <$> goals
  /\ r.1.2 = (n + newly player goals)%nat
  /\ r.2 = (if runActive then currency + INR (newly player goals) else currency)
  /\ collectGoals runActive player r.1.1 r.1.2 r.2 = r.
Proof.
  cbv zeta. rewrite collectGoals_spec. cbn [fst snd].
  split; [done|]. split; [done|]. split; [done|].
  rewrite collectGoals_spec.
  assert (Hnone : newly player (gather player <$> goals) = 0%nat).
  { assert (Hg : forall g, fresh player (gather player g) = false).
    { intros g. unfold fresh, gather, inReach. cbn [Goal.collected Goal.x Goal.y].
      by destruct (Goal.collected g), (bool_decide _). }
    unfold newly. induction goals as [|g goals IH]; [done|].
    rewrite fmap_cons. cbn [List.filter]. by rewrite Hg. }
  rewrite Hnone, Nat.add_0_r.
  assert (Hsame : gather player <$> (gather player <$> goals) = gather player <$> goals).
  { rewrite <- list_fmap_compose. apply list_fmap_ext. intros _ g _.
    unfold gather, inReach. simpl. by rewrite <- orb_assoc, orb_diag. }
  rewrite Hsame. unfold addCurrency. f_equal. destruct runActive; simpl; lra.
Qed.

(** What the item loop reads of the body and does not write. *)
Definition frameOf (p : Player.t) :=
  (Player.x p, Player.y p, Player.width p, Player.height p, Player.maxHp p, Player.maxMp p).

Definition used (player : Player.t) (item : Item.t) : Item.t :=
  Item.mk (Item.type item) (Item.x item) (Item.y item)
          (Item.collected item || touches player item).

Lemma touches_frameOf p q item : frameOf p = frameOf q -> touches p item = touches q item.
Proof. unfold frameOf, touches. by intros [= -> -> -> -> _ _]. Qed.

Lemma collectItem_spec p item :
  Player.hp p <= Player.maxHp p -> Player.mp p <= Player.maxMp p ->
  let r := collectItem p item in
  r.1 = used p item /\ frameOf r.2 = frameOf p
  /\ Player.hp p <= Player.hp r.2 <= Player.maxHp p
  /\ Player.mp p <= Player.mp r.2 <= Player.maxMp p.
Proof.
  intros Hhp Hmp. cbv zeta. unfold collectItem, used. cbv zeta.
  destruct item as [ty ix iy [|]]; cbn [Item.type Item.x Item.y Item.collected negb andb orb].
  { repeat split; try done; lra. }
  destruct (touches p _); [|repeat split; try done; lra].
  repeat case_bool_decide; cbn [fst snd]; fields.
  all: repeat split; try done; try lra.
  all: unfold Rmin; destruct (Rle_dec _ _); lra.
Qed.

Lemma collectItems_spec items : forall p,
  Player.hp p <= Player.maxHp p -> Player.mp p <= Player.maxMp p ->
  let r := collectItems items p in
  r.1 = used p <$> items /\ frameOf r.2 = frameOf p
  /\ Player.hp p <= Player.hp r.2 <= Player.maxHp p
  /\ Player.mp p <= Player.mp r.2 <= Player.maxMp p.
Proof.
  induction items as [|item items IH]; intros p Hhp Hmp; cbv zeta; cbn [collectItems].
  { repeat split; try done; lra. }
  destruct (collectItem_spec p item Hhp Hmp) as (H1 & Hf1 & Hhp1 & Hmp1).
  destruct (collectItem p item) as [item1 p1]. cbn [fst snd] in *.
  assert (Hmax : Player.maxHp p1 = Player.maxHp p /\ Player.maxMp p1 = Player.maxMp p).
  { unfold frameOf in Hf1. by injection Hf1 as _ _ _ _ -> ->. }
  destruct Hmax as [Hmaxhp Hmaxmp].
  destruct (IH p1) as (H2 & Hf2 & Hhp2 & Hmp2); [lra..|].
  destruct (collectItems items p1) as [items2 p2]. cbn [fst snd] in *.
  split; [|split; [congruence|split; lra]].
  rewrite fmap_cons, H1, H2. f_equal. apply list_fmap_ext. intros _ it _.
  unfold used. by rewrite (touches_frameOf p1 p).
Qed.

(** Nothing happens where every item is collected already or out of reach. *)
Lemma collectItems_idle items p :
  Forall (fun item => Item.collected item = true \/ touches p item = false) items ->
  collectItems items p = (items, p).
Proof.
  induction 1 as [|item items Hit _ IH]; cbn [collectItems]; [done|].
  assert (Hstep : collectItem p item = (item, p)).
  { unfold collectItem. by destruct Hit as [->| ->]; rewrite ?andb_false_r. }
  by rewrite Hstep, IH.
Qed.

(** X20.  Items restore no more than the body can hold.  On a body whose
    hp and mp are within their maxima, one pass of the item loop marks
    exactly the items that were not collected and are touched, does not move
    the body or change its maxima, and leaves hp and mp between their old
    values and the maxima; a second pass with the body in the same place
    changes nothing. *)
Theorem items_restore_within_max (items : list Item.t) (p : Player.t) :
  Player.hp p <= Player.maxHp p -> Player.mp p <= Player.maxMp p ->
  let r := collectItems items p in
  r.1 = (fun item => Item.mk (Item.type item) (Item.x item) (Item.y item)
                       (Item.collected item || touches p item)) <$> items
  /\ Player.hp p <= Player.hp r.2 <= Player.maxHp p
  /\ Player.mp p <= Player.mp r.2 <= Player.maxMp p
  /\ Player.maxHp r.2 = Player.maxHp p /\ Player.maxMp r.2 = Player.maxMp p
  /\ Player.x r.2 = Player.x p /\ Player.y r.2 = Player.y p
  /\ collectItems r.1 r.2 = r.
Proof.
  intros Hhp Hmp. cbv zeta.
  destruct (collectItems_spec items p Hhp Hmp) as (H1 & Hf & Hhp1 & Hmp1).
  destruct (collectItems items p) as [items1 p1]. cbn [fst snd] in *.
  pose proof Hf as Hf'. unfold frameOf in Hf'.
  injection Hf' as Hx Hy Hw Hh Hmaxhp Hmaxmp.
  do 7 (split; [done|]). apply collectItems_idle.
  rewrite H1. apply Forall_fmap, Forall_forall. intros it _. simpl.
  rewrite (touches_frameOf p1 p) by done. unfold used, touches.
  cbn [Item.type Item.x Item.y Item.collected].
  destruct (Item.collected it), (bool_decide _); auto.
Qed.
End PickupFacts.

Section PickupExamples.
Import Camera Pickups.

Lemma shake_ends_on_time_witness :
  shakeTimer (fold_left (fun c dt => Camera.update dt c) [0.1; 0.1; 0.1]
                        (shake 0.2 5 Camera.init))
  = Rmax 0 (0.2 - total [0.1; 0.1; 0.1]).
Proof.
  apply shake_ends_on_time; [lra|].
  apply Forall_cons. split; [lra|]. apply Forall_cons. split; [lra|].
  apply Forall_cons. split; [lra|]. apply Forall_nil_2.
Defined.

(** A wounded body next to a health item. *)
Lemma items_restore_within_max_witness :
  50 <= Player.hp (collectItems [Item.mk "hp" 115 115 false]
                                (Player.reset |> Player.set_hp 50)).2 <= 100.
Proof.
  refine (proj1 (proj2 (items_restore_within_max [Item.mk "hp" 115 115 false]
                          (Player.reset |> Player.set_hp 50) _ _))).
  - evaluate. lra.
  - evaluate. lra.
Defined.
End PickupExamples.

(** ** The list of levels *)

Section LevelManagerFacts.
Import LevelManager.
Context {Level : Type}.
Variable ensureSettings : Level -> Level.

(** The current index names a level. *)
Definition valid (m : @LevelManager.t Level) : Prop :=
  (0 <= currentLevelIndex m < len m)%Z.

Lemma swap_cons i j (x : Level) l : swap (S i) (S j) (x :: l) = x :: swap i j l.
Proof. unfold swap. simpl. by destruct (l !! i), (l !! j). Qed.

(** Exchanging two neighbours. *)
Lemma swap_neighbours (l1 : list Level) a b l2 :
  swap (S (length l1)) (length l1) (l1 ++ a :: b :: l2) = l1 ++ b :: a :: l2
  /\ swap (length l1) (S (length l1)) (l1 ++ a :: b :: l2) = l1 ++ b :: a :: l2.
Proof.
  induction l1 as [|x l1 [IH1 IH2]]; [done|].
  cbn [length app]. by rewrite !swap_cons, IH1, IH2.
Qed.

Lemma lookup_neighbours (l1 : list Level) a b l2 k :
  (l1 ++ a :: b :: l2) !! k
  = if decide (k < length l1)%nat then l1 !! k
    else if decide (k = length l1) then Some a
    else if decide (k = S (length l1)) then Some b
    else l2 !! (k - length l1 - 2)%nat.
Proof.
  destruct (decide (k < length l1)%nat) as [Hlt|Hge]; [by rewrite lookup_app_l|].
  rewrite lookup_app_r by lia.
  destruct (decide (k = length l1)) as [->|Hne].
  { by rewrite Nat.sub_diag. }
  destruct (decide (k = S (length l1))) as [->|Hne'].
  { replace (S (length l1) - length l1)%nat with 1%nat by lia. by simpl. }
  destruct (k - length l1)%nat as [|[|n]] eqn:Hk; [lia..|].
  simpl. by rewrite Nat.sub_0_r.
Qed.

(** Two neighbours of a list, taken apart. *)
Lemma split_neighbours (l : list Level) j :
  (S j < length l)%nat ->
  exists l1 a b l2, l = l1 ++ a :: b :: l2 /\ length l1 = j.
Proof.
  intros Hj.
  destruct (lookup_lt_is_Some_2 l j) as [a Ha]; [lia|].
  destruct (lookup_lt_is_Some_2 l (S j)) as [b Hb]; [lia|].
  exists (take j l), a, b, (drop (S (S j)) l). split.
  - rewrite <- (take_drop_middle l j a Ha) at 1. f_equal. f_equal.
    by rewrite <- (take_drop_middle l (S j) b Hb) at 1; rewrite drop_app_length'
      by (rewrite length_take; lia).
  - rewrite length_take. lia.
Qed.

(** Where the current index goes when the levels at [n] and [n + 1] change
    places. *)
Definition follows (n c : Z) : Z :=
  if bool_decide (c = n) then (n + 1)%Z
  else if bool_decide (c = n + 1)%Z then n else c.

Lemma follows_involutive n c : follows n (follows n c) = c.
Proof. unfold follows. repeat case_bool_decide; lia. Qed.

Lemma at_swapped (l1 : list Level) a b l2 c :
  at_ (l1 ++ b :: a :: l2) (follows (Z.of_nat (length l1)) c)
  = at_ (l1 ++ a :: b :: l2) c.
Proof.
  unfold at_, follows. rewrite !lookup_neighbours.
  repeat case_bool_decide; repeat case_decide; try lia; done.
Qed.

Lemma moveLevelUp_spec index (m : @LevelManager.t Level) :
  (0 < index < len m)%Z ->
  exists l1 a b l2,
    levels m = l1 ++ a :: b :: l2 /\ Z.of_nat (length l1) = (index - 1)%Z
    /\ moveLevelUp index m
       = LevelManager.mk (l1 ++ b :: a :: l2) (follows (index - 1) (currentLevelIndex m)).
Proof.
  intros Hi. unfold len in Hi.
  destruct (split_neighbours (levels m) (Z.to_nat (index - 1))) as (l1 & a & b & l2 & Hl & Hn);
    [lia|].
  exists l1, a, b, l2. split; [done|]. split; [lia|].
  unfold moveLevelUp, len. rewrite !bool_decide_eq_true_2 by lia. cbn [andb].
  replace (Z.to_nat index) with (S (length l1)) by lia. rewrite <- Hn, Hl.
  rewrite (proj1 (swap_neighbours l1 a b l2)). f_equal.
  unfold follows. repeat case_bool_decide; lia.
Qed.

Lemma moveLevelDown_spec index (m : @LevelManager.t Level) :
  (0 <= index < len m - 1)%Z ->
  exists l1 a b l2,
    levels m = l1 ++ a :: b :: l2 /\ Z.of_nat (length l1) = index
    /\ moveLevelDown index m
       = LevelManager.mk (l1 ++ b :: a :: l2) (follows index (currentLevelIndex m)).
Proof.
  intros Hi. unfold len in Hi.
  destruct (split_neighbours (levels m) (Z.to_nat index)) as (l1 & a & b & l2 & Hl & Hn);
    [lia|].
  exists l1, a, b, l2. split; [done|]. split; [lia|].
  unfold moveLevelDown, len. rewrite !bool_decide_eq_true_2 by lia. cbn [andb].
  replace (Z.to_nat (index + 1)) with (S (length l1)) by lia. rewrite <- Hn, Hl.
  rewrite (proj2 (swap_neighbours l1 a b l2)). f_equal.
  unfold follows. repeat case_bool_decide; lia.
Qed.

Lemma reordered_keeps (l1 : list Level) a b l2 c (m : @LevelManager.t Level) :
  levels m = l1 ++ a :: b :: l2 -> currentLevelIndex m = c -> valid m ->
  let m' := LevelManager.mk (l1 ++ b :: a :: l2) (follows (Z.of_nat (length l1)) c) in
  getCurrentLevel m' = getCurrentLevel m /\ levels m' ≡ₚ levels m /\ valid m'.
Proof.
  intros Hl Hc Hv. cbv zeta. unfold getCurrentLevel, valid, len in *.
  cbn [levels currentLevelIndex]. rewrite Hl, Hc in *. split; [apply at_swapped|].
  split; [apply Permutation_app_head, perm_swap|].
  rewrite !length_app in *. cbn [length] in *. unfold follows.
  repeat case_bool_decide; lia.
Qed.

(** X21.  Reordering the levels does not change the level being worked
    on.  [moveLevelUp] and [moveLevelDown] only rearrange the list, and the
    current index follows: it still names a level, and the same one. *)
Theorem reordering_keeps_the_current_level (index : Z) (m : @LevelManager.t Level) :
  valid m ->
  (getCurrentLevel (moveLevelUp index m) = getCurrentLevel m
   /\ levels (moveLevelUp index m) ≡ₚ levels m /\ valid (moveLevelUp index m))
  /\ (getCurrentLevel (moveLevelDown index m) = getCurrentLevel m
      /\ levels (moveLevelDown index m) ≡ₚ levels m /\ valid (moveLevelDown index m)).
Proof.
  intros Hv. split.
  - destruct (decide (0 < index < len m)%Z) as [Hi|Hi].
    + destruct (moveLevelUp_spec index m Hi) as (l1 & a & b & l2 & Hl & Hn & ->).
      rewrite <- Hn. by apply reordered_keeps.
    + unfold moveLevelUp. case_bool_decide; [case_bool_decide; [lia|]|]; done.
  - destruct (decide (0 <= index < len m - 1)%Z) as [Hi|Hi].
    + destruct (moveLevelDown_spec index m Hi) as (l1 & a & b & l2 & Hl & Hn & ->).
      rewrite <- Hn. by apply reordered_keeps.
    + unfold moveLevelDown. case_bool_decide; [case_bool_decide; [lia|]|]; done.
Qed.

(** X22.  Moving a level up and then down again, or down and then up
    again, gives back the manager as it was. *)
Theorem reordering_round_trip (index : Z) (m : @LevelManager.t Level) :
  ((0 < index < len m)%Z -> moveLevelDown (index - 1) (moveLevelUp index m) = m)
  /\ ((0 <= index < len m - 1)%Z -> moveLevelUp (index + 1) (moveLevelDown index m) = m).
Proof.
  split; intros Hi.
  - destruct (moveLevelUp_spec index m Hi) as (l1 & a & b & l2 & Hl & Hn & ->).
    destruct m as [l c]. cbn [levels currentLevelIndex] in *. subst l.
    unfold len in Hi. cbn [levels] in Hi. rewrite length_app in Hi. cbn [length] in Hi.
    unfold moveLevelDown, len. cbn [levels currentLevelIndex].
    rewrite length_app. cbn [length]. rewrite !bool_decide_eq_true_2 by lia. cbn [andb].
    replace (Z.to_nat (index - 1)) with (length l1) by lia.
    replace (Z.to_nat (index - 1 + 1)) with (S (length l1)) by lia.
    rewrite (proj2 (swap_neighbours l1 b a l2)). f_equal.
    unfold follows. repeat case_bool_decide; lia.
  - destruct (moveLevelDown_spec index m Hi) as (l1 & a & b & l2 & Hl & Hn & ->).
    destruct m as [l c]. cbn [levels currentLevelIndex] in *. subst l.
    unfold len in Hi. cbn [levels] in Hi. rewrite length_app in Hi. cbn [length] in Hi.
    unfold moveLevelUp, len. cbn [levels currentLevelIndex].
    rewrite length_app. cbn [length]. rewrite !bool_decide_eq_true_2 by lia. cbn [andb].
    replace (Z.to_nat (index + 1 - 1)) with (length l1) by lia.
    replace (Z.to_nat (index + 1)) with (S (length l1)) by lia.
    rewrite (proj1 (swap_neighbours l1 b a l2)). f_equal.
    unfold follows. repeat case_bool_decide; lia.
Qed.






End LevelManagerFacts.

Section LevelManagerExamples.
Import LevelManager.

(** Three levels, the second one open; a level is its number here. *)
Definition threeLevels : @LevelManager.t nat :=
  LevelManager.mk [10; 20; 30]%nat 1.

Lemma reordering_keeps_the_current_level_witness :
  getCurrentLevel (moveLevelUp 1 threeLevels) = getCurrentLevel threeLevels.
Proof.
  refine (proj1 (proj1 (reordering_keeps_the_current_level 1 threeLevels _))).
  unfold valid, threeLevels, len. simpl. lia.
Defined.

End LevelManagerExamples.
